(** * node_react_flow: the graph evaluator and the edit history

    A shallow embedding of [utils/graphUtils.ts] ([calculateGraph]),
    [types.ts] and the history code of [App.tsx] ([takeSnapshot], [undo],
    [redo], [updateNodeValue]).

    JavaScript numbers are IEEE 754 binary64 values: they are modelled by
    Rocq's primitive [float], whose [PrimFloat.eqb] is the IEEE comparison
    behind [===] on numbers ([nan] is different from itself, [0] equals
    [-0]).  An optional property ([value?: number]) is an [option].

    Objects that the program mutates live in an explicit store ([Heap]);
    arrays are never updated in place by this code (every change builds a
    new array), so an array is the list of the references it holds. *)

From Stdlib Require Import List Arith Lia String Floats Bool.
From stdpp Require Import base list pretty.
From Equations Require Import Equations.
Import ListNotations.

Local Open Scope string_scope.
Local Open Scope list_scope.

(** ** types.ts *)

Module MathOperation.
Inductive t : Set := add | subtract | multiply | divide.
End MathOperation.

(** The callback stored in [data.onChange]; the only function the program
    ever stores there is [updateNodeValue]. *)
Inductive Callback : Set := updateNodeValue_ref.

Record NodeData : Type := mkNodeData {
  label : option string;
  value : option float;          (* current calculated value *)
  inputValue : option float;     (* user entered value, for Input nodes *)
  operation : option MathOperation.t;
  onChange : option Callback
}.

Record XYPosition : Type := mkXY { x : float; y : float }.

(** reactflow's [Node<T>]: the fields this program reads or writes.  With
    [D := NodeData] it is a node seen as a value; with [D := loc] it is a
    node object of the store, whose [data] is a reference. *)
Record Node (D : Type) : Type := mkNode {
  id : string;
  type : option string;
  position : XYPosition;
  data : D
}.
Arguments mkNode {D} _ _ _ _.
Arguments id {D} _.
Arguments type {D} _.
Arguments position {D} _.
Arguments data {D} _.

Abbreviation AppNode := (Node NodeData).

(** A handle id is [string | null | undefined]. *)
Inductive Handle : Set := undefined_handle | null_handle | handle (s : string).

Record AppEdge : Type := mkEdge {
  edge_id : string;
  source : string;
  target : string;
  sourceHandle : Handle;
  targetHandle : Handle;
  animated : option bool
}.

Module NodeType.
Definition INPUT : string := "inputNode".
Definition OUTPUT : string := "outputNode".
Definition MATH : string := "mathNode".
End NodeType.

(** ** JavaScript operators used by the code *)

(** [node.type === NodeType.X] *)
Definition type_is {D} (n : Node D) (t : string) : bool :=
  match type n with
  | Some s => String.eqb s t
  | None => false
  end.

(** [a !== b] on [number | undefined]. *)
Definition strict_neq (a b : option float) : bool :=
  match a, b with
  | None, None => false
  | Some u, Some v => negb (PrimFloat.eqb u v)
  | _, _ => true
  end.

(** [a === b] on handle ids. *)
Definition handle_eqb (a b : Handle) : bool :=
  match a, b with
  | undefined_handle, undefined_handle => true
  | null_handle, null_handle => true
  | handle s, handle s' => String.eqb s s'
  | _, _ => false
  end.

(** Truthiness of a handle id: [null], [undefined] and the empty string are
    falsy. *)
Definition truthy (h : Handle) : bool :=
  match h with
  | handle s => negb (String.eqb s "")
  | _ => false
  end.

(** [{ ...node.data, value: v }], the effect of [node.data.value = v] seen on
    the value of the node. *)
Definition set_value (n : AppNode) (v : option float) : AppNode :=
  mkNode (id n) (type n) (position n)
    (mkNodeData (label (data n)) v (inputValue (data n))
       (operation (data n)) (onChange (data n))).

(** ** utils/graphUtils.ts: the parts shared by both views of the store *)

(** The predicate of [edges.find] in [getSourceValue]. *)
Definition edge_matches (targetNodeId : string) (handleId : Handle)
    (e : AppEdge) : bool :=
  String.eqb (target e) targetNodeId
  && (if truthy handleId then handle_eqb (targetHandle e) handleId else true).

(** [getSourceValue]; [get] is [nodeMap.get], which gives the node stored
    under a key as it is now. *)
Definition getSourceValue (get : string -> option AppNode)
    (edges : list AppEdge) (targetNodeId : string) (handleId : Handle)
    : option float :=
  match find (edge_matches targetNodeId handleId) edges with
  | None => None
  | Some edge =>
      match get (source edge) with
      | None => None
      | Some sourceNode =>
          if type_is sourceNode NodeType.INPUT
          then inputValue (data sourceNode)
          else value (data sourceNode)
      end
  end.

(** The [switch] on [node.data.operation]; no case is taken when the
    operation is undefined. *)
Definition apply_operation (op : option MathOperation.t) (valA valB : float)
    : option float :=
  match op with
  | Some MathOperation.add => Some (valA + valB)%float
  | Some MathOperation.subtract => Some (valA - valB)%float
  | Some MathOperation.multiply => Some (valA * valB)%float
  | Some MathOperation.divide =>
      Some (if negb (PrimFloat.eqb valB 0) then (valA / valB)%float else nan)
  | None => None
  end.

(** [newValue] of one turn of the [for] loop (lines 44 to 60). *)
Definition newValue (get : string -> option AppNode) (edges : list AppEdge)
    (node : AppNode) : option float :=
  if type_is node NodeType.MATH then
    match getSourceValue get edges (id node) (handle "a"),
          getSourceValue get edges (id node) (handle "b") with
    | Some valA, Some valB => apply_operation (operation (data node)) valA valB
    | _, _ => None
    end
  else if type_is node NodeType.OUTPUT then
    getSourceValue get edges (id node) null_handle
  else None.

Definition MAX_ITERATIONS : nat := 50.

(** The [while (changed && iterations < 50)] loop of lines 34 to 68, over any
    representation [M] of the contents of [nodeMap]; [pass] is one run of the
    [for] loop and tells whether it set [changed]. *)
Section Loop.
Context {M : Type} (pass : M -> M * bool).

Record LoopState : Type := mkLoop {
  current : M;
  changed : bool;
  iterations : nat
}.

Definition loop_cond (s : LoopState) : bool :=
  changed s && (iterations s <? MAX_ITERATIONS)%nat.

Definition loop_body (s : LoopState) : LoopState :=
  let (m, c) := pass (current s) in
  mkLoop m c (S (iterations s)).

Definition passes_left (s : LoopState) : nat :=
  MAX_ITERATIONS - iterations s.

Lemma loop_body_decreases s :
  loop_cond s = true -> passes_left (loop_body s) < passes_left s.
Proof.
  unfold loop_cond, passes_left, loop_body. intros H.
  apply andb_prop in H. destruct H as [_ H]. apply Nat.ltb_lt in H.
  destruct (pass (current s)). cbn [iterations]. lia.
Qed.

Definition inspect {A} (a : A) : {b : A | a = b} := exist _ a eq_refl.

Equations while_loop (s : LoopState) : LoopState by wf (passes_left s) lt :=
  while_loop s with inspect (loop_cond s) => {
    | exist _ true H := while_loop (loop_body s);
    | exist _ false _ := s }.
Next Obligation. intros. apply loop_body_decreases. assumption. Qed.

End Loop.
Arguments LoopState : clear implicits.
Arguments mkLoop {M} _ _ _.

(** ** calculateGraph on node values *)

Module Pure.

(** [nodeMap]: a [Map<string, AppNode>] keeps its entries in insertion order
    and every entry is stored under its own [id] (line 11), so the map is the
    ordered list of its values.  [set] on a key that is present replaces the
    value where it stands; otherwise the entry goes to the end. *)
Fixpoint nodeMap_set (m : list AppNode) (n : AppNode) : list AppNode :=
  match m with
  | [] => [n]
  | n0 :: m' =>
      if String.eqb (id n0) (id n) then n :: m' else n0 :: nodeMap_set m' n
  end.

Definition nodeMap_get (m : list AppNode) (k : string) : option AppNode :=
  find (fun n => String.eqb (id n) k) m.

(** [nodes.forEach(node => nodeMap.set(node.id, copy of node))] *)
Definition nodeMap_of (nodes : list AppNode) : list AppNode :=
  fold_left nodeMap_set nodes [].

(** One turn of [for (const node of nodeMap.values())], at the [i]-th entry:
    the map after the turn and whether the turn set [changed]. *)
Definition visit (edges : list AppEdge) (m : list AppNode) (i : nat)
    : list AppNode * bool :=
  match m !! i with
  | None => (m, false)
  | Some node =>
      if type_is node NodeType.INPUT then (m, false)
      else
        let nv := newValue (nodeMap_get m) edges node in
        if strict_neq (value (data node)) nv
        then (<[i := set_value node nv]> m, true)
        else (m, false)
  end.

(** The turns from entry [i] on, [n] of them. *)
Fixpoint visit_from (edges : list AppEdge) (n i : nat) (m : list AppNode)
    (changed : bool) : list AppNode * bool :=
  match n with
  | 0 => (m, changed)
  | S n' =>
      let (m', c) := visit edges m i in
      visit_from edges n' (S i) m' (changed || c)
  end.

(** A full pass: the body of the [while] loop after [changed = false]. *)
Definition pass (edges : list AppEdge) (m : list AppNode)
    : list AppNode * bool :=
  visit_from edges (length m) 0 m false.

(** The state in which the loop ends. *)
Definition run (nodes : list AppNode) (edges : list AppEdge)
    : LoopState (list AppNode) :=
  while_loop (pass edges) (mkLoop (nodeMap_of nodes) true 0).

Definition calculateGraph (nodes : list AppNode) (edges : list AppEdge)
    : list AppNode :=
  current (run nodes edges).

End Pure.

(** ** The store *)

(** A reference is an index into the store; allocation appends. *)
Abbreviation loc := nat (only parsing).

Record Heap : Type := mkHeap {
  node_objs : list (Node loc);   (* node objects; [data] is a reference *)
  data_objs : list NodeData      (* the objects held in [data] *)
}.

Definition alloc_data (h : Heap) (d : NodeData) : Heap * loc :=
  (mkHeap (node_objs h) (data_objs h ++ [d]), length (data_objs h)).

Definition alloc_node (h : Heap) (n : Node loc) : Heap * loc :=
  (mkHeap (node_objs h ++ [n]) (data_objs h), length (node_objs h)).

(** The value of the node object at [l]: its fields and the fields of the
    object its [data] refers to. *)
Definition read_node (h : Heap) (l : loc) : option AppNode :=
  match node_objs h !! l with
  | None => None
  | Some n =>
      match data_objs h !! data n with
      | None => None
      | Some d => Some (mkNode (id n) (type n) (position n) d)
      end
  end.

Definition read_nodes (h : Heap) (ls : list loc) : option (list AppNode) :=
  mapM (read_node h) ls.

(** [node.data.value = v] on the node object at [l]. *)
Definition write_value (h : Heap) (l : loc) (v : option float) : Heap :=
  match node_objs h !! l with
  | None => h
  | Some n =>
      match data_objs h !! data n with
      | None => h
      | Some d =>
          mkHeap (node_objs h)
            (<[data n := mkNodeData (label d) v (inputValue d) (operation d)
                           (onChange d)]> (data_objs h))
      end
  end.

(** [node.data = { ...node.data, inputValue: v }] on the node object at [l]:
    a new data object, and the node now refers to it. *)
Definition replace_inputValue (h : Heap) (l : loc) (v : float) : Heap :=
  match node_objs h !! l with
  | None => h
  | Some n =>
      match data_objs h !! data n with
      | None => h
      | Some d =>
          let (h1, dl) :=
            alloc_data h (mkNodeData (label d) (value d) (Some v)
                            (operation d) (onChange d)) in
          mkHeap (<[l := mkNode (id n) (type n) (position n) dl]> (node_objs h1))
            (data_objs h1)
      end
  end.

(** ** calculateGraph on the store *)

Module Store.

(** [nodeMap] holds references: the entries (key, reference) in insertion
    order. *)
Fixpoint nodeMap_set (m : list (string * loc)) (k : string) (l : loc)
    : list (string * loc) :=
  match m with
  | [] => [(k, l)]
  | (k0, l0) :: m' =>
      if String.eqb k0 k then (k0, l) :: m' else (k0, l0) :: nodeMap_set m' k l
  end.

Definition nodeMap_get (m : list (string * loc)) (k : string) : option loc :=
  match find (fun e => String.eqb (fst e) k) m with
  | Some e => Some (snd e)
  | None => None
  end.

(** [nodeMap.set(node.id, { ...node, data: { ...node.data } })] for the node
    object at [l]: both copies are new objects. *)
Definition copy_into (st : Heap * list (string * loc)) (l : loc)
    : Heap * list (string * loc) :=
  let (h, m) := st in
  match node_objs h !! l with
  | None => st
  | Some n =>
      match data_objs h !! data n with
      | None => st
      | Some d =>
          let (h1, dl) := alloc_data h d in
          let (h2, nl) :=
            alloc_node h1 (mkNode (id n) (type n) (position n) dl) in
          (h2, nodeMap_set m (id n) nl)
      end
  end.

Definition nodeMap_of (h : Heap) (nodes : list loc)
    : Heap * list (string * loc) :=
  fold_left copy_into nodes (h, []).

(** [nodeMap.get(k)] followed by the reads of the fields of the node. *)
Definition get_node (m : list (string * loc)) (h : Heap) (k : string)
    : option AppNode :=
  match nodeMap_get m k with
  | Some l => read_node h l
  | None => None
  end.

Definition visit (m : list (string * loc)) (edges : list AppEdge) (h : Heap)
    (l : loc) : Heap * bool :=
  match read_node h l with
  | None => (h, false)
  | Some node =>
      if type_is node NodeType.INPUT then (h, false)
      else
        let nv := newValue (get_node m h) edges node in
        if strict_neq (value (data node)) nv
        then (write_value h l nv, true)
        else (h, false)
  end.

Fixpoint visit_all (m : list (string * loc)) (edges : list AppEdge)
    (ls : list loc) (h : Heap) (changed : bool) : Heap * bool :=
  match ls with
  | [] => (h, changed)
  | l :: ls' =>
      let (h', c) := visit m edges h l in
      visit_all m edges ls' h' (changed || c)
  end.

Definition pass (m : list (string * loc)) (edges : list AppEdge) (h : Heap)
    : Heap * bool :=
  visit_all m edges (map snd m) h false.

Definition run (h : Heap) (nodes : list loc) (edges : list AppEdge)
    : LoopState Heap * list (string * loc) :=
  let (h0, m) := nodeMap_of h nodes in
  (while_loop (pass m edges) (mkLoop h0 true 0), m).

(** The store after the call and the array it returns,
    [Array.from(nodeMap.values())]. *)
Definition calculateGraph (h : Heap) (nodes : list loc) (edges : list AppEdge)
    : Heap * list loc :=
  let (s, m) := run h nodes edges in
  (current s, map snd m).

End Store.

(** ** JSON.stringify, as far as [takeSnapshot] needs it *)

(** [takeSnapshot] compares two serialisations with [===].  The text that
    [JSON.stringify] writes is determined by, and determines, the tree below
    (numbers, strings, arrays and objects are written injectively), so the
    comparison of the texts is the comparison of the trees.  Keys come in
    the order in which this program adds them to its objects ([value], which
    [calculateGraph] adds, is the last key of [data]); [onChange] holds a
    function and is left out. *)
#[warnings="-register-all"]
Inductive json : Type :=
  | JNull
  | JBool (b : bool)
  | JNum (f : float)
  | JStr (s : string)
  | JArr (items : list json)
  | JObj (fields : list (string * json)).

Fixpoint json_eqb (a b : json) : bool :=
  match a, b with
  | JNull, JNull => true
  | JBool u, JBool v => Bool.eqb u v
  | JNum f, JNum g => PrimFloat.Leibniz.eqb f g
  | JStr s, JStr t => String.eqb s t
  | JArr l, JArr l' =>
      (fix go (l l' : list json) : bool :=
         match l, l' with
         | [], [] => true
         | u :: l, v :: l' => json_eqb u v && go l l'
         | _, _ => false
         end) l l'
  | JObj l, JObj l' =>
      (fix go (l l' : list (string * json)) : bool :=
         match l, l' with
         | [], [] => true
         | (k, u) :: l, (k', v) :: l' =>
             String.eqb k k' && json_eqb u v && go l l'
         | _, _ => false
         end) l l'
  | _, _ => false
  end.

(** A number: [NaN] and the infinities are written [null], and [-0] is
    written like [0]. *)
Definition json_number (f : float) : json :=
  if PrimFloat.is_finite f
  then JNum (if PrimFloat.is_zero f then 0%float else f)
  else JNull.

(** A property whose value is undefined (or a function) is left out. *)
Definition json_field {A} (k : string) (to : A -> json) (v : option A)
    : list (string * json) :=
  match v with
  | Some a => [(k, to a)]
  | None => []
  end.

Definition json_operation (op : MathOperation.t) : json :=
  JStr match op with
       | MathOperation.add => "add"
       | MathOperation.subtract => "subtract"
       | MathOperation.multiply => "multiply"
       | MathOperation.divide => "divide"
       end.

Definition json_data (d : NodeData) : json :=
  JObj (json_field "label" JStr (label d)
        ++ json_field "inputValue" json_number (inputValue d)
        ++ json_field "operation" json_operation (operation d)
        ++ json_field "value" json_number (value d)).

Definition json_node (n : AppNode) : json :=
  JObj ([("id", JStr (id n))]
        ++ json_field "type" JStr (type n)
        ++ [("position",
             JObj [("x", json_number (x (position n)));
                   ("y", json_number (y (position n)))]);
            ("data", json_data (data n))]).

Definition json_handle (k : string) (h : Handle) : list (string * json) :=
  match h with
  | undefined_handle => []
  | null_handle => [(k, JNull)]
  | handle s => [(k, JStr s)]
  end.

Definition json_edge (e : AppEdge) : json :=
  JObj ([("id", JStr (edge_id e)); ("source", JStr (source e));
         ("target", JStr (target e))]
        ++ json_handle "sourceHandle" (sourceHandle e)
        ++ json_handle "targetHandle" (targetHandle e)
        ++ json_field "animated" JBool (animated e)).

(** ** App.tsx: the edit history *)

Module Snapshot.
Record t : Type := mk { nodes : list loc; edges : list AppEdge }.
End Snapshot.

Module App.

Record History : Type := mkHistory {
  past : list Snapshot.t;
  future : list Snapshot.t
}.

(** The state of [Flow]: the store, the [nodes] and [edges] arrays (which
    [nodesRef] and [edgesRef] follow) and [history]. *)
Record State : Type := mkState {
  heap : Heap;
  nodes : list loc;
  edges : list AppEdge;
  history : History
}.

(** [JSON.stringify] of an array of node objects, read in the store [h]. *)
Definition stringify_nodes (h : Heap) (ls : list loc) : json :=
  JArr (map (fun l => match read_node h l with
                      | Some n => json_node n
                      | None => JNull
                      end) ls).

Definition stringify_edges (es : list AppEdge) : json :=
  JArr (map json_edge es).

(** [arr.slice(-n)] *)
Definition slice_last {A} (n : nat) (l : list A) : list A :=
  skipn (length l - n) l.

(** The test of lines 69 and 70: both serialisations of [lst] are [===] to
    those of the current graph. *)
Definition same_serialisation (h : Heap) (lst current : Snapshot.t) : bool :=
  json_eqb (stringify_nodes h (Snapshot.nodes lst))
    (stringify_nodes h (Snapshot.nodes current))
  && json_eqb (stringify_edges (Snapshot.edges lst))
       (stringify_edges (Snapshot.edges current)).

(** The updater that [takeSnapshot] gives to [setHistory] (lines 63 to 79). *)
Definition snapshot_update (h : Heap) (currentNodes : list loc)
    (currentEdges : list AppEdge) (prev : History) : History :=
  let current := Snapshot.mk currentNodes currentEdges in
  let pushed := mkHistory (slice_last 20 (past prev) ++ [current]) [] in
  match last (past prev) with
  | Some lst => if same_serialisation h lst current then prev else pushed
  | None => pushed
  end.

Definition takeSnapshot (st : State) : State :=
  mkState (heap st) (nodes st) (edges st)
    (snapshot_update (heap st) (nodes st) (edges st) (history st)).

Definition undo (st : State) : State :=
  if (length (past (history st)) =? 0)%nat then st
  else
    match last (past (history st)) with
    | None => st
    | Some stateToRestore =>
        mkState (heap st) (Snapshot.nodes stateToRestore)
          (Snapshot.edges stateToRestore)
          (mkHistory (removelast (past (history st)))
             (Snapshot.mk (nodes st) (edges st) :: future (history st)))
    end.

Definition redo (st : State) : State :=
  if (length (future (history st)) =? 0)%nat then st
  else
    match future (history st) with
    | [] => st
    | stateToRestore :: newFuture =>
        mkState (heap st) (Snapshot.nodes stateToRestore)
          (Snapshot.edges stateToRestore)
          (mkHistory (past (history st) ++ [Snapshot.mk (nodes st) (edges st)])
             newFuture)
    end.

(** The callback of [nds.map] in [updateNodeValue]: the node object itself
    is updated and returned. *)
Definition update_if_id (k : string) (val : float) (h : Heap) (l : loc)
    : Heap :=
  match node_objs h !! l with
  | Some n => if String.eqb (id n) k then replace_inputValue h l val else h
  | None => h
  end.

(** [updateNodeValue].  [takeSnapshot] reads the two arrays and hands its
    updater to [setHistory]; [setNodes] gets its updater after that.  Both
    updaters run at the next render, in the order in which the states are
    declared: the nodes (line 44) before the history (line 50).  So the
    node objects are written first, and the test of lines 69 and 70
    serialises them as written; the arrays it compares and pushes are those
    that [takeSnapshot] read, which hold the same objects as the array that
    [nds.map] returns. *)
Definition updateNodeValue (k : string) (val : float) (st : State) : State :=
  takeSnapshot
    (mkState (fold_left (update_if_id k val) (nodes st) (heap st))
       (nodes st) (edges st) (history st)).

(** [deleteNode]: both arrays are filtered into new arrays. *)
Definition deleteNode (k : string) (st : State) : State :=
  let st1 := takeSnapshot st in
  mkState (heap st1)
    (List.filter (fun l => match node_objs (heap st1) !! l with
                      | Some n => negb (String.eqb (id n) k)
                      | None => true
                      end) (nodes st1))
    (List.filter (fun e => negb (String.eqb (source e) k)
                      && negb (String.eqb (target e) k)) (edges st1))
    (history st1).

(** Anything else that happens between two operations on the history: the
    store and the live graph change, the history does not. *)
Definition set_graph (h : Heap) (ns : list loc) (es : list AppEdge)
    (st : State) : State :=
  mkState h ns es (history st).

(** The operations that touch the history, and whatever goes on between
    them. *)
Inductive Op : Type :=
  | op_takeSnapshot
  | op_undo
  | op_redo
  | op_set_graph (h : Heap) (ns : list loc) (es : list AppEdge).

Definition apply_op (st : State) (o : Op) : State :=
  match o with
  | op_takeSnapshot => takeSnapshot st
  | op_undo => undo st
  | op_redo => redo st
  | op_set_graph h ns es => set_graph h ns es st
  end.

Definition run_ops (ops : list Op) (st : State) : State :=
  fold_left apply_op ops st.

(** The snapshot that [takeSnapshot] would store in the state [st]. *)
Definition current_snapshot (st : State) : Snapshot.t :=
  Snapshot.mk (nodes st) (edges st).

(** The history after [takeSnapshot] was called in each of the states
    [sts], in this order, starting from [hist]. *)
Definition snapshots_of (sts : list State) (hist : History) : History :=
  fold_left (fun hs st => snapshot_update (heap st) (nodes st) (edges st) hs)
    sts hist.

(** Every state of [sts] after [prev] serialises differently from the one
    before it, read in its own store. *)
Fixpoint steps_differ (prev : State) (sts : list State) : bool :=
  match sts with
  | [] => true
  | st :: sts' =>
      negb (same_serialisation (heap st) (current_snapshot prev)
              (current_snapshot st))
      && steps_differ st sts'
  end.

Definition all_steps_differ (sts : list State) : bool :=
  match sts with
  | [] => true
  | st :: sts' => steps_differ st sts'
  end.

(** The graph a snapshot holds, as values read in the store [h]. *)
Definition contents (h : Heap) (s : Snapshot.t)
    : option (list AppNode) * list AppEdge :=
  (read_nodes h (Snapshot.nodes s), Snapshot.edges s).

(** The live graph, as values. *)
Definition live (st : State) : option (list AppNode) * list AppEdge :=
  (read_nodes (heap st) (nodes st), edges st).

End App.

(** ** App.tsx: the other handlers and the recalculation effect *)

Module Editor.
Import App.

(** [Partial<NodeData>]: for each key, whether the object has it, and then
    its value. *)
Record PartialNodeData : Type := mkPartial {
  with_label : option (option string);
  with_value : option (option float);
  with_inputValue : option (option float);
  with_operation : option (option MathOperation.t);
  with_onChange : option (option Callback)
}.

(** One key of [{ ...old, ...new }]. *)
Definition spread {A} (old : A) (new : option A) : A :=
  match new with
  | Some a => a
  | None => old
  end.

(** [{ ...d, ...newData }] *)
Definition merge_data (d : NodeData) (newData : PartialNodeData) : NodeData :=
  mkNodeData (spread (label d) (with_label newData))
    (spread (value d) (with_value newData))
    (spread (inputValue d) (with_inputValue newData))
    (spread (operation d) (with_operation newData))
    (spread (onChange d) (with_onChange newData)).

(** [node.data = { ...node.data, ...newData }] on the node object at [l]: a
    new data object, and the node now refers to it. *)
Definition assign_data (h : Heap) (l : loc) (newData : PartialNodeData)
    : Heap :=
  match node_objs h !! l with
  | None => h
  | Some n =>
      match data_objs h !! data n with
      | None => h
      | Some d =>
          let (h1, dl) := alloc_data h (merge_data d newData) in
          mkHeap (<[l := mkNode (id n) (type n) (position n) dl]> (node_objs h1))
            (data_objs h1)
      end
  end.

(** The callback of [nds.map] in [updateNodeData]. *)
Definition update_data_if_id (k : string) (newData : PartialNodeData)
    (h : Heap) (l : loc) : Heap :=
  match node_objs h !! l with
  | Some n => if String.eqb (id n) k then assign_data h l newData else h
  | None => h
  end.

(** [updateNodeData]: as in [updateNodeValue], the updater of the nodes
    runs before that of the history, which serialises the node objects as
    written. *)
Definition updateNodeData (k : string) (newData : PartialNodeData)
    (st : State) : State :=
  takeSnapshot
    (mkState (fold_left (update_data_if_id k newData) (nodes st) (heap st))
       (nodes st) (edges st) (history st)).

(** The test of lines 159 to 162: some node of [nds] has, in
    [calculatedNodes], a first node of the same id whose value is [!==] to
    its own. *)
Definition hasChanges (nds calculatedNodes : list AppNode) : bool :=
  existsb
    (fun n =>
       match find (fun cn => String.eqb (id cn) (id n)) calculatedNodes with
       | Some calculated =>
           strict_neq (value (data calculated)) (value (data n))
       | None => false
       end)
    nds.

(** The updater of the effect of lines 155 to 166: [calculateGraph] runs on
    the live nodes; its array replaces them when [hasChanges]. *)
Definition recalculate (st : State) : State :=
  let r := Store.calculateGraph (heap st) (nodes st) (edges st) in
  match read_nodes (fst r) (nodes st), read_nodes (fst r) (snd r) with
  | Some nds, Some calculatedNodes =>
      mkState (fst r)
        (if hasChanges nds calculatedNodes then snd r else nodes st)
        (edges st) (history st)
  | _, _ => mkState (fst r) (nodes st) (edges st) (history st)
  end.

(** [id++] on the counter of line 39.  The counter is a JavaScript number:
    it counts exactly up to 2^53 and stays there. *)
Definition next_counter (n : N) : N :=
  if (n <? 2 ^ 53)%N then (n + 1)%N else n.

(** [getId]: the decimal text of the counter, and the counter after it. *)
Definition getId (counter : N) : string * N :=
  (pretty counter, next_counter counter).

(** [onDrop] (lines 203 to 235).  [ready] tells whether the wrapper and the
    flow instance are there; [type'] and [op] are what [onDragStart] put in
    the event (no operation is the empty text, read as undefined; the
    palette offers the four operations only); [position] is what
    [screenToFlowPosition] answers.  The counter goes in and out. *)
Definition onDrop (ready : bool) (type' : string)
    (op : option MathOperation.t) (position : XYPosition)
    (st : State) (counter : N) : State * N :=
  if negb ready then (st, counter)
  else if String.eqb type' "" then (st, counter)
  else
    let (i, counter') := getId counter in
    let (h1, dl) :=
      alloc_data (heap st)
        (mkNodeData (Some (String.append type' " node")) None (Some 0%float)
           op (Some updateNodeValue_ref)) in
    let (h2, newNode) := alloc_node h1 (mkNode i (Some type') position dl) in
    let st1 := takeSnapshot (mkState h2 (nodes st) (edges st) (history st)) in
    (mkState (heap st1) (nodes st1 ++ [newNode]) (edges st1) (history st1),
     counter').

(** The callback of [nds.map] in the effect of lines 290 to 294,
    [{ ...n, data: { ...n.data, onChange: updateNodeValue } }]: a new node
    object with a new data object, added to the array being built. *)
Definition inject_onChange (acc : Heap * list loc) (l : loc)
    : Heap * list loc :=
  let (h, out) := acc in
  match node_objs h !! l with
  | None => acc
  | Some n =>
      match data_objs h !! data n with
      | None => acc
      | Some d =>
          let (h1, dl) :=
            alloc_data h (mkNodeData (label d) (value d) (inputValue d)
                            (operation d) (Some updateNodeValue_ref)) in
          let (h2, nl) :=
            alloc_node h1 (mkNode (id n) (type n) (position n) dl) in
          (h2, out ++ [nl])
      end
  end.

(** The updater of the effect that runs once, on mount. *)
Definition mount (st : State) : State :=
  let r := fold_left inject_onChange (nodes st) (heap st, []) in
  mkState (fst r) (snd r) (edges st) (history st).

End Editor.

(** ** The initial graph of App.tsx *)

Definition input_node (i : string) (px py v : float) : AppNode :=
  mkNode i (Some NodeType.INPUT) (mkXY px py)
    (mkNodeData None None (Some v) None None).

Definition math_node (i : string) (px py : float) (op : MathOperation.t)
    : AppNode :=
  mkNode i (Some NodeType.MATH) (mkXY px py)
    (mkNodeData None None None (Some op) None).

Definition output_node (i : string) (px py : float) (v : option float)
    : AppNode :=
  mkNode i (Some NodeType.OUTPUT) (mkXY px py)
    (mkNodeData None v None None None).

Definition edge_to (i s t : string) (h : Handle) : AppEdge :=
  mkEdge i s t undefined_handle h (Some true).

Definition initialNodes : list AppNode :=
  [ input_node "1" 50 50 10;
    input_node "2" 50 200 5;
    math_node "3" 300 100 MathOperation.add;
    output_node "4" 600 125 (Some 15%float) ].

Definition initialEdges : list AppEdge :=
  [ edge_to "e1-3a" "1" "3" (handle "a");
    edge_to "e2-3b" "2" "3" (handle "b");
    edge_to "e3-4" "3" "4" undefined_handle ].

(** The store holding the objects of a list of node values, allocated in
    order, and the array of their references. *)
Definition store_of (ns : list AppNode) : Heap * list loc :=
  (mkHeap (imap (fun i n => mkNode (id n) (type n) (position n) i) ns)
     (map data ns),
   seq 0 (length ns)).

Definition initialState : App.State :=
  App.mkState (fst (store_of initialNodes)) (snd (store_of initialNodes))
    initialEdges (App.mkHistory [] []).

(** ** Other graphs and states used below *)

(** [4 / 0] feeding an addition with 3. *)
Definition taint_nodes : list AppNode :=
  [ input_node "a" 0 0 4;
    input_node "b" 0 100 0;
    math_node "d" 200 50 MathOperation.divide;
    input_node "c" 200 200 3;
    math_node "s" 400 100 MathOperation.add ].

Definition taint_edges : list AppEdge :=
  [ edge_to "ea" "a" "d" (handle "a");
    edge_to "eb" "b" "d" (handle "b");
    edge_to "ed" "d" "s" (handle "a");
    edge_to "ec" "c" "s" (handle "b") ].

(** A chain [n -> nn -> nnn -> ...] of one Input node and [len] Output
    nodes, the array of nodes listing the end of the chain first. *)
Fixpoint chain_id (k : nat) : string :=
  match k with
  | 0 => "n"
  | S k' => String.append "n" (chain_id k')
  end.

Fixpoint chain_nodes (len : nat) : list AppNode :=
  match len with
  | 0 => [input_node (chain_id 0) 0 0 1]
  | S len' =>
      output_node (chain_id len) 0 0 None :: chain_nodes len'
  end.

Fixpoint chain_edges (len : nat) : list AppEdge :=
  match len with
  | 0 => []
  | S len' =>
      edge_to (chain_id len) (chain_id len') (chain_id len) undefined_handle
      :: chain_edges len'
  end.

(** Two nodes feeding each other: [x = 1 + y], [y = x], with a value left
    in [y] by an earlier evaluation. *)
Definition cycle_nodes : list AppNode :=
  [ input_node "one" 0 0 1;
    math_node "x" 100 0 MathOperation.add;
    output_node "y" 200 0 (Some 0%float) ].

Definition cycle_edges : list AppEdge :=
  [ edge_to "e1" "one" "x" (handle "a");
    edge_to "e2" "y" "x" (handle "b");
    edge_to "e3" "x" "y" undefined_handle ].

(** An Output node on its own, with a value left by an earlier
    evaluation. *)
Definition lone_output : list AppNode := [output_node "o" 0 0 (Some 7%float)].


(** The ranks of the initial graph of App.tsx. *)
Definition initial_rank (k : string) : nat :=
  if String.eqb k "3" then 1 else if String.eqb k "4" then 2 else 0.


(** The nodes of the initial graph after the user typed 99 into node 1. *)
Definition editedNodes : list AppNode :=
  input_node "1" 50 50 99 :: tl initialNodes.


(** A state in which the top of [past] is the live graph and [future] is
    not empty. *)
Definition state_with_future : App.State :=
  App.mkState (App.heap initialState) (App.nodes initialState) initialEdges
    (App.mkHistory [Snapshot.mk (App.nodes initialState) initialEdges]
       [Snapshot.mk (App.nodes initialState) []]).


(** The [k]-th of a row of states whose graphs all differ: [k] edges. *)
Definition numbered_state (k : nat) : App.State :=
  App.mkState (App.heap initialState) (App.nodes initialState)
    (repeat (edge_to "e" "1" "3" (handle "a")) k) (App.mkHistory [] []).


(** ** First checks on the initial graph *)

Example scenario_values :
  map (fun n => value (data n)) (Pure.calculateGraph initialNodes initialEdges)
  = [None; None; Some 15%float; Some 15%float].
Proof. vm_compute. reflexivity. Qed.

Example scenario_passes :
  iterations (Pure.run initialNodes initialEdges) = 2.
Proof. vm_compute. reflexivity. Qed.

Example scenario_store :
  let (h, out) := Store.calculateGraph (fst (store_of initialNodes))
                    (snd (store_of initialNodes)) initialEdges in
  read_nodes h out = Some (Pure.calculateGraph initialNodes initialEdges)
  /\ read_nodes h (snd (store_of initialNodes)) = Some initialNodes.
Proof. vm_compute. split; reflexivity. Qed.


(** ** The loop: unfolding, pass count, termination *)

Section LoopFacts.
Context {M : Type} (pass : M -> M * bool).

Lemma while_loop_step (s : LoopState M) :
  while_loop pass s
  = if loop_cond s then while_loop pass (loop_body pass s) else s.
Proof.
  funelim (while_loop pass s).
  - rewrite H. reflexivity.
  - rewrite e. reflexivity.
Qed.

Lemma loop_body_iterations (s : LoopState M) :
  iterations (loop_body pass s) = S (iterations s).
Proof. unfold loop_body. destruct (pass (current s)). reflexivity. Qed.

Lemma iter_loop_body_iterations k (s : LoopState M) :
  iterations (Nat.iter k (loop_body pass) s) = k + iterations s.
Proof.
  induction k as [|k IH]; [reflexivity|].
  rewrite Nat.iter_succ, loop_body_iterations, IH. lia.
Qed.

Lemma iter_loop_body_shift k (s : LoopState M) :
  Nat.iter k (loop_body pass) (loop_body pass s)
  = Nat.iter (S k) (loop_body pass) s.
Proof.
  induction k as [|k IH]; [reflexivity|].
  rewrite Nat.iter_succ, IH. reflexivity.
Qed.

(** The loop runs some number [k] of passes and stops the first time its
    condition is false; [iterations] counts them and never exceeds 50. *)
Lemma while_loop_passes (s : LoopState M) :
  exists k,
    while_loop pass s = Nat.iter k (loop_body pass) s
    /\ k <= MAX_ITERATIONS - iterations s
    /\ loop_cond (while_loop pass s) = false
    /\ forall j, j < k -> loop_cond (Nat.iter j (loop_body pass) s) = true.
Proof.
  remember (passes_left s) as n eqn:Hn.
  revert s Hn. induction n as [n IH] using lt_wf_ind. intros s Hn.
  rewrite while_loop_step.
  destruct (loop_cond s) eqn:Hc.
  - pose proof (loop_body_decreases pass s Hc) as Hd.
    destruct (IH _ ltac:(subst n; exact Hd) (loop_body pass s) eq_refl)
      as (k & Hk & Hle & Hstop & Hrun).
    exists (S k). rewrite Hk. split; [apply iter_loop_body_shift|].
    rewrite loop_body_iterations in Hle.
    pose proof Hc as Hlt. unfold loop_cond in Hlt.
    apply andb_prop in Hlt. destruct Hlt as [_ Hlt]. apply Nat.ltb_lt in Hlt.
    split; [lia|]. split.
    + rewrite <- Hk. exact Hstop.
    + intros [|j] Hj; [exact Hc|].
      rewrite <- iter_loop_body_shift. apply Hrun. lia.
  - exists 0. simpl Nat.iter. repeat split; [lia|exact Hc|].
    intros j Hj. lia.
Qed.

End LoopFacts.

(** ** One turn of the [for] loop, on node values *)

Module PureFacts.
Import Pure.

(** The node after [if (node.data.value !== newValue) node.data.value =
    newValue]. *)
Definition settle (node : AppNode) (nv : option float) : AppNode :=
  if strict_neq (value (data node)) nv then set_value node nv else node.

(** The node after its turn in a pass over the map [m]. *)
Definition visited (edges : list AppEdge) (m : list AppNode) (node : AppNode)
    : AppNode :=
  if type_is node NodeType.INPUT then node
  else settle node (newValue (nodeMap_get m) edges node).

(** Whether the turn of [node] sets [changed]. *)
Definition flags (edges : list AppEdge) (m : list AppNode) (node : AppNode)
    : bool :=
  negb (type_is node NodeType.INPUT)
  && strict_neq (value (data node)) (newValue (nodeMap_get m) edges node).

Lemma visit_Some edges (m : list AppNode) i node :
  m !! i = Some node ->
  visit edges m i = (<[i := visited edges m node]> m, flags edges m node).
Proof.
  intros Hi. unfold visit, visited, flags, settle. rewrite Hi.
  destruct (type_is node NodeType.INPUT); cbn [negb andb].
  - rewrite list_insert_id by exact Hi. reflexivity.
  - destruct (strict_neq _ _); [reflexivity|].
    rewrite list_insert_id by exact Hi. reflexivity.
Qed.

Lemma visit_None edges (m : list AppNode) i :
  m !! i = None -> visit edges m i = (m, false).
Proof. intros Hi. unfold visit. rewrite Hi. reflexivity. Qed.

Lemma settle_id node nv : id (settle node nv) = id node.
Proof. unfold settle. destruct (strict_neq _ _); reflexivity. Qed.

Lemma settle_type node nv : type (settle node nv) = type node.
Proof. unfold settle. destruct (strict_neq _ _); reflexivity. Qed.

Lemma settle_position node nv : position (settle node nv) = position node.
Proof. unfold settle. destruct (strict_neq _ _); reflexivity. Qed.

Lemma settle_operation node nv :
  operation (data (settle node nv)) = operation (data node).
Proof. unfold settle. destruct (strict_neq _ _); reflexivity. Qed.

Lemma settle_inputValue node nv :
  inputValue (data (settle node nv)) = inputValue (data node).
Proof. unfold settle. destruct (strict_neq _ _); reflexivity. Qed.

Lemma settle_label node nv :
  label (data (settle node nv)) = label (data node).
Proof. unfold settle. destruct (strict_neq _ _); reflexivity. Qed.

Lemma settle_onChange node nv :
  onChange (data (settle node nv)) = onChange (data node).
Proof. unfold settle. destruct (strict_neq _ _); reflexivity. Qed.

Lemma type_is_settle node nv t : type_is (settle node nv) t = type_is node t.
Proof. unfold type_is. rewrite settle_type. reflexivity. Qed.

(** [newValue] reads only the id, the type and the operation of the node. *)
Lemma newValue_ext get edges (n n' : AppNode) :
  id n = id n' -> type n = type n' ->
  operation (data n) = operation (data n') ->
  newValue get edges n = newValue get edges n'.
Proof.
  intros Hid Hty Hop. unfold newValue, type_is. rewrite Hid, Hty, Hop.
  reflexivity.
Qed.

Lemma strict_neq_None_r v : strict_neq v None = false -> v = None.
Proof. destruct v; [discriminate|reflexivity]. Qed.

(** The value after the turn is the new value, up to [===]. *)
Lemma settle_value node nv :
  strict_neq (value (data (settle node nv))) nv = true ->
  value (data (settle node nv)) = nv.
Proof.
  unfold settle. destruct (strict_neq (value (data node)) nv) eqn:E.
  - reflexivity.
  - rewrite E. discriminate.
Qed.

Lemma settle_idem node nv : settle (settle node nv) nv = settle node nv.
Proof.
  unfold settle at 1.
  destruct (strict_neq (value (data (settle node nv))) nv) eqn:E;
    [|reflexivity].
  apply settle_value in E. destruct (settle node nv) as [i t p [l v iv o c]].
  cbn in *. subst v. reflexivity.
Qed.

Lemma visited_id edges m node : id (visited edges m node) = id node.
Proof.
  unfold visited. destruct (type_is _ _); [reflexivity|apply settle_id].
Qed.

Lemma visited_type edges m node : type (visited edges m node) = type node.
Proof.
  unfold visited. destruct (type_is _ _); [reflexivity|apply settle_type].
Qed.

Lemma visit_length edges (m : list AppNode) i :
  length (fst (visit edges m i)) = length m.
Proof.
  destruct (m !! i) as [node|] eqn:Hi.
  - rewrite (visit_Some _ _ _ _ Hi). cbn. apply length_insert.
  - rewrite (visit_None _ _ _ Hi). reflexivity.
Qed.

Lemma visit_lookup_ne edges (m : list AppNode) i j :
  i <> j -> fst (visit edges m i) !! j = m !! j.
Proof.
  intros Hij. destruct (m !! i) as [node|] eqn:Hi.
  - rewrite (visit_Some _ _ _ _ Hi). cbn.
    apply list_lookup_insert_ne. exact Hij.
  - rewrite (visit_None _ _ _ Hi). reflexivity.
Qed.

Lemma visit_lookup_eq edges (m : list AppNode) i node :
  m !! i = Some node ->
  fst (visit edges m i) !! i = Some (visited edges m node).
Proof.
  intros Hi. rewrite (visit_Some _ _ _ _ Hi). cbn.
  apply list_lookup_insert_eq. apply lookup_lt_Some in Hi. exact Hi.
Qed.

(** What [visit_from] leaves alone: the entries outside its range. *)
Lemma visit_from_length edges n : forall i (m : list AppNode) c,
  length (fst (visit_from edges n i m c)) = length m.
Proof.
  induction n as [|n IH]; intros i m c; [reflexivity|].
  cbn [visit_from]. destruct (visit edges m i) as [m' c'] eqn:E.
  rewrite IH. change m' with (fst (m', c')). rewrite <- E.
  apply visit_length.
Qed.

Lemma visit_from_lookup_before edges n : forall i (m : list AppNode) c j,
  j < i -> fst (visit_from edges n i m c) !! j = m !! j.
Proof.
  induction n as [|n IH]; intros i m c j Hj; [reflexivity|].
  cbn [visit_from]. destruct (visit edges m i) as [m' c'] eqn:E.
  rewrite IH by lia. change m' with (fst (m', c')). rewrite <- E.
  apply visit_lookup_ne. lia.
Qed.

Lemma map_insert {A B} (f : A -> B) (l : list A) i a :
  map f (<[i := a]> l) = <[i := f a]> (map f l).
Proof.
  revert i. induction l as [|b l IH]; intros [|i]; cbn; try reflexivity.
  rewrite IH. reflexivity.
Qed.

Lemma map_lookup {A B} (f : A -> B) (l : list A) i :
  map f l !! i = option_map f (l !! i).
Proof.
  revert i. induction l as [|b l IH]; intros [|i]; cbn; try reflexivity.
  apply IH.
Qed.

Lemma visit_ids edges (m : list AppNode) i :
  map id (fst (visit edges m i)) = map id m.
Proof.
  destruct (m !! i) as [node|] eqn:Hi.
  - rewrite (visit_Some _ _ _ _ Hi). cbn. rewrite map_insert, visited_id.
    apply list_insert_id. rewrite map_lookup, Hi. reflexivity.
  - rewrite (visit_None _ _ _ Hi). reflexivity.
Qed.

Lemma visit_from_ids edges n : forall i (m : list AppNode) c,
  map id (fst (visit_from edges n i m c)) = map id m.
Proof.
  induction n as [|n IH]; intros i m c; [reflexivity|].
  cbn [visit_from]. destruct (visit edges m i) as [m' c'] eqn:E.
  rewrite IH. change m' with (fst (m', c')). rewrite <- E. apply visit_ids.
Qed.

Lemma pass_ids edges (m : list AppNode) :
  map id (fst (pass edges m)) = map id m.
Proof. apply visit_from_ids. Qed.

(** A property of single entries that every turn establishes at its own
    entry holds of all the entries after a pass; the property may depend on
    the ids stored in the map, which no turn changes. *)
Lemma visit_from_establishes (P : AppNode -> Prop) edges ids
    (Hvisit : forall m node,
       map id m = ids -> In node m -> P (visited edges m node)) n :
  forall i (m : list AppNode) c j node,
    map id m = ids ->
    i <= j < i + n ->
    fst (visit_from edges n i m c) !! j = Some node -> P node.
Proof.
  induction n as [|n IH]; intros i m c j node Hids Hj Hlook; [lia|].
  cbn [visit_from] in Hlook.
  destruct (visit edges m i) as [m' c'] eqn:E.
  assert (Hm' : m' = fst (visit edges m i)) by (rewrite E; reflexivity).
  destruct (decide (j = i)) as [->|Hne].
  - rewrite visit_from_lookup_before in Hlook by lia.
    subst m'. destruct (m !! i) as [node0|] eqn:Hi.
    + rewrite (visit_lookup_eq _ _ _ _ Hi) in Hlook.
      injection Hlook as <-. apply Hvisit; [exact Hids|].
      apply list_elem_of_In, list_elem_of_lookup. exists i. exact Hi.
    + rewrite (visit_None _ _ _ Hi) in Hlook. cbn in Hlook. congruence.
  - apply (IH (S i) m' (c || c') j node); [|lia|exact Hlook].
    subst m'. rewrite visit_ids. exact Hids.
Qed.

Lemma pass_establishes (P : AppNode -> Prop) edges
    (m : list AppNode)
    (Hvisit : forall m' node,
       map id m' = map id m -> In node m' -> P (visited edges m' node))
    node :
  In node (fst (pass edges m)) -> P node.
Proof.
  intros Hin. apply list_elem_of_In, list_elem_of_lookup in Hin.
  destruct Hin as [j Hj]. unfold pass in Hj.
  apply (visit_from_establishes P edges (map id m) Hvisit
           (length m) 0 m false j node); [reflexivity| |exact Hj].
  apply lookup_lt_Some in Hj. rewrite visit_from_length in Hj. lia.
Qed.

(** *** The map built from the argument *)

Lemma nodeMap_set_In m n n' :
  In n' (nodeMap_set m n) -> n' = n \/ In n' m.
Proof.
  induction m as [|n0 m IH]; cbn.
  - intros [<-|[]]. left. reflexivity.
  - destruct (String.eqb (id n0) (id n)); cbn.
    + intros [<-|H]; [left; reflexivity|right; right; exact H].
    + intros [<-|H]; [right; left; reflexivity|].
      destruct (IH H) as [->|H']; [left; reflexivity|right; right; exact H'].
Qed.

Lemma nodeMap_set_ids_In m n k :
  In k (map id (nodeMap_set m n)) <-> k = id n \/ In k (map id m).
Proof.
  induction m as [|n0 m IH]; cbn.
  - intuition congruence.
  - destruct (String.eqb (id n0) (id n)) eqn:E; cbn.
    + apply String.eqb_eq in E. rewrite E. intuition congruence.
    + rewrite IH. intuition congruence.
Qed.

Lemma fold_nodeMap_set_In nodes : forall m n',
  In n' (fold_left nodeMap_set nodes m) -> In n' nodes \/ In n' m.
Proof.
  induction nodes as [|n nodes IH]; intros m n' H; cbn in *.
  - right. exact H.
  - destruct (IH _ _ H) as [H'|H']; [left; right; exact H'|].
    destruct (nodeMap_set_In _ _ _ H') as [->|H'']; [left; left; reflexivity|].
    right. exact H''.
Qed.

Lemma fold_nodeMap_set_ids_In nodes : forall m k,
  In k (map id (fold_left nodeMap_set nodes m))
  <-> In k (map id nodes) \/ In k (map id m).
Proof.
  induction nodes as [|n nodes IH]; intros m k; cbn.
  - intuition.
  - rewrite IH, nodeMap_set_ids_In. intuition congruence.
Qed.

Lemma nodeMap_of_In nodes n : In n (nodeMap_of nodes) -> In n nodes.
Proof.
  intros H. destruct (fold_nodeMap_set_In _ _ _ H) as [H'|[]]. exact H'.
Qed.

Lemma nodeMap_of_ids_In nodes k :
  In k (map id (nodeMap_of nodes)) <-> In k (map id nodes).
Proof.
  unfold nodeMap_of. rewrite fold_nodeMap_set_ids_In. cbn. intuition.
Qed.

Lemma nodeMap_get_None (m : list AppNode) k :
  ~ In k (map id m) -> nodeMap_get m k = None.
Proof.
  unfold nodeMap_get. induction m as [|n m IH]; cbn; [reflexivity|].
  intros H. destruct (String.eqb (id n) k) eqn:E.
  - apply String.eqb_eq in E. exfalso. apply H. left. exact E.
  - apply IH. intros H'. apply H. right. exact H'.
Qed.

(** *** The run as a sequence of passes *)

Lemma run_passes nodes edges :
  exists k,
    run nodes edges
    = Nat.iter k (loop_body (pass edges)) (mkLoop (nodeMap_of nodes) true 0)
    /\ 1 <= k <= MAX_ITERATIONS
    /\ iterations (run nodes edges) = k
    /\ loop_cond (run nodes edges) = false
    /\ forall j, j < k ->
         loop_cond (Nat.iter j (loop_body (pass edges))
                      (mkLoop (nodeMap_of nodes) true 0)) = true.
Proof.
  unfold run.
  destruct (while_loop_passes (pass edges) (mkLoop (nodeMap_of nodes) true 0))
    as (k & Hk & Hle & Hstop & Hrun).
  exists k. split; [exact Hk|]. cbn [iterations] in Hle.
  split; [|split; [|split; [exact Hstop|exact Hrun]]].
  - split; [|lia]. destruct k; [|lia].
    rewrite Hk in Hstop. cbn in Hstop. discriminate.
  - rewrite Hk, iter_loop_body_iterations. cbn. lia.
Qed.

Lemma loop_body_current edges (s : LoopState (list AppNode)) :
  current (loop_body (pass edges) s) = fst (pass edges (current s)).
Proof. unfold loop_body. destruct (pass edges (current s)). reflexivity. Qed.

Lemma loop_body_changed edges (s : LoopState (list AppNode)) :
  changed (loop_body (pass edges) s) = snd (pass edges (current s)).
Proof. unfold loop_body. destruct (pass edges (current s)). reflexivity. Qed.

(** The result is what the last pass left. *)
Lemma run_last_pass nodes edges :
  exists m,
    calculateGraph nodes edges = fst (pass edges m)
    /\ map id m = map id (nodeMap_of nodes).
Proof.
  destruct (run_passes nodes edges) as (k & Hk & [Hk1 _] & _).
  unfold calculateGraph. rewrite Hk. destruct k as [|k]; [lia|].
  rewrite Nat.iter_succ, loop_body_current.
  eexists. split; [reflexivity|]. clear.
  induction k as [|k IH]; [reflexivity|].
  rewrite Nat.iter_succ, loop_body_current, pass_ids. exact IH.
Qed.

(** What holds of the map built from the argument and is kept by every
    pass holds of the result. *)
Lemma run_invariant (Inv : list AppNode -> Prop) nodes edges :
  Inv (nodeMap_of nodes) ->
  (forall m, Inv m -> Inv (fst (pass edges m))) ->
  Inv (calculateGraph nodes edges).
Proof.
  intros H0 Hstep. destruct (run_passes nodes edges) as (k & Hk & _).
  unfold calculateGraph. rewrite Hk. clear Hk.
  induction k as [|k IH]; [exact H0|].
  rewrite Nat.iter_succ, loop_body_current. apply Hstep. exact IH.
Qed.

Lemma calculateGraph_ids nodes edges :
  map id (calculateGraph nodes edges) = map id (nodeMap_of nodes).
Proof.
  apply (run_invariant (fun m => map id m = map id (nodeMap_of nodes)));
    [reflexivity|].
  intros m Hm. rewrite pass_ids. exact Hm.
Qed.

End PureFacts.

(** ** Numbers: what [!==] sees of NaN *)

Lemma eqb_nan_r (u : float) : PrimFloat.eqb u nan = false.
Proof.
  rewrite FloatAxioms.eqb_spec. unfold SFeqb.
  replace (Prim2SF nan) with S754_nan by reflexivity.
  destruct (Prim2SF u); reflexivity.
Qed.

(** Everything differs from NaN, NaN included. *)
Lemma strict_neq_nan (v : option float) : strict_neq v (Some nan) = true.
Proof. destruct v as [u|]; cbn; [|reflexivity]. rewrite eqb_nan_r. reflexivity. Qed.

Lemma nan_plus_3 : (nan + 3)%float = nan /\ (3 + nan)%float = nan.
Proof. split; vm_compute; reflexivity. Qed.

(** ** Value resolution and single turns *)

Module Resolution.
Import Pure PureFacts.

(** No edge of [edges] ends at the port [(k, h)], or the first one that
    does starts at an id that no node of [nodes] has. *)
Definition unresolvable (nodes : list AppNode) (edges : list AppEdge)
    (k : string) (h : Handle) : Prop :=
  find (edge_matches k h) edges = None
  \/ exists e, find (edge_matches k h) edges = Some e
               /\ ~ In (source e) (map id nodes).

Lemma getSourceValue_unresolvable nodes edges (m : list AppNode) k h :
  (forall k', In k' (map id m) -> In k' (map id nodes)) ->
  unresolvable nodes edges k h ->
  getSourceValue (nodeMap_get m) edges k h = None.
Proof.
  intros Hids [Hnone|(e & He & Hsrc)]; unfold getSourceValue.
  - rewrite Hnone. reflexivity.
  - rewrite He, nodeMap_get_None; [reflexivity|].
    intros H. apply Hsrc, Hids, H.
Qed.

Lemma no_inbound_unresolvable nodes edges k h :
  (forall e, In e edges -> target e <> k) -> unresolvable nodes edges k h.
Proof.
  intros Hno. left. destruct (find _ edges) as [e|] eqn:E; [|reflexivity].
  apply find_some in E. destruct E as [Hin Hm].
  unfold edge_matches in Hm. apply andb_prop in Hm. destruct Hm as [Hm _].
  apply String.eqb_eq in Hm. exfalso. exact (Hno e Hin Hm).
Qed.

Lemma type_is_exclusive {D} (n : Node D) t t' :
  type_is n t = true -> type_is n t' = true -> t = t'.
Proof.
  unfold type_is. destruct (type n) as [s|]; [|discriminate].
  intros H H'. apply String.eqb_eq in H, H'. congruence.
Qed.

Lemma type_is_other {D} (n : Node D) t t' :
  type_is n t = true -> t <> t' -> type_is n t' = false.
Proof.
  intros H Hne. destruct (type_is n t') eqn:E; [|reflexivity].
  exfalso. apply Hne. exact (type_is_exclusive n t t' H E).
Qed.

Lemma settle_None node : value (data (settle node None)) = None.
Proof.
  unfold settle. destruct (strict_neq (value (data node)) None) eqn:E.
  - reflexivity.
  - apply strict_neq_None_r. exact E.
Qed.

Lemma settle_nan node : value (data (settle node (Some nan))) = Some nan.
Proof. unfold settle. rewrite strict_neq_nan. reflexivity. Qed.

Lemma settle_value_cases node nv :
  value (data (settle node nv)) = nv
  \/ strict_neq (value (data (settle node nv))) nv = false.
Proof.
  destruct (strict_neq (value (data (settle node nv))) nv) eqn:E.
  - left. apply settle_value. exact E.
  - right. reflexivity.
Qed.

(** The new value of a node one of whose ports cannot be resolved. *)
Lemma newValue_unresolvable nodes edges (m : list AppNode) node :
  (forall k', In k' (map id m) -> In k' (map id nodes)) ->
  (type_is node NodeType.OUTPUT = true ->
   unresolvable nodes edges (id node) null_handle)
  /\ (type_is node NodeType.MATH = true ->
      unresolvable nodes edges (id node) (handle "a")
      \/ unresolvable nodes edges (id node) (handle "b")) ->
  newValue (nodeMap_get m) edges node = None.
Proof.
  intros Hids [Hout Hmath]. unfold newValue.
  destruct (type_is node NodeType.MATH) eqn:Em.
  - destruct (Hmath eq_refl) as [Ha|Hb].
    + rewrite (getSourceValue_unresolvable _ _ _ _ _ Hids Ha). reflexivity.
    + rewrite (getSourceValue_unresolvable _ _ _ _ _ Hids Hb).
      destruct (getSourceValue _ _ _ (handle "a")); reflexivity.
  - destruct (type_is node NodeType.OUTPUT) eqn:Eo; [|reflexivity].
    apply (getSourceValue_unresolvable _ _ _ _ _ Hids (Hout eq_refl)).
Qed.

End Resolution.

(** ** Convergence on acyclic graphs *)

Module Convergence.
Import Pure PureFacts.

Section Ranked.
(** A graph is acyclic exactly when its node ids can be ranked so that every
    edge goes up; the largest rank bounds the number of edges of a path. *)
Variable edges : list AppEdge.
Variable rank : string -> nat.
Hypothesis rank_edges :
  forall e, In e edges -> rank (source e) < rank (target e).

(** Two maps with the same ids whose entries of rank below [r] are equal. *)
Definition agree_below (r : nat) (m m' : list AppNode) : Prop :=
  Forall2 (fun n n' => id n = id n' /\ (rank (id n) < r -> n = n')) m m'.

Lemma agree_below_refl r m : agree_below r m m.
Proof. apply Forall_Forall2_diag, Forall_forall. intros n _. split; reflexivity || (intros _; reflexivity). Qed.

Lemma agree_below_mono r r' m m' :
  r' <= r -> agree_below r m m' -> agree_below r' m m'.
Proof.
  intros Hle H. eapply Forall2_impl; [exact H|]. intros n n' [Hid Heq].
  split; [exact Hid|]. intros Hr. apply Heq. lia.
Qed.

Lemma agree_below_trans r m1 m2 m3 :
  agree_below r m1 m2 -> agree_below r m2 m3 -> agree_below r m1 m3.
Proof.
  intros H12. revert m3. induction H12 as [|n1 n2 m1 m2 [Hid Heq] _ IH];
    intros m3 H23; inversion H23 as [|? n3 ? m3' [Hid' Heq'] Hrest]; subst.
  - constructor.
  - constructor; [|apply IH; exact Hrest]. split; [congruence|].
    intros Hr. rewrite (Heq Hr). apply Heq'. rewrite <- Hid. exact Hr.
Qed.

Lemma agree_below_insert r (m : list AppNode) i n n1 :
  m !! i = Some n -> id n1 = id n -> r <= rank (id n) ->
  agree_below r m (<[i := n1]> m).
Proof.
  intros Hi Hid Hr. rewrite <- (list_insert_id m i n Hi) at 1.
  apply Forall2_insert; [apply agree_below_refl|].
  split; [congruence|]. intros Hlt. lia.
Qed.

Lemma agree_below_get r m m' k :
  agree_below r m m' -> rank k < r -> nodeMap_get m k = nodeMap_get m' k.
Proof.
  unfold nodeMap_get. intros H Hk.
  induction H as [|n n' m m' [Hid Heq] _ IH]; [reflexivity|].
  cbn. rewrite <- Hid. destruct (String.eqb (id n) k) eqn:E; [|exact IH].
  apply String.eqb_eq in E. rewrite Heq; [reflexivity|]. rewrite E. exact Hk.
Qed.

Lemma find_edge_matches k h e :
  find (edge_matches k h) edges = Some e -> In e edges /\ target e = k.
Proof.
  intros H. apply find_some in H. destruct H as [Hin Hm]. split; [exact Hin|].
  unfold edge_matches in Hm. apply andb_prop in Hm. destruct Hm as [Hm _].
  apply String.eqb_eq. exact Hm.
Qed.

(** A port of a node is resolved from entries of smaller rank only. *)
Lemma getSourceValue_agree m m' k h :
  agree_below (rank k) m m' ->
  getSourceValue (nodeMap_get m) edges k h
  = getSourceValue (nodeMap_get m') edges k h.
Proof.
  intros H. unfold getSourceValue.
  destruct (find (edge_matches k h) edges) as [e|] eqn:E; [|reflexivity].
  destruct (find_edge_matches _ _ _ E) as [Hin Ht].
  rewrite (agree_below_get _ _ _ (source e) H); [reflexivity|].
  rewrite <- Ht. apply rank_edges. exact Hin.
Qed.

Lemma newValue_agree m m' node :
  agree_below (rank (id node)) m m' ->
  newValue (nodeMap_get m) edges node = newValue (nodeMap_get m') edges node.
Proof.
  intros H. unfold newValue.
  rewrite !(getSourceValue_agree m m' (id node)) by exact H. reflexivity.
Qed.

Lemma visited_agree m m' node :
  agree_below (rank (id node)) m m' ->
  visited edges m node = visited edges m' node.
Proof.
  intros H. unfold visited. rewrite (newValue_agree m m' node H). reflexivity.
Qed.

Lemma visited_idem m node :
  visited edges m (visited edges m node) = visited edges m node.
Proof.
  unfold visited. destruct (type_is node NodeType.INPUT) eqn:E.
  - rewrite E. reflexivity.
  - rewrite type_is_settle, E.
    rewrite (newValue_ext _ _ (settle node (newValue (nodeMap_get m) edges node)) node).
    + apply settle_idem.
    + apply settle_id.
    + apply settle_type.
    + apply settle_operation.
Qed.

(** Every entry of rank below [r] is left as it is by its turn. *)
Definition Fixed (r : nat) (m : list AppNode) : Prop :=
  forall i n, m !! i = Some n -> rank (id n) < r -> visited edges m n = n.

Lemma visit_from_fixed r m (Hfix : Fixed r m) n :
  forall i mc c,
    agree_below r m mc ->
    (forall j x, j < i -> mc !! j = Some x -> rank (id x) < S r ->
                 visited edges mc x = x) ->
    agree_below r m (fst (visit_from edges n i mc c))
    /\ forall j x, j < i + n ->
         fst (visit_from edges n i mc c) !! j = Some x ->
         rank (id x) < S r ->
         visited edges (fst (visit_from edges n i mc c)) x = x.
Proof.
  induction n as [|n IH]; intros i mc c Hag Hdone.
  - cbn. split; [exact Hag|]. intros j x Hj. apply Hdone. lia.
  - cbn [visit_from]. destruct (visit edges mc i) as [mc' c'] eqn:E.
    replace (i + S n) with (S i + n) by lia.
    destruct (mc !! i) as [nc|] eqn:Hi.
    + rewrite (visit_Some _ _ _ _ Hi) in E. injection E as <- <-.
      set (n1 := visited edges mc nc).
      assert (Hid1 : id n1 = id nc) by apply visited_id.
      assert (Hsame : rank (id nc) < r -> n1 = nc).
      { intros Hlt. unfold n1.
        destruct (Forall2_lookup_r _ _ _ _ _ Hag Hi) as (n0 & Hi0 & Hid0 & Heq0).
        assert (n0 = nc) by (apply Heq0; rewrite Hid0; exact Hlt). subst n0.
        rewrite <- (visited_agree m mc nc).
        - apply (Hfix i nc Hi0 Hlt).
        - apply (agree_below_mono r); [lia|exact Hag]. }
      assert (Hstep : forall r', r' <= r -> r' <= rank (id nc) \/ rank (id nc) < r ->
                agree_below r' mc (<[i := n1]> mc)).
      { intros r' Hr' [Hle|Hlt].
        - apply (agree_below_insert r' mc i nc n1 Hi Hid1 Hle).
        - rewrite (Hsame Hlt), (list_insert_id mc i nc Hi).
          apply agree_below_refl. }
      apply IH.
      * apply (agree_below_trans r m mc); [exact Hag|].
        apply Hstep; [lia|lia].
      * intros j x Hj Hx Hrx.
        assert (Hagx : agree_below (rank (id x)) mc (<[i := n1]> mc)).
        { destruct (decide (j = i)) as [->|Hne].
          - rewrite list_lookup_insert_eq in Hx
              by (apply lookup_lt_Some in Hi; exact Hi).
            injection Hx as <-. rewrite Hid1.
            apply (agree_below_insert _ mc i nc n1 Hi Hid1). lia.
          - destruct (le_lt_dec r (rank (id nc))) as [Hle|Hlt].
            + apply (agree_below_insert _ mc i nc n1 Hi Hid1). lia.
            + rewrite (Hsame Hlt), (list_insert_id mc i nc Hi).
              apply agree_below_refl. }
        rewrite <- (visited_agree mc _ x Hagx).
        destruct (decide (j = i)) as [->|Hne].
        -- rewrite list_lookup_insert_eq in Hx
             by (apply lookup_lt_Some in Hi; exact Hi).
           injection Hx as <-. apply visited_idem.
        -- rewrite list_lookup_insert_ne in Hx by congruence.
           apply (Hdone j x); [lia|exact Hx|exact Hrx].
    + rewrite (visit_None _ _ _ Hi) in E. injection E as <- <-.
      apply IH; [exact Hag|].
      intros j x Hj Hx Hrx. destruct (decide (j = i)) as [->|Hne].
      * congruence.
      * apply (Hdone j x); [lia|exact Hx|exact Hrx].
Qed.

(** A pass fixes one more rank and leaves the fixed ranks as they are. *)
Lemma pass_fixed r m :
  Fixed r m ->
  Fixed (S r) (fst (pass edges m)) /\ agree_below r m (fst (pass edges m)).
Proof.
  intros Hfix.
  destruct (visit_from_fixed r m Hfix (length m) 0 m false
              (agree_below_refl r m)) as [Hag Hdone].
  { intros j x Hj. lia. }
  split; [|exact Hag].
  intros i n Hi Hr. apply (Hdone i n); [|exact Hi|exact Hr].
  apply lookup_lt_Some in Hi. unfold pass in Hi.
  rewrite visit_from_length in Hi. lia.
Qed.

(** *** Passes over a map all of whose entries are fixed *)

Definition FixedAll (m : list AppNode) : Prop :=
  forall i n, m !! i = Some n -> visited edges m n = n.

(** No computed value is NaN: every one of them is [===] to itself. *)
Definition no_NaN (m : list AppNode) : Prop :=
  forall n u, In n m -> type_is n NodeType.INPUT = false ->
              value (data n) = Some u -> PrimFloat.eqb u u = true.

Lemma visit_from_unchanged m n :
  (forall i x, m !! i = Some x -> visited edges m x = x) ->
  forall i c, fst (visit_from edges n i m c) = m.
Proof.
  intros Hfix. induction n as [|n IH]; intros i c; [reflexivity|].
  cbn [visit_from]. destruct (m !! i) as [x|] eqn:Hi.
  - rewrite (visit_Some _ _ _ _ Hi), (Hfix i x Hi), (list_insert_id m i x Hi).
    apply IH.
  - rewrite (visit_None _ _ _ Hi). apply IH.
Qed.

Lemma visit_from_flag m n :
  (forall i x, m !! i = Some x -> visited edges m x = x) ->
  (forall i x, m !! i = Some x -> flags edges m x = false) ->
  forall i c, snd (visit_from edges n i m c) = c.
Proof.
  intros Hfix Hflag. induction n as [|n IH]; intros i c; [reflexivity|].
  cbn [visit_from]. destruct (m !! i) as [x|] eqn:Hi.
  - rewrite (visit_Some _ _ _ _ Hi), (Hfix i x Hi), (list_insert_id m i x Hi),
      (Hflag i x Hi), orb_false_r.
    apply IH.
  - rewrite (visit_None _ _ _ Hi), orb_false_r. apply IH.
Qed.

Lemma FixedAll_pass m : FixedAll m -> fst (pass edges m) = m.
Proof. intros H. apply visit_from_unchanged. exact H. Qed.

(** A fixed entry raises [changed] only when its value is NaN. *)
Lemma fixed_flags m x :
  visited edges m x = x ->
  (forall u, value (data x) = Some u -> PrimFloat.eqb u u = true) ->
  flags edges m x = false.
Proof.
  unfold visited, flags, settle. intros Hfix Hnan.
  destruct (type_is x NodeType.INPUT); [reflexivity|]. cbn [negb andb].
  destruct (strict_neq (value (data x)) (newValue (nodeMap_get m) edges x))
    eqn:E; [|reflexivity].
  assert (Hv : value (data x) = newValue (nodeMap_get m) edges x).
  { rewrite <- Hfix at 1. reflexivity. }
  rewrite <- Hv in E. destruct (value (data x)) as [u|]; [|discriminate].
  cbn in E. rewrite (Hnan u eq_refl) in E. discriminate.
Qed.

Lemma FixedAll_stable m :
  FixedAll m -> no_NaN m -> pass edges m = (m, false).
Proof.
  intros Hfix Hnan. rewrite (surjective_pairing (pass edges m)). f_equal.
  - apply FixedAll_pass. exact Hfix.
  - apply visit_from_flag; [exact Hfix|].
    intros i x Hi. destruct (type_is x NodeType.INPUT) eqn:Et.
    + unfold flags. rewrite Et. reflexivity.
    + apply fixed_flags; [apply (Hfix i x Hi)|].
      intros u Hu. apply (Hnan x u); [|exact Et|exact Hu].
      apply list_elem_of_In, list_elem_of_lookup. exists i. exact Hi.
Qed.

(** *** The run *)

Variable nodes : list AppNode.
Variable d : nat.
Hypothesis rank_bound : forall n, In n nodes -> rank (id n) <= d.

(** The loop state after [k] passes. *)
Definition after (k : nat) : LoopState (list AppNode) :=
  Nat.iter k (loop_body (pass edges)) (mkLoop (nodeMap_of nodes) true 0).

Lemma after_ids k : map id (current (after k)) = map id (nodeMap_of nodes).
Proof.
  induction k as [|k IH]; [reflexivity|].
  unfold after in *. rewrite Nat.iter_succ, loop_body_current, pass_ids.
  exact IH.
Qed.

Lemma after_rank_bound k i n :
  current (after k) !! i = Some n -> rank (id n) <= d.
Proof.
  intros Hi.
  assert (Hin : In (id n) (map id (current (after k)))).
  { apply in_map. apply list_elem_of_In, list_elem_of_lookup. exists i. exact Hi. }
  rewrite after_ids in Hin. apply (proj1 (nodeMap_of_ids_In _ _)) in Hin.
  apply in_map_iff in Hin. destruct Hin as (n' & Hid & Hin').
  rewrite <- Hid. apply rank_bound. exact Hin'.
Qed.

Lemma after_fixed k : Fixed k (current (after k)).
Proof.
  induction k as [|k IH].
  - intros i n _ Hr. lia.
  - unfold after in *. rewrite Nat.iter_succ, loop_body_current.
    apply pass_fixed. exact IH.
Qed.

Lemma after_FixedAll k : d < k -> FixedAll (current (after k)).
Proof.
  intros Hk i n Hi. apply (after_fixed k i n Hi).
  pose proof (after_rank_bound k i n Hi). lia.
Qed.

Lemma after_constant k :
  d < k -> current (after k) = current (after (S d)).
Proof.
  intros Hk. induction k as [|k IH]; [lia|].
  destruct (decide (k = d)) as [->|Hne]; [reflexivity|].
  rewrite <- IH by lia. unfold after. rewrite Nat.iter_succ, loop_body_current.
  apply FixedAll_pass. apply after_FixedAll. lia.
Qed.

End Ranked.

End Convergence.

Example cycle_runs_to_the_ceiling :
  iterations (Pure.run cycle_nodes cycle_edges) = 50
  /\ changed (Pure.run cycle_nodes cycle_edges) = true
  /\ map (fun n => value (data n)) (Pure.calculateGraph cycle_nodes cycle_edges)
     = [None; Some 50%float; Some 50%float].
Proof. vm_compute. repeat split. Qed.

(** ** The evaluator: the properties of the specification *)

Section EvaluatorProperties.
Import Pure PureFacts Resolution Convergence.

Lemma visit_flag_false edges (m : list AppNode) i :
  snd (visit edges m i) = false -> fst (visit edges m i) = m.
Proof.
  unfold visit. destruct (m !! i) as [node|]; [|reflexivity].
  destruct (type_is node NodeType.INPUT); [reflexivity|].
  destruct (strict_neq _ _); [discriminate|reflexivity].
Qed.

Lemma visit_from_flag_false edges n : forall i (m : list AppNode) c,
  snd (visit_from edges n i m c) = false ->
  fst (visit_from edges n i m c) = m /\ c = false.
Proof.
  induction n as [|n IH]; intros i m c H; [split; [reflexivity|exact H]|].
  cbn [visit_from] in *. destruct (visit edges m i) as [m' c'] eqn:E.
  destruct (IH _ _ _ H) as [Hm Hc]. apply orb_false_elim in Hc.
  destruct Hc as [-> ->]. split; [|reflexivity].
  rewrite Hm. change m' with (fst (m', false)). rewrite <- E.
  apply visit_flag_false. rewrite E. reflexivity.
Qed.

(** A pass that does not set [changed] leaves the map as it was. *)
Lemma pass_flag_false edges (m : list AppNode) :
  snd (pass edges m) = false -> pass edges m = (m, false).
Proof.
  intros H. rewrite (surjective_pairing (pass edges m)), H. f_equal.
  apply (visit_from_flag_false edges (length m) 0 m false H).
Qed.

(** When the loop ends with [changed = false], its result is a fixed point
    of the pass. *)
Lemma run_unchanged_stable nodes edges :
  changed (run nodes edges) = false ->
  pass edges (calculateGraph nodes edges) = (calculateGraph nodes edges, false).
Proof.
  intros Hc. destruct (run_passes nodes edges) as (k & Hk & [Hk1 _] & _).
  unfold calculateGraph. rewrite Hk in *. destruct k as [|k]; [lia|].
  rewrite Nat.iter_succ in *. rewrite loop_body_changed in Hc.
  rewrite loop_body_current. apply pass_flag_false in Hc.
  rewrite Hc. cbn [fst]. exact Hc.
Qed.

(** C7.  For every input graph, cyclic or not, the loop of [calculateGraph]
    ends: it runs some number [k] of passes with [1 <= k <= 50], the counter
    [iterations] is [k] when it ends, and the collection returned is the
    contents of the map after these [k] passes. *)
Theorem calculateGraph_ends_within_50_passes nodes edges :
  exists k,
    1 <= k <= 50
    /\ run nodes edges
       = Nat.iter k (loop_body (pass edges)) (mkLoop (nodeMap_of nodes) true 0)
    /\ iterations (run nodes edges) = k
    /\ calculateGraph nodes edges = current (run nodes edges).
Proof.
  destruct (run_passes nodes edges) as (k & Hk & Hk1 & Hit & _).
  exists k. repeat split; try assumption; apply Hk1.
Qed.

(** C2, on the graph [4 / 0]: in the result the divide node holds NaN; one
    more pass recomputes NaN for it and leaves every value as it is, yet the
    pass reports a change, and the run has used all 50 passes and ends with
    [changed] still set. *)
Theorem nan_recomputed_counts_as_change :
  let result := calculateGraph taint_nodes taint_edges in
  option_map (fun n => value (data n)) (result !! 2) = Some (Some nan)
  /\ option_map (newValue (nodeMap_get result) taint_edges) (result !! 2)
     = Some (Some nan)
  /\ fst (pass taint_edges result) = result
  /\ snd (pass taint_edges result) = true
  /\ iterations (run taint_nodes taint_edges) = 50
  /\ changed (run taint_nodes taint_edges) = true.
Proof. vm_compute. repeat split. Qed.

(** The same for any node: a value that is NaN and is recomputed as NaN
    sets [changed]. *)
Lemma visit_nan_sets_changed edges (m : list AppNode) i node :
  m !! i = Some node ->
  type_is node NodeType.INPUT = false ->
  value (data node) = Some nan ->
  newValue (nodeMap_get m) edges node = Some nan ->
  snd (visit edges m i) = true.
Proof.
  intros Hi Ht Hv Hn. rewrite (visit_Some _ _ _ _ Hi). cbn [snd].
  unfold flags. rewrite Ht, Hn, strict_neq_nan. reflexivity.
Qed.

(** One turn of an operator node whose ports [a] and [b] resolve to
    numbers: a divide node whose [b] is zero gets NaN; a divide node whose
    [b] is not zero computes [a / b], and its value after the turn is that
    quotient (or a value [===] to it that was there before); an add node
    one of whose ports holds NaN and the other 3 gets NaN. *)
Lemma operator_turn edges (m : list AppNode) i node a b :
  m !! i = Some node ->
  type_is node NodeType.MATH = true ->
  getSourceValue (nodeMap_get m) edges (id node) (handle "a") = Some a ->
  getSourceValue (nodeMap_get m) edges (id node) (handle "b") = Some b ->
  exists node',
    fst (visit edges m i) !! i = Some node'
    /\ (operation (data node) = Some MathOperation.divide ->
        PrimFloat.eqb b 0 = true -> value (data node') = Some nan)
    /\ (operation (data node) = Some MathOperation.divide ->
        PrimFloat.eqb b 0 = false ->
        newValue (nodeMap_get m) edges node = Some (a / b)%float
        /\ (value (data node') = Some (a / b)%float
            \/ strict_neq (value (data node')) (Some (a / b)%float) = false))
    /\ (operation (data node) = Some MathOperation.add ->
        (a = nan /\ b = 3%float) \/ (a = 3%float /\ b = nan) ->
        value (data node') = Some nan).
Proof.
  intros Hi Ht Ha Hb.
  assert (Hin : type_is node NodeType.INPUT = false).
  { apply (type_is_other node NodeType.MATH); [exact Ht|discriminate]. }
  assert (Hnv : newValue (nodeMap_get m) edges node
                = apply_operation (operation (data node)) a b).
  { unfold newValue. rewrite Ht, Ha, Hb. reflexivity. }
  exists (visited edges m node). split; [apply visit_lookup_eq; exact Hi|].
  unfold visited. rewrite Hin, Hnv.
  split; [|split].
  - intros -> Hz. cbn [apply_operation]. rewrite Hz. cbn [negb].
    apply settle_nan.
  - intros -> Hz. cbn [apply_operation]. rewrite Hz. cbn [negb].
    split; [reflexivity|apply settle_value_cases].
  - intros -> [[-> ->]|[-> ->]]; cbn [apply_operation].
    + rewrite (proj1 nan_plus_3). apply settle_nan.
    + rewrite (proj2 nan_plus_3). apply settle_nan.
Qed.

(** A pass that does not set [changed] found every entry as its turn
    leaves it. *)
Lemma visit_from_flag_false_fixed edges n : forall i (m : list AppNode) c,
  snd (visit_from edges n i m c) = false ->
  forall j x, i <= j < i + n -> m !! j = Some x -> visited edges m x = x.
Proof.
  induction n as [|n IH]; intros i m c H j x Hj Hx; [lia|].
  cbn [visit_from] in H. destruct (visit edges m i) as [m' c'] eqn:E.
  destruct (visit_from_flag_false _ _ _ _ _ H) as [_ Hc].
  apply orb_false_elim in Hc. destruct Hc as [-> ->].
  assert (Hm : m' = m).
  { change m' with (fst (m', false)). rewrite <- E.
    apply visit_flag_false. rewrite E. reflexivity. }
  subst m'. destruct (decide (j = i)) as [->|Hne].
  - rewrite (visit_Some _ _ _ _ Hx) in E. injection E as E _.
    assert (Hl : <[i := visited edges m x]> m !! i = Some x)
      by (rewrite E; exact Hx).
    rewrite list_lookup_insert_eq in Hl
      by (apply lookup_lt_Some in Hx; exact Hx).
    injection Hl as Hl. exact Hl.
  - apply (IH (S i) m false H j x); [lia|exact Hx].
Qed.

Lemma pass_stable_FixedAll edges (m : list AppNode) :
  snd (pass edges m) = false -> FixedAll edges m.
Proof.
  intros H i x Hx.
  apply (visit_from_flag_false_fixed edges (length m) 0 m false H i x);
    [|exact Hx].
  apply lookup_lt_Some in Hx. lia.
Qed.

(** On an acyclic graph that the ceiling does not cut short ([d + 1 <= 50]
    for ranks up to [d]), every node of the result is as its turn in a pass
    over the result leaves it. *)
Lemma acyclic_result_is_settled nodes edges (rank : string -> nat) d :
  (forall e, In e edges -> rank (source e) < rank (target e)) ->
  (forall n, In n nodes -> rank (id n) <= d) ->
  d + 1 <= MAX_ITERATIONS ->
  FixedAll edges (calculateGraph nodes edges).
Proof.
  intros Hrank Hbound Hd.
  destruct (run_passes nodes edges) as (k & Hk & [Hk1 Hk50] & Hit & Hstop & _).
  destruct (le_lt_dec k d) as [Hsmall|Hlarge].
  - assert (Hc : changed (run nodes edges) = false).
    { unfold loop_cond in Hstop. rewrite Hit in Hstop.
      apply andb_false_iff in Hstop. destruct Hstop as [Hc|Hlt]; [exact Hc|].
      apply Nat.ltb_ge in Hlt. unfold MAX_ITERATIONS in *. lia. }
    apply pass_stable_FixedAll.
    rewrite (run_unchanged_stable nodes edges Hc). reflexivity.
  - unfold calculateGraph. rewrite Hk. fold (after edges nodes k).
    apply (after_FixedAll edges rank Hrank nodes d Hbound). exact Hlarge.
Qed.

(** So, on such a graph, a divide node of the result whose port [b] resolves
    to zero (and port [a] to a number) holds NaN. *)
Lemma acyclic_result_divide_by_zero nodes edges (rank : string -> nat) d n a b :
  (forall e, In e edges -> rank (source e) < rank (target e)) ->
  (forall x, In x nodes -> rank (id x) <= d) ->
  d + 1 <= MAX_ITERATIONS ->
  In n (calculateGraph nodes edges) ->
  type_is n NodeType.MATH = true ->
  operation (data n) = Some MathOperation.divide ->
  getSourceValue (nodeMap_get (calculateGraph nodes edges)) edges (id n)
    (handle "a") = Some a ->
  getSourceValue (nodeMap_get (calculateGraph nodes edges)) edges (id n)
    (handle "b") = Some b ->
  PrimFloat.eqb b 0 = true ->
  value (data n) = Some nan.
Proof.
  intros Hrank Hbound Hd Hin Ht Hop Ha Hb Hz.
  apply list_elem_of_In, list_elem_of_lookup in Hin. destruct Hin as [i Hi].
  pose proof (acyclic_result_is_settled nodes edges rank d Hrank Hbound Hd
                i n Hi) as Hfix.
  rewrite <- Hfix. unfold visited.
  rewrite (type_is_other n NodeType.MATH NodeType.INPUT Ht) by discriminate.
  unfold newValue. rewrite Ht, Ha, Hb, Hop. cbn [apply_operation].
  rewrite Hz. cbn [negb]. apply settle_nan.
Qed.

Example taint_values :
  map (fun n => value (data n)) (calculateGraph taint_nodes taint_edges)
  = [None; None; Some nan; None; Some nan].
Proof. vm_compute. reflexivity. Qed.

(** An operator node with a value left from an earlier evaluation. *)
Definition stale_math_node (i : string) (px py : float) (op : MathOperation.t)
    (v : float) : AppNode :=
  mkNode i (Some NodeType.MATH) (mkXY px py)
    (mkNodeData None (Some v) None (Some op) None).

(** [q = 4 / 3] beside [d = 4 / 0] and [s = d + 3]. *)
Definition division_nodes : list AppNode :=
  [ input_node "a" 0 0 4;
    input_node "b" 0 100 0;
    input_node "c" 0 200 3;
    math_node "d" 200 50 MathOperation.divide;
    math_node "s" 400 100 MathOperation.add;
    math_node "q" 200 250 MathOperation.divide ].

Definition division_edges : list AppEdge :=
  [ edge_to "e1" "a" "d" (handle "a");
    edge_to "e2" "b" "d" (handle "b");
    edge_to "e3" "d" "s" (handle "a");
    edge_to "e4" "c" "s" (handle "b");
    edge_to "e5" "a" "q" (handle "a");
    edge_to "e6" "c" "q" (handle "b") ].

Definition division_rank (k : string) : nat :=
  if String.eqb k "s" then 2
  else if String.eqb k "d" then 1
  else if String.eqb k "q" then 1
  else 0.

(** The cycle [D = 4 / Y], [X = 1 - Y], [Y = X + 0], with 0 left in [X] and
    in [Y]. *)
Definition division_cycle_nodes : list AppNode :=
  [ input_node "four" 0 0 4;
    input_node "one" 0 100 1;
    input_node "zero" 0 200 0;
    math_node "D" 200 0 MathOperation.divide;
    stale_math_node "X" 200 100 MathOperation.subtract 0;
    stale_math_node "Y" 200 200 MathOperation.add 0 ].

Definition division_cycle_edges : list AppEdge :=
  [ edge_to "e1" "four" "D" (handle "a");
    edge_to "e2" "Y" "D" (handle "b");
    edge_to "e3" "one" "X" (handle "a");
    edge_to "e4" "Y" "X" (handle "b");
    edge_to "e5" "X" "Y" (handle "a");
    edge_to "e6" "zero" "Y" (handle "b") ].

(** C5.  On an acyclic graph that the ceiling does not cut short ([d + 1 <=
    50] for ranks up to [d]), for an operator node of the result of
    [calculateGraph] whose ports [a] and [b] resolve, on the result, to
    numbers: a divide node whose [b] is zero holds NaN; a divide node whose
    [b] is not zero holds [a / b], or a value [===] to it; an add node one
    of whose ports holds NaN and the other 3 holds NaN, not 3. *)
Theorem division_in_the_result nodes edges (rank : string -> nat) d n a b :
  (forall e, In e edges -> rank (source e) < rank (target e)) ->
  (forall x, In x nodes -> rank (id x) <= d) ->
  d + 1 <= MAX_ITERATIONS ->
  In n (calculateGraph nodes edges) ->
  type_is n NodeType.MATH = true ->
  getSourceValue (nodeMap_get (calculateGraph nodes edges)) edges (id n)
    (handle "a") = Some a ->
  getSourceValue (nodeMap_get (calculateGraph nodes edges)) edges (id n)
    (handle "b") = Some b ->
  (operation (data n) = Some MathOperation.divide ->
   PrimFloat.eqb b 0 = true -> value (data n) = Some nan)
  /\ (operation (data n) = Some MathOperation.divide ->
      PrimFloat.eqb b 0 = false ->
      value (data n) = Some (a / b)%float
      \/ strict_neq (value (data n)) (Some (a / b)%float) = false)
  /\ (operation (data n) = Some MathOperation.add ->
      (a = nan /\ b = 3%float) \/ (a = 3%float /\ b = nan) ->
      value (data n) = Some nan).
Proof.
  intros Hrank Hbound Hd Hin Ht Ha Hb.
  apply list_elem_of_In, list_elem_of_lookup in Hin. destruct Hin as [i Hi].
  pose proof (acyclic_result_is_settled nodes edges rank d Hrank Hbound Hd
                i n Hi) as Hfix.
  assert (Hset : settle n (apply_operation (operation (data n)) a b) = n).
  { rewrite <- Hfix at 3. unfold visited.
    rewrite (type_is_other n NodeType.MATH NodeType.INPUT Ht) by discriminate.
    unfold newValue. rewrite Ht, Ha, Hb. reflexivity. }
  split; [|split].
  - intros Hop Hz. rewrite <- Hset, Hop. cbn [apply_operation].
    rewrite Hz. cbn [negb]. apply settle_nan.
  - intros Hop Hz. rewrite <- Hset, Hop. cbn [apply_operation].
    rewrite Hz. cbn [negb]. apply settle_value_cases.
  - intros Hop Hab. rewrite <- Hset, Hop. cbn [apply_operation].
    destruct Hab as [[-> ->]|[-> ->]].
    + rewrite (proj1 nan_plus_3). apply settle_nan.
    + rewrite (proj2 nan_plus_3). apply settle_nan.
Qed.

(** The three operator nodes of [division_nodes]: [d = 4 / 0] holds NaN,
    [s = d + 3] holds NaN, [q = 4 / 3] holds the quotient. *)
Lemma division_in_the_result_witness :
  value (data (set_value (math_node "d" 200 50 MathOperation.divide)
                 (Some nan))) = Some nan
  /\ value (data (set_value (math_node "s" 400 100 MathOperation.add)
                    (Some nan))) = Some nan
  /\ (value (data (set_value (math_node "q" 200 250 MathOperation.divide)
                     (Some (4 / 3)%float))) = Some (4 / 3)%float
      \/ strict_neq
           (value (data (set_value (math_node "q" 200 250 MathOperation.divide)
                           (Some (4 / 3)%float))))
           (Some (4 / 3)%float) = false).
Proof.
  assert (Hrank : forall e, In e division_edges ->
            division_rank (source e) < division_rank (target e)).
  { intros e [<-|[<-|[<-|[<-|[<-|[<-|[]]]]]]]; vm_compute; lia. }
  assert (Hbound : forall x, In x division_nodes -> division_rank (id x) <= 2).
  { intros x [<-|[<-|[<-|[<-|[<-|[<-|[]]]]]]]; vm_compute; lia. }
  assert (Hd : 2 + 1 <= MAX_ITERATIONS) by (vm_compute; lia).
  assert (Hin : forall n,
            n = set_value (math_node "d" 200 50 MathOperation.divide) (Some nan)
            \/ n = set_value (math_node "s" 400 100 MathOperation.add)
                     (Some nan)
            \/ n = set_value (math_node "q" 200 250 MathOperation.divide)
                     (Some (4 / 3)%float) ->
            In n (calculateGraph division_nodes division_edges)).
  { intros n [-> | [-> | ->]]; vm_compute;
      repeat (first [left; reflexivity|right]). }
  split; [|split].
  - apply (proj1 (division_in_the_result division_nodes division_edges
                    division_rank 2 _ 4 0 Hrank Hbound Hd
                    (Hin _ (or_introl eq_refl)) eq_refl eq_refl eq_refl));
      reflexivity.
  - apply (proj2 (proj2 (division_in_the_result division_nodes division_edges
                    division_rank 2 _ nan 3 Hrank Hbound Hd
                    (Hin _ (or_intror (or_introl eq_refl)))
                    eq_refl eq_refl eq_refl)));
      [reflexivity|left; split; reflexivity].
  - apply (proj1 (proj2 (division_in_the_result division_nodes division_edges
                    division_rank 2 _ 4 3 Hrank Hbound Hd
                    (Hin _ (or_intror (or_intror eq_refl)))
                    eq_refl eq_refl eq_refl)));
      reflexivity.
Defined.

(** In the cycle the loop gives up at the ceiling, after 50 passes, and the
    result is not settled: port [b] of the divide node [D] resolves to 0 on
    the result, port [a] to 4, and [D] holds 4, the quotient by the 1 that
    [Y] held a pass earlier, not NaN. *)
Lemma division_in_a_cycle_is_not_tainted :
  let result := calculateGraph division_cycle_nodes division_cycle_edges in
  iterations (run division_cycle_nodes division_cycle_edges) = 50
  /\ result !! 3
     = Some (set_value (math_node "D" 200 0 MathOperation.divide) (Some 4%float))
  /\ type_is (math_node "D" 200 0 MathOperation.divide) NodeType.MATH = true
  /\ getSourceValue (nodeMap_get result) division_cycle_edges "D" (handle "a")
     = Some 4%float
  /\ getSourceValue (nodeMap_get result) division_cycle_edges "D" (handle "b")
     = Some 0%float
  /\ PrimFloat.eqb 0 0 = true
  /\ PrimFloat.eqb 4 4 = true.
Proof. vm_compute. repeat split. Qed.

(** C6.  For a node of the result that is not an Input node: a port that no
    edge reaches, or whose first matching edge starts at an id that no node
    has, resolves to undefined; an Output node whose port is such, an
    operator node one of whose two ports is such, and any node without an
    inbound edge have an undefined value in the result. *)
Theorem unresolved_port_gives_undefined nodes edges n :
  In n (calculateGraph nodes edges) ->
  type_is n NodeType.INPUT = false ->
  (forall h, unresolvable nodes edges (id n) h ->
     getSourceValue (nodeMap_get (calculateGraph nodes edges)) edges (id n) h
     = None)
  /\ (type_is n NodeType.OUTPUT = true ->
      unresolvable nodes edges (id n) null_handle ->
      value (data n) = None)
  /\ (type_is n NodeType.MATH = true ->
      unresolvable nodes edges (id n) (handle "a")
      \/ unresolvable nodes edges (id n) (handle "b") ->
      value (data n) = None)
  /\ ((forall e, In e edges -> target e <> id n) -> value (data n) = None).
Proof.
  intros Hin Hty.
  assert (Hsub : forall m : list AppNode,
            map id m = map id (nodeMap_of nodes) ->
            forall k, In k (map id m) -> In k (map id nodes)).
  { intros m Hm k Hk. rewrite Hm in Hk. apply nodeMap_of_ids_In. exact Hk. }
  split.
  { intros h Hu. apply (getSourceValue_unresolvable nodes); [|exact Hu].
    apply Hsub, calculateGraph_ids. }
  destruct (run_last_pass nodes edges) as (m & Hres & Hids).
  rewrite Hres in Hin.
  pose (P := fun x : AppNode =>
    type_is x NodeType.INPUT = false ->
    ((type_is x NodeType.OUTPUT = true ->
      unresolvable nodes edges (id x) null_handle)
     /\ (type_is x NodeType.MATH = true ->
         unresolvable nodes edges (id x) (handle "a")
         \/ unresolvable nodes edges (id x) (handle "b"))) ->
    value (data x) = None).
  assert (HP : P n).
  { apply (pass_establishes P edges m); [|exact Hin].
    intros m' node Hm' _. unfold P, visited.
    destruct (type_is node NodeType.INPUT) eqn:E; [congruence|].
    rewrite !type_is_settle, settle_id. intros _ Hu.
    rewrite (newValue_unresolvable nodes edges m' node); [apply settle_None| |exact Hu].
    apply Hsub. rewrite Hm'. exact Hids. }
  split; [|split].
  - intros Ho Hu. apply (HP Hty). split; [intros _; exact Hu|].
    intros Hm. pose proof (type_is_exclusive _ _ _ Ho Hm). discriminate.
  - intros Hm Hu. apply (HP Hty). split; [|intros _; exact Hu].
    intros Ho. pose proof (type_is_exclusive _ _ _ Ho Hm). discriminate.
  - intros Hno. apply (HP Hty).
    split; intros _; [|left]; apply no_inbound_unresolvable; exact Hno.
Qed.

Lemma unresolved_port_gives_undefined_witness :
  In (output_node "o" 0 0 None) (calculateGraph lone_output [])
  /\ value (data (output_node "o" 0 0 None)) = None.
Proof.
  assert (Hin : In (output_node "o" 0 0 None) (calculateGraph lone_output []))
    by (vm_compute; left; reflexivity).
  split; [exact Hin|].
  refine (proj2 (proj2 (proj2
    (unresolved_port_gives_undefined lone_output []
       (output_node "o" 0 0 None) Hin _))) _).
  - reflexivity.
  - intros e [].
Defined.

(** C1, as the code has it.  Let the ids be ranked so that every edge goes
    from a smaller rank to a larger one, no rank above [d] (so no directed
    path has more than [d] edges), with [d + 2 <= 50].  If no computed value
    of the result is NaN, the loop ends on a pass that changed nothing,
    after at most [d + 2] passes, and the result is a fixed point of the
    pass. *)
Theorem acyclic_graph_stabilises nodes edges (rank : string -> nat) d :
  (forall e, In e edges -> rank (source e) < rank (target e)) ->
  (forall n, In n nodes -> rank (id n) <= d) ->
  d + 2 <= MAX_ITERATIONS ->
  no_NaN (calculateGraph nodes edges) ->
  changed (run nodes edges) = false
  /\ iterations (run nodes edges) <= d + 2
  /\ pass edges (calculateGraph nodes edges)
     = (calculateGraph nodes edges, false).
Proof.
  intros Hrank Hbound Hd Hnan.
  assert (Hgoal : changed (run nodes edges) = false
                  /\ iterations (run nodes edges) <= d + 2).
  { destruct (run_passes nodes edges) as (k & Hk & [Hk1 Hk50] & Hit & Hstop & Hrun).
    fold (after edges nodes k) in Hk.
    destruct (le_lt_dec k (S d)) as [Hsmall|Hlarge].
    - split; [|lia]. unfold loop_cond in Hstop. rewrite Hit in Hstop.
      apply andb_false_iff in Hstop. destruct Hstop as [Hc|Hlt]; [exact Hc|].
      apply Nat.ltb_ge in Hlt. unfold MAX_ITERATIONS in *. lia.
    - assert (Hres : calculateGraph nodes edges
                     = current (after edges nodes (S d))).
      { unfold calculateGraph. rewrite Hk.
        apply (after_constant edges rank Hrank nodes d Hbound). lia. }
      assert (Hst : pass edges (current (after edges nodes (S d)))
                    = (current (after edges nodes (S d)), false)).
      { apply FixedAll_stable.
        - apply (after_FixedAll edges rank Hrank nodes d Hbound). lia.
        - rewrite <- Hres. exact Hnan. }
      assert (Hc : changed (after edges nodes (S (S d))) = false).
      { unfold after. rewrite Nat.iter_succ, loop_body_changed.
        fold (after edges nodes (S d)). rewrite Hst. reflexivity. }
      assert (Hk' : k = S (S d)).
      { destruct (decide (k = S (S d))) as [E|E]; [exact E|].
        assert (Hlt : S (S d) < k) by lia.
        specialize (Hrun _ Hlt). fold (after edges nodes (S (S d))) in Hrun.
        unfold loop_cond in Hrun. rewrite Hc in Hrun. discriminate. }
      rewrite Hk' in Hk, Hit. split; [rewrite Hk; exact Hc|rewrite Hit; lia]. }
  destruct Hgoal as [Hc Hit]. split; [exact Hc|]. split; [exact Hit|].
  apply run_unchanged_stable. exact Hc.
Qed.

Lemma acyclic_graph_stabilises_witness :
  changed (run initialNodes initialEdges) = false
  /\ iterations (run initialNodes initialEdges) <= 2 + 2
  /\ pass initialEdges (calculateGraph initialNodes initialEdges)
     = (calculateGraph initialNodes initialEdges, false).
Proof.
  apply (acyclic_graph_stabilises initialNodes initialEdges initial_rank 2).
  - intros e [<-|[<-|[<-|[]]]]; vm_compute; lia.
  - intros n [<-|[<-|[<-|[<-|[]]]]]; vm_compute; lia.
  - vm_compute. lia.
  - intros n u Hin. vm_compute in Hin.
    destruct Hin as [<-|[<-|[<-|[<-|[]]]]]; intros _ Hu; vm_compute in Hu;
      try discriminate; injection Hu as <-; reflexivity.
Defined.

(** The chain of 51 Output nodes behind one Input node is acyclic (the
    length of an id ranks it), no value in it is NaN, and the loop gives up
    at the ceiling: after 50 passes [changed] is still set, and a further
    pass would change the result again. *)
Lemma deep_chain_gives_up_at_the_ceiling :
  (forall e, In e (chain_edges 51) ->
     String.length (source e) < String.length (target e))
  /\ no_NaN (calculateGraph (chain_nodes 51) (chain_edges 51))
  /\ iterations (run (chain_nodes 51) (chain_edges 51)) = 50
  /\ changed (run (chain_nodes 51) (chain_edges 51)) = true
  /\ snd (pass (chain_edges 51)
            (calculateGraph (chain_nodes 51) (chain_edges 51))) = true.
Proof.
  split; [|split].
  - assert (H : forallb (fun e => String.length (source e)
                                  <? String.length (target e))%nat
                  (chain_edges 51) = true) by (vm_compute; reflexivity).
    intros e He. apply Nat.ltb_lt.
    exact (proj1 (forallb_forall _ _) H e He).
  - assert (H : forallb (fun n => match value (data n) with
                                  | Some u => PrimFloat.eqb u u
                                  | None => true
                                  end)
                  (calculateGraph (chain_nodes 51) (chain_edges 51)) = true)
      by (vm_compute; reflexivity).
    intros n u Hin _ Hu. pose proof (proj1 (forallb_forall _ _) H n Hin) as Hn.
    cbv beta in Hn. rewrite Hu in Hn. exact Hn.
  - vm_compute. repeat split.
Qed.

End EvaluatorProperties.

(** ** calculateGraph on the store refines calculateGraph on values *)

Module StoreFacts.

Lemma write_value_node_objs h l v :
  node_objs (write_value h l v) = node_objs h.
Proof.
  unfold write_value. destruct (node_objs h !! l) as [o|]; [|reflexivity].
  destruct (data_objs h !! data o); reflexivity.
Qed.

Lemma write_value_take h l v o base :
  node_objs h !! l = Some o -> base <= data o ->
  take base (data_objs (write_value h l v)) = take base (data_objs h).
Proof.
  intros Ho Hb. unfold write_value. rewrite Ho.
  destruct (data_objs h !! data o); [|reflexivity].
  cbn. apply take_insert_ge. exact Hb.
Qed.

Lemma write_value_length h l v :
  length (data_objs (write_value h l v)) = length (data_objs h).
Proof.
  unfold write_value. destruct (node_objs h !! l) as [o|]; [|reflexivity].
  destruct (data_objs h !! data o); [|reflexivity].
  cbn. apply length_insert.
Qed.

Lemma read_node_Some h l n :
  read_node h l = Some n ->
  exists o d, node_objs h !! l = Some o /\ data_objs h !! data o = Some d
              /\ n = mkNode (id o) (type o) (position o) d.
Proof.
  unfold read_node. destruct (node_objs h !! l) as [o|]; [|discriminate].
  destruct (data_objs h !! data o) as [d|] eqn:Hd; [|discriminate].
  intros [= <-]. exists o, d. split; [reflexivity|].
  split; [exact Hd|reflexivity].
Qed.

Lemma read_node_write_same h l v n :
  read_node h l = Some n ->
  read_node (write_value h l v) l = Some (set_value n v).
Proof.
  intros H. destruct (read_node_Some _ _ _ H) as (o & d & Ho & Hd & ->).
  unfold read_node, write_value. rewrite Ho, Hd. cbn. rewrite Ho.
  rewrite list_lookup_insert_eq by (apply lookup_lt_Some in Hd; exact Hd).
  reflexivity.
Qed.

Lemma read_node_write_other h l l' v o o' :
  node_objs h !! l = Some o -> node_objs h !! l' = Some o' ->
  data o <> data o' ->
  read_node (write_value h l v) l' = read_node h l'.
Proof.
  intros Ho Ho' Hne. unfold read_node, write_value. rewrite Ho.
  destruct (data_objs h !! data o) as [d|]; [|reflexivity].
  cbn. rewrite Ho'. rewrite list_lookup_insert_ne by exact Hne. reflexivity.
Qed.

(** [newValue] uses the map only through [nodeMap.get]. *)
Lemma newValue_get_ext get get' edges (n : AppNode) :
  (forall k, get k = get' k) -> newValue get edges n = newValue get' edges n.
Proof.
  intros H. unfold newValue, getSourceValue.
  repeat match goal with
         | |- context [find ?p edges] => destruct (find p edges); try rewrite H
         end; reflexivity.
Qed.

Section Representation.
Variable m : list (string * loc).
Variable edges : list AppEdge.

(** The map of references [m], read in the store [h], is the map of values
    [pm]. *)
Definition represents (h : Heap) (pm : list AppNode) : Prop :=
  Forall2 (fun (e : string * loc) n =>
             fst e = id n /\ read_node h (snd e) = Some n) m pm.

(** The node objects that [m] refers to have data objects of their own,
    allocated at [base] or later. *)
Definition owns (base : nat) (N : list (Node loc)) : Prop :=
  forall i e o, m !! i = Some e -> N !! snd e = Some o ->
    base <= data o
    /\ forall j e' o', m !! j = Some e' -> N !! snd e' = Some o' ->
         data o = data o' -> i = j.

End Representation.

Lemma get_node_represents m h pm k :
  represents m h pm -> Store.get_node m h k = Pure.nodeMap_get pm k.
Proof.
  unfold represents, Store.get_node, Store.nodeMap_get, Pure.nodeMap_get.
  induction 1 as [|[k0 l0] n m' pm' [Hk Hr] _ IH]; [reflexivity|].
  cbn in *. subst k0. destruct (String.eqb (id n) k); [exact Hr|exact IH].
Qed.

Section Simulation.
Variable m : list (string * loc).
Variable edges : list AppEdge.
Variable base : nat.
Variable N : list (Node loc).
Hypothesis Hown : owns m base N.

(** What a turn, a pass and the loop keep: the node objects, the data
    objects below [base], and the representation of the map. *)
Definition related (h : Heap) (pm : list AppNode) : Prop :=
  node_objs h = N /\ represents m h pm.

Lemma visit_simulates h pm i e :
  related h pm -> m !! i = Some e ->
  snd (Store.visit m edges h (snd e)) = snd (Pure.visit edges pm i)
  /\ related (fst (Store.visit m edges h (snd e))) (fst (Pure.visit edges pm i))
  /\ take base (data_objs (fst (Store.visit m edges h (snd e))))
     = take base (data_objs h).
Proof.
  intros [HN Hrep] Hi.
  destruct (Forall2_lookup_l _ _ _ _ _ Hrep Hi) as (n & Hpi & Hk & Hread).
  unfold Store.visit, Pure.visit. rewrite Hread, Hpi.
  destruct (type_is n NodeType.INPUT); [repeat split; assumption|].
  rewrite (newValue_get_ext _ (Pure.nodeMap_get pm) edges n
             (fun k => get_node_represents m h pm k Hrep)).
  destruct (strict_neq (value (data n)) _) eqn:E;
    [|repeat split; assumption].
  set (nv := newValue (Pure.nodeMap_get pm) edges n).
  destruct (read_node_Some _ _ _ Hread) as (o & d & Ho & Hd & Hn).
  assert (HoN : N !! snd e = Some o) by (rewrite <- HN; exact Ho).
  destruct (Hown i e o Hi HoN) as [Hbase Hinj].
  cbn [fst snd]. split; [reflexivity|]. split; [split|].
  - rewrite write_value_node_objs. exact HN.
  - unfold represents. apply Forall2_lookup. intros j.
    destruct (decide (j = i)) as [->|Hne].
    + rewrite Hi, list_lookup_insert_eq by (apply lookup_lt_Some in Hpi; exact Hpi).
      constructor. split; [exact Hk|]. apply read_node_write_same. exact Hread.
    + rewrite list_lookup_insert_ne by congruence.
      destruct (m !! j) as [e'|] eqn:Hmj.
      * destruct (Forall2_lookup_l _ _ _ _ _ Hrep Hmj)
          as (n' & Hpj & Hk' & Hread').
        rewrite Hpj. constructor. split; [exact Hk'|].
        destruct (read_node_Some _ _ _ Hread') as (o' & d' & Ho' & _ & _).
        rewrite (read_node_write_other h (snd e) (snd e') nv o o' Ho Ho');
          [exact Hread'|].
        intros Heq. apply Hne. symmetry.
        apply (Hinj j e' o'); [exact Hmj| |exact Heq].
        rewrite <- HN. exact Ho'.
      * apply lookup_ge_None in Hmj.
        rewrite (Forall2_length _ _ _ Hrep) in Hmj.
        rewrite (lookup_ge_None_2 pm j Hmj). constructor.
  - apply (write_value_take h (snd e) nv o base Ho Hbase).
Qed.

Lemma visit_all_simulates n : forall i h pm c,
  i + n = length m -> related h pm ->
  snd (Store.visit_all m edges (drop i (map snd m)) h c)
  = snd (Pure.visit_from edges n i pm c)
  /\ related (fst (Store.visit_all m edges (drop i (map snd m)) h c))
       (fst (Pure.visit_from edges n i pm c))
  /\ take base
       (data_objs (fst (Store.visit_all m edges (drop i (map snd m)) h c)))
     = take base (data_objs h).
Proof.
  induction n as [|n IH]; intros i h pm c Hlen Hrel.
  - rewrite drop_ge by (rewrite length_map; lia). cbn. repeat split; apply Hrel.
  - destruct (lookup_lt_is_Some_2 m i ltac:(lia)) as [e Hi].
    rewrite (drop_S _ (snd e)) by (rewrite PureFacts.map_lookup, Hi; reflexivity).
    cbn [Store.visit_all Pure.visit_from].
    destruct (visit_simulates h pm i e Hrel Hi) as (Hc & Hrel' & Htake).
    destruct (Store.visit m edges h (snd e)) as [h' c1].
    destruct (Pure.visit edges pm i) as [pm' c2]. cbn [fst snd] in *. subst c2.
    destruct (IH (S i) h' pm' (c || c1) ltac:(lia) Hrel') as (Hc' & Hrel'' & Htake').
    split; [exact Hc'|]. split; [exact Hrel''|]. rewrite Htake'. exact Htake.
Qed.

Lemma pass_simulates h pm :
  related h pm ->
  snd (Store.pass m edges h) = snd (Pure.pass edges pm)
  /\ related (fst (Store.pass m edges h)) (fst (Pure.pass edges pm))
  /\ take base (data_objs (fst (Store.pass m edges h)))
     = take base (data_objs h).
Proof.
  intros Hrel. unfold Store.pass, Pure.pass.
  assert (Hlen : length pm = length m).
  { symmetry. apply (Forall2_length _ _ _ (proj2 Hrel)). }
  rewrite Hlen. change (map snd m) with (drop 0 (map snd m)).
  apply visit_all_simulates; [lia|exact Hrel].
Qed.

(** Both loops run the same number of passes and stay related. *)
Lemma while_loop_simulates (s : LoopState Heap) (s' : LoopState (list AppNode)) :
  related (current s) (current s') ->
  changed s = changed s' -> iterations s = iterations s' ->
  let r := while_loop (Store.pass m edges) s in
  let r' := while_loop (Pure.pass edges) s' in
  related (current r) (current r')
  /\ changed r = changed r' /\ iterations r = iterations r'
  /\ take base (data_objs (current r)) = take base (data_objs (current s)).
Proof.
  remember (passes_left s) as n eqn:Hn. revert s s' Hn.
  induction n as [n IH] using lt_wf_ind. intros s s' Hn Hrel Hc Hit.
  cbv zeta. rewrite (while_loop_step (Store.pass m edges) s),
    (while_loop_step (Pure.pass edges) s').
  assert (Hcond : loop_cond s = loop_cond s').
  { unfold loop_cond. rewrite Hc, Hit. reflexivity. }
  rewrite <- Hcond. destruct (loop_cond s) eqn:E;
    [|repeat split; try assumption; apply Hrel].
  destruct (pass_simulates _ _ Hrel) as (Hc1 & Hrel1 & Htake1).
  assert (Hb : related (current (loop_body (Store.pass m edges) s))
                 (current (loop_body (Pure.pass edges) s'))
               /\ changed (loop_body (Store.pass m edges) s)
                  = changed (loop_body (Pure.pass edges) s')
               /\ iterations (loop_body (Store.pass m edges) s)
                  = iterations (loop_body (Pure.pass edges) s')
               /\ take base (data_objs (current (loop_body (Store.pass m edges) s)))
                  = take base (data_objs (current s))).
  { unfold loop_body.
    destruct (Store.pass m edges (current s)) as [h1 c1].
    destruct (Pure.pass edges (current s')) as [pm1 c1'].
    cbn [fst snd current changed iterations] in *.
    repeat split; try assumption; try apply Hrel1. congruence. }
  destruct Hb as (Hrel2 & Hc2 & Hit2 & Htake2).
  pose proof (loop_body_decreases (Store.pass m edges) s E) as Hdec.
  destruct (IH _ ltac:(subst n; exact Hdec) _ _ eq_refl Hrel2 Hc2 Hit2)
    as (Hr & Hcr & Hir & Htr).
  split; [exact Hr|]. split; [exact Hcr|]. split; [exact Hir|].
  rewrite Htr. exact Htake2.
Qed.

End Simulation.

(** *** The copies made at line 11 *)

Lemma read_node_grow h h' l n :
  node_objs h `prefix_of` node_objs h' ->
  data_objs h `prefix_of` data_objs h' ->
  read_node h l = Some n -> read_node h' l = Some n.
Proof.
  intros HN HD H. destruct (read_node_Some _ _ _ H) as (o & d & Ho & Hd & ->).
  unfold read_node.
  rewrite (prefix_lookup_Some _ _ _ _ Ho HN), (prefix_lookup_Some _ _ _ _ Hd HD).
  reflexivity.
Qed.

Lemma represents_grow m h h' pm :
  node_objs h `prefix_of` node_objs h' ->
  data_objs h `prefix_of` data_objs h' ->
  represents m h pm -> represents m h' pm.
Proof.
  intros HN HD H. unfold represents in *.
  eapply Forall2_impl; [exact H|]. intros e n [Hk Hr].
  split; [exact Hk|]. exact (read_node_grow h h' _ _ HN HD Hr).
Qed.

Lemma represents_set m h pm v l :
  represents m h pm -> read_node h l = Some v ->
  represents (Store.nodeMap_set m (id v) l) h (Pure.nodeMap_set pm v).
Proof.
  intros H Hv. unfold represents in *.
  induction H as [|[k0 l0] n m' pm' [Hk Hr] Htail IH]; cbn.
  - constructor; [split; [reflexivity|exact Hv]|constructor].
  - cbn in Hk. subst k0. destruct (String.eqb (id n) (id v)) eqn:E.
    + apply String.eqb_eq in E. constructor; [|exact Htail].
      split; [exact E|exact Hv].
    + constructor; [split; [reflexivity|exact Hr]|exact IH].
Qed.

Lemma nodeMap_set_entries m k l e :
  In e (Store.nodeMap_set m k l) -> snd e = l \/ In e m.
Proof.
  induction m as [|[k0 l0] m IH]; cbn.
  - intros [<-|[]]. left. reflexivity.
  - destruct (String.eqb k0 k); cbn.
    + intros [<-|H]; [left; reflexivity|right; right; exact H].
    + intros [<-|H]; [right; left; reflexivity|].
      destruct (IH H) as [Hl|Hin]; [left; exact Hl|right; right; exact Hin].
Qed.

Lemma nodeMap_set_refs_NoDup m k l :
  NoDup (map snd m) -> ~ In l (map snd m) ->
  NoDup (map snd (Store.nodeMap_set m k l)).
Proof.
  induction m as [|[k0 l0] m IH]; cbn; intros Hnd Hl.
  - constructor; [intros H; apply list_elem_of_In in H; destruct H|constructor].
  - apply NoDup_cons in Hnd. destruct Hnd as [Hl0 Hnd].
    destruct (String.eqb k0 k); cbn.
    + apply NoDup_cons. split; [|exact Hnd].
      intros H. apply Hl. right. apply list_elem_of_In. exact H.
    + apply NoDup_cons. split.
      * intros H. apply list_elem_of_In, in_map_iff in H.
        destruct H as (e & He & Hin). destruct (nodeMap_set_entries _ _ _ _ Hin) as [E|Hin'].
        -- apply Hl. left. congruence.
        -- apply Hl0. apply list_elem_of_In, in_map_iff. exists e. split; assumption.
      * apply IH; [exact Hnd|]. intros H. apply Hl. right. exact H.
Qed.

(** The state of the copying loop: the store has grown by the copies [NN]
    and their data objects [DD], the [j]-th copy referring to the [j]-th
    data object; the map holds references to copies only, each once. *)
Definition copied (h hc : Heap) (mc : list (string * loc))
    (pmc : list AppNode) : Prop :=
  exists NN DD,
    node_objs hc = node_objs h ++ NN
    /\ data_objs hc = data_objs h ++ DD
    /\ length NN = length DD
    /\ (forall j o, NN !! j = Some o -> data o = length (data_objs h) + j)
    /\ represents mc hc pmc
    /\ NoDup (map snd mc)
    /\ (forall e, In e mc ->
          length (node_objs h) <= snd e < length (node_objs h) + length NN).

Lemma copy_into_copied h hc mc pmc l v :
  copied h hc mc pmc -> read_node h l = Some v ->
  copied h (fst (Store.copy_into (hc, mc) l)) (snd (Store.copy_into (hc, mc) l))
    (Pure.nodeMap_set pmc v).
Proof.
  intros (NN & DD & HN & HD & Hlen & Hdata & Hrep & Hnd & Hrange) Hv.
  destruct (read_node_Some _ _ _ Hv) as (o & d & Ho & Hd & ->).
  unfold Store.copy_into.
  assert (Ho' : node_objs hc !! l = Some o)
    by (rewrite HN; apply lookup_app_l_Some; exact Ho).
  assert (Hd' : data_objs hc !! data o = Some d)
    by (rewrite HD; apply lookup_app_l_Some; exact Hd).
  rewrite Ho', Hd'. cbn [alloc_data alloc_node node_objs data_objs fst snd].
  set (copy := mkNode (id o) (type o) (position o) (length (data_objs hc))).
  set (hc' := mkHeap (node_objs hc ++ [copy]) (data_objs hc ++ [d])).
  assert (Hread : read_node hc' (length (node_objs hc))
                  = Some (mkNode (id o) (type o) (position o) d)).
  { unfold read_node, hc'. cbn [node_objs data_objs].
    rewrite lookup_app_r, Nat.sub_diag by lia. cbn.
    rewrite lookup_app_r, Nat.sub_diag by lia. reflexivity. }
  exists (NN ++ [copy]), (DD ++ [d]). cbn [node_objs data_objs].
  split; [unfold hc'; cbn [node_objs]; rewrite HN, <- app_assoc; reflexivity|].
  split; [unfold hc'; cbn [data_objs]; rewrite HD, <- app_assoc; reflexivity|].
  split; [rewrite !length_app; cbn; lia|].
  split; [|split; [|split]].
  - intros j o' Hj. apply lookup_app_Some in Hj.
    destruct Hj as [Hj|[Hge Hj]]; [apply Hdata; exact Hj|].
    destruct (j - length NN) as [|] eqn:Ej; [|destruct n; discriminate].
    cbn in Hj. injection Hj as <-. unfold copy. cbn [data].
    rewrite HD, length_app. lia.
  - change (id o) with (id (mkNode (id o) (type o) (position o) d)).
    apply represents_set; [|exact Hread].
    apply (represents_grow mc hc hc'); [| |exact Hrep];
      unfold hc'; cbn [node_objs data_objs]; apply prefix_app_r; reflexivity.
  - apply nodeMap_set_refs_NoDup; [exact Hnd|].
    intros H. apply in_map_iff in H. destruct H as (e & He & Hin).
    specialize (Hrange e Hin). rewrite HN, length_app in He. lia.
  - intros e Hin. rewrite length_app. cbn.
    destruct (nodeMap_set_entries _ _ _ _ Hin) as [E|Hin'].
    + rewrite E, HN, length_app. lia.
    + specialize (Hrange e Hin'). lia.
Qed.

Lemma fold_copy_into_copied h nodes vs :
  Forall2 (fun l v => read_node h l = Some v) nodes vs ->
  forall hc mc pmc,
    copied h hc mc pmc ->
    copied h (fst (fold_left Store.copy_into nodes (hc, mc)))
      (snd (fold_left Store.copy_into nodes (hc, mc)))
      (fold_left Pure.nodeMap_set vs pmc).
Proof.
  induction 1 as [|l v nodes vs Hv _ IH]; intros hc mc pmc Hc; [exact Hc|].
  cbn [fold_left].
  pose proof (copy_into_copied h hc mc pmc l v Hc Hv) as Hc'.
  destruct (Store.copy_into (hc, mc) l) as [hc' mc']. apply IH. exact Hc'.
Qed.

Lemma nodeMap_of_copied h nodes vs :
  read_nodes h nodes = Some vs ->
  copied h (fst (Store.nodeMap_of h nodes)) (snd (Store.nodeMap_of h nodes))
    (Pure.nodeMap_of vs).
Proof.
  intros H. apply mapM_Some in H. unfold Store.nodeMap_of, Pure.nodeMap_of.
  apply (fold_copy_into_copied h nodes vs H).
  exists [], []. rewrite !app_nil_r.
  split; [reflexivity|]. split; [reflexivity|]. split; [reflexivity|].
  split; [intros j o Hj; discriminate|].
  split; [constructor|]. split; [constructor|]. intros e [].
Qed.

Lemma copied_owns h hc mc pmc :
  copied h hc mc pmc -> owns mc (length (data_objs h)) (node_objs hc).
Proof.
  intros (NN & DD & HN & HD & Hlen & Hdata & Hrep & Hnd & Hrange).
  assert (Hat : forall i e o, mc !! i = Some e -> node_objs hc !! snd e = Some o ->
            data o = length (data_objs h) + (snd e - length (node_objs h))).
  { intros i e o Hi Ho.
    assert (Hin : In e mc)
      by (apply list_elem_of_In, list_elem_of_lookup; exists i; exact Hi).
    specialize (Hrange e Hin). rewrite HN, lookup_app_r in Ho by lia.
    apply Hdata. exact Ho. }
  intros i e o Hi Ho. split; [rewrite (Hat i e o Hi Ho); lia|].
  intros j e' o' Hj Ho' Heq.
  rewrite (Hat i e o Hi Ho), (Hat j e' o' Hj Ho') in Heq.
  assert (Hin : In e mc)
    by (apply list_elem_of_In, list_elem_of_lookup; exists i; exact Hi).
  assert (Hin' : In e' mc)
    by (apply list_elem_of_In, list_elem_of_lookup; exists j; exact Hj).
  pose proof (Hrange e Hin). pose proof (Hrange e' Hin').
  assert (Hl : snd e = snd e') by lia.
  apply (NoDup_lookup (map snd mc) i j (snd e) Hnd);
    rewrite PureFacts.map_lookup; [rewrite Hi|rewrite Hj, Hl]; reflexivity.
Qed.

Lemma represents_read_nodes m h pm :
  represents m h pm -> read_nodes h (map snd m) = Some pm.
Proof.
  intros H. apply mapM_Some. unfold represents in H.
  induction H as [|e n m' pm' [_ Hr] _ IH]; cbn; constructor; assumption.
Qed.

(** The run on the store and the run on the values of the argument: the
    store only grows, the objects it held keep their contents, and the map
    of references reads as the map of values, pass for pass. *)
Lemma run_refines h nodes edges vs :
  read_nodes h nodes = Some vs ->
  node_objs h `prefix_of` node_objs (current (fst (Store.run h nodes edges)))
  /\ data_objs h `prefix_of` data_objs (current (fst (Store.run h nodes edges)))
  /\ read_nodes (current (fst (Store.run h nodes edges)))
       (map snd (snd (Store.run h nodes edges)))
     = Some (Pure.calculateGraph vs edges)
  /\ changed (fst (Store.run h nodes edges)) = changed (Pure.run vs edges)
  /\ iterations (fst (Store.run h nodes edges))
     = iterations (Pure.run vs edges).
Proof.
  intros Hvs. pose proof (nodeMap_of_copied h nodes vs Hvs) as Hcop.
  unfold Store.run. destruct (Store.nodeMap_of h nodes) as [h0 m].
  cbn [fst snd] in *.
  pose proof (copied_owns h h0 m _ Hcop) as Hown.
  destruct Hcop as (NN & DD & HN & HD & Hlen & Hdata & Hrep & Hnd & Hrange).
  destruct (while_loop_simulates m edges (length (data_objs h)) (node_objs h0)
              Hown (mkLoop h0 true 0) (mkLoop (Pure.nodeMap_of vs) true 0))
    as ([HNr Hrepr] & Hc & Hit & Htake); try reflexivity.
  { split; [reflexivity|exact Hrep]. }
  cbn [current] in Htake. split; [|split; [|split; [|split]]].
  - rewrite HNr, HN. apply prefix_app_r. reflexivity.
  - rewrite HD, take_app_length in Htake. rewrite <- Htake. apply prefix_take.
  - apply represents_read_nodes. exact Hrepr.
  - exact Hc.
  - exact Hit.
Qed.

Lemma read_nodes_grow h h' ls vs :
  node_objs h `prefix_of` node_objs h' ->
  data_objs h `prefix_of` data_objs h' ->
  read_nodes h ls = Some vs -> read_nodes h' ls = Some vs.
Proof.
  intros HN HD H. apply mapM_Some. apply mapM_Some in H.
  eapply Forall2_impl; [exact H|]. intros l v Hr.
  exact (read_node_grow h h' l v HN HD Hr).
Qed.

End StoreFacts.

(** ** What calculateGraph keeps of its argument *)

Module Frame.
Import Pure PureFacts.

(** Everything but [data.value] is the same in [n'] as in [n], and for an
    Input node [data.value] too. *)
Definition kept (n n' : AppNode) : Prop :=
  id n' = id n /\ type n' = type n /\ position n' = position n
  /\ label (data n') = label (data n)
  /\ inputValue (data n') = inputValue (data n)
  /\ operation (data n') = operation (data n)
  /\ onChange (data n') = onChange (data n)
  /\ (type_is n NodeType.INPUT = true -> value (data n') = value (data n)).

Lemma kept_refl n : kept n n.
Proof. unfold kept. repeat split. Qed.

Lemma kept_trans a b c : kept a b -> kept b c -> kept a c.
Proof.
  unfold kept, type_is.
  intros (H1 & H2 & H3 & H4 & H5 & H6 & H7 & H8)
         (G1 & G2 & G3 & G4 & G5 & G6 & G7 & G8).
  rewrite H2 in G8.
  repeat split; try congruence. intros Hin. rewrite G8, H8; auto.
Qed.

Lemma kept_visited edges m n : kept n (visited edges m n).
Proof.
  unfold visited. destruct (type_is n NodeType.INPUT) eqn:E;
    [apply kept_refl|].
  unfold kept. rewrite settle_id, settle_type, settle_position, settle_label,
    settle_inputValue, settle_operation, settle_onChange.
  repeat split. intros H. congruence.
Qed.

Lemma visit_kept edges (m0 m : list AppNode) i :
  Forall2 kept m0 m -> Forall2 kept m0 (fst (visit edges m i)).
Proof.
  intros H. destruct (m !! i) as [n|] eqn:Hi.
  - rewrite (visit_Some _ _ _ _ Hi). cbn [fst].
    destruct (Forall2_lookup_r _ _ _ _ _ H Hi) as (n0 & Hi0 & Hk).
    rewrite <- (list_insert_id m0 i n0 Hi0).
    apply Forall2_insert; [exact H|].
    apply (kept_trans n0 n); [exact Hk|apply kept_visited].
  - rewrite (visit_None _ _ _ Hi). exact H.
Qed.

Lemma visit_from_kept edges (m0 : list AppNode) n : forall i m c,
  Forall2 kept m0 m -> Forall2 kept m0 (fst (visit_from edges n i m c)).
Proof.
  induction n as [|n IH]; intros i m c H; [exact H|].
  cbn [visit_from]. pose proof (visit_kept edges m0 m i H) as H'.
  destruct (visit edges m i) as [m' c']. apply IH. exact H'.
Qed.

Lemma calculateGraph_kept nodes edges :
  Forall2 kept (nodeMap_of nodes) (calculateGraph nodes edges).
Proof.
  apply (run_invariant (Forall2 kept (nodeMap_of nodes))).
  - apply Forall_Forall2_diag, Forall_forall. intros n _. apply kept_refl.
  - intros m H. apply visit_from_kept. exact H.
Qed.

Lemma nodeMap_set_fresh m n :
  ~ In (id n) (map id m) -> nodeMap_set m n = m ++ [n].
Proof.
  induction m as [|n0 m IH]; cbn; intros H; [reflexivity|].
  destruct (String.eqb (id n0) (id n)) eqn:E.
  - apply String.eqb_eq in E. exfalso. apply H. left. exact E.
  - rewrite IH; [reflexivity|]. intros H'. apply H. right. exact H'.
Qed.

Lemma fold_nodeMap_set_fresh nodes : forall m,
  NoDup (map id (m ++ nodes)) -> fold_left nodeMap_set nodes m = m ++ nodes.
Proof.
  induction nodes as [|n nodes IH]; intros m H; cbn.
  - rewrite app_nil_r. reflexivity.
  - assert (Hre : m ++ n :: nodes = (m ++ [n]) ++ nodes)
      by (rewrite <- app_assoc; reflexivity).
    rewrite nodeMap_set_fresh.
    + rewrite IH; [symmetry; exact Hre|]. rewrite <- Hre. exact H.
    + rewrite map_app in H. apply NoDup_app in H. destruct H as (_ & Hdis & _).
      intros Hin. apply (Hdis (id n)); [apply list_elem_of_In; exact Hin|].
      cbn. left.
Qed.

(** With distinct ids the map lists the nodes as the argument does. *)
Lemma nodeMap_of_NoDup nodes : NoDup (map id nodes) -> nodeMap_of nodes = nodes.
Proof. intros H. apply (fold_nodeMap_set_fresh nodes [] H). Qed.

End Frame.

(** C10.  [calculateGraph] called on an array of node objects of the store:
    every object the store held before the call is there after it with the
    same contents, so the nodes of the argument read as before; the array
    returned holds other objects, whose values are those of the evaluation
    on values.  The ids of the result are the ids of the argument; every
    node of the result keeps the type, position, label, inputValue,
    operation and onChange of a node of the argument with the same id, and
    its value too when that node is an Input node; with distinct ids the
    result lists the nodes in the order of the argument. *)
Theorem calculateGraph_rewrites_only_values h nodes edges vs :
  read_nodes h nodes = Some vs ->
  let h' := fst (Store.calculateGraph h nodes edges) in
  let out := snd (Store.calculateGraph h nodes edges) in
  node_objs h `prefix_of` node_objs h'
  /\ data_objs h `prefix_of` data_objs h'
  /\ read_nodes h' nodes = Some vs
  /\ read_nodes h' out = Some (Pure.calculateGraph vs edges)
  /\ (forall k, In k (map id (Pure.calculateGraph vs edges))
                <-> In k (map id vs))
  /\ (forall n', In n' (Pure.calculateGraph vs edges) ->
        exists n, In n vs /\ Frame.kept n n')
  /\ (NoDup (map id vs) ->
        Forall2 Frame.kept vs (Pure.calculateGraph vs edges)).
Proof.
  intros Hvs. cbv zeta.
  destruct (StoreFacts.run_refines h nodes edges vs Hvs)
    as (HN & HD & Hout & _ & _).
  unfold Store.calculateGraph.
  destruct (Store.run h nodes edges) as [s m]. cbn [fst snd] in *.
  split; [exact HN|]. split; [exact HD|].
  split; [exact (StoreFacts.read_nodes_grow h _ nodes vs HN HD Hvs)|].
  split; [exact Hout|].
  pose proof (Frame.calculateGraph_kept vs edges) as Hk.
  split; [|split].
  - intros k. rewrite PureFacts.calculateGraph_ids.
    apply PureFacts.nodeMap_of_ids_In.
  - intros n' Hin. apply list_elem_of_In, list_elem_of_lookup in Hin.
    destruct Hin as [i Hi].
    destruct (Forall2_lookup_r _ _ _ _ _ Hk Hi) as (n & Hi0 & Hkn).
    exists n. split; [|exact Hkn]. apply PureFacts.nodeMap_of_In.
    apply list_elem_of_In, list_elem_of_lookup. exists i. exact Hi0.
  - intros Hnd. rewrite (Frame.nodeMap_of_NoDup vs Hnd) in Hk. exact Hk.
Qed.

Lemma calculateGraph_rewrites_only_values_witness :
  let h := fst (store_of initialNodes) in
  let nodes := snd (store_of initialNodes) in
  let h' := fst (Store.calculateGraph h nodes initialEdges) in
  read_nodes h' nodes = Some initialNodes
  /\ read_nodes h' (snd (Store.calculateGraph h nodes initialEdges))
     = Some (Pure.calculateGraph initialNodes initialEdges).
Proof.
  cbv zeta.
  pose proof (calculateGraph_rewrites_only_values
                (fst (store_of initialNodes)) (snd (store_of initialNodes))
                initialEdges initialNodes eq_refl) as H.
  cbv zeta in H. split; [apply H|apply H].
Defined.

(** ** The edit history *)

Module HistoryFacts.
Import App.

(** *** [slice(-n)] *)

Lemma slice_last_length {A} n (l : list A) : length (slice_last n l) <= n.
Proof. unfold slice_last. rewrite length_drop. lia. Qed.

Lemma slice_last_all {A} n (l : list A) :
  length l <= n -> slice_last n l = l.
Proof.
  intros H. unfold slice_last. replace (length l - n) with 0 by lia.
  reflexivity.
Qed.

Lemma slice_last_snoc {A} n (l : list A) a :
  slice_last n l ++ [a] = slice_last (S n) (l ++ [a]).
Proof.
  unfold slice_last. rewrite length_app. cbn [length].
  replace (length l + 1 - S n) with (length l - n) by lia.
  rewrite drop_app_le by lia. reflexivity.
Qed.

Lemma slice_last_twice {A} n k (l : list A) :
  n <= k -> slice_last n (slice_last k l) = slice_last n l.
Proof.
  intros H. unfold slice_last. rewrite length_drop, drop_drop.
  f_equal. lia.
Qed.

Lemma removelast_snoc_last {A} (l : list A) a :
  last l = Some a -> removelast l ++ [a] = l.
Proof.
  intros H. apply last_Some in H. destruct H as [l' ->].
  rewrite removelast_last. reflexivity.
Qed.

(** *** takeSnapshot *)

Lemma snapshot_update_first h ns es prev :
  last (past prev) = None ->
  snapshot_update h ns es prev
  = mkHistory (slice_last 20 (past prev) ++ [Snapshot.mk ns es]) [].
Proof. intros H. unfold snapshot_update. rewrite H. reflexivity. Qed.

Lemma snapshot_update_differs h ns es prev lst :
  last (past prev) = Some lst ->
  same_serialisation h lst (Snapshot.mk ns es) = false ->
  snapshot_update h ns es prev
  = mkHistory (slice_last 20 (past prev) ++ [Snapshot.mk ns es]) [].
Proof. intros H E. unfold snapshot_update. rewrite H, E. reflexivity. Qed.

Lemma snapshot_update_same h ns es prev lst :
  last (past prev) = Some lst ->
  same_serialisation h lst (Snapshot.mk ns es) = true ->
  snapshot_update h ns es prev = prev.
Proof. intros H E. unfold snapshot_update. rewrite H, E. reflexivity. Qed.

(** When the history changes, it is by a push. *)
Lemma takeSnapshot_pushed st :
  history (takeSnapshot st) <> history st ->
  history (takeSnapshot st)
  = mkHistory (slice_last 20 (past (history st)) ++ [current_snapshot st]) [].
Proof.
  cbn [takeSnapshot history]. unfold snapshot_update. intros Hne.
  destruct (last (past (history st))) as [lst|]; [|reflexivity].
  destruct (same_serialisation _ _ _); [contradiction|reflexivity].
Qed.

(** [===] on serialisations holds of a serialisation and itself. *)
Fixpoint json_eqb_refl (j : json) : json_eqb j j = true.
Proof.
  destruct j as [|b|f|s|items|fields]; cbn.
  - reflexivity.
  - destruct b; reflexivity.
  - apply FloatAxioms.Leibniz.eqb_spec. reflexivity.
  - apply String.eqb_refl.
  - induction items as [|u l IH]; [reflexivity|].
    rewrite (json_eqb_refl u), IH. reflexivity.
  - induction fields as [|[k u] l IH]; [reflexivity|].
    rewrite String.eqb_refl, (json_eqb_refl u), IH. reflexivity.
Qed.

Lemma stringify_nodes_values h ls vs :
  read_nodes h ls = Some vs -> stringify_nodes h ls = JArr (map json_node vs).
Proof.
  intros H. apply mapM_Some in H. unfold stringify_nodes. f_equal.
  induction H as [|l v ls vs Hv _ IH]; [reflexivity|].
  cbn. rewrite Hv, IH. reflexivity.
Qed.

(** Two snapshots that hold the same graph, as values, serialise alike. *)
Lemma same_contents_same_serialisation h a b vs :
  read_nodes h (Snapshot.nodes b) = Some vs ->
  contents h a = contents h b ->
  same_serialisation h a b = true.
Proof.
  unfold contents. intros Hb [= Hn He]. rewrite Hb in Hn.
  unfold same_serialisation.
  rewrite (stringify_nodes_values _ _ _ Hn), (stringify_nodes_values _ _ _ Hb),
    He, !json_eqb_refl.
  reflexivity.
Qed.

(** *** The bound *)

Definition bounded (hist : History) : Prop :=
  length (past hist) + length (future hist) <= 21.

Lemma snapshot_update_bounded h ns es prev :
  bounded prev -> bounded (snapshot_update h ns es prev).
Proof.
  unfold bounded, snapshot_update. intros H.
  assert (Hp : length (slice_last 20 (past prev) ++ [Snapshot.mk ns es])
               + @length Snapshot.t [] <= 21).
  { rewrite length_app. pose proof (slice_last_length 20 (past prev)).
    cbn. lia. }
  destruct (last (past prev)) as [lst|]; [|exact Hp].
  destruct (same_serialisation _ _ _); [exact H|exact Hp].
Qed.

Lemma length_removelast_snoc {A} (l : list A) a :
  last l = Some a -> length (removelast l) = length l - 1.
Proof.
  intros H. apply last_Some in H. destruct H as [l' ->].
  rewrite removelast_last, length_app. cbn. lia.
Qed.

Lemma undo_bounded st : bounded (history st) -> bounded (history (undo st)).
Proof.
  unfold bounded, undo. intros H.
  destruct (length (past (history st)) =? 0)%nat eqn:E; [exact H|].
  apply Nat.eqb_neq in E.
  destruct (last (past (history st))) as [s|] eqn:El; [|exact H].
  cbn. rewrite (length_removelast_snoc _ _ El). lia.
Qed.

Lemma redo_bounded st : bounded (history st) -> bounded (history (redo st)).
Proof.
  unfold bounded, redo. intros H.
  destruct (length (future (history st)) =? 0)%nat; [exact H|].
  destruct (future (history st)) as [|s f] eqn:Ef.
  - rewrite Ef. exact H.
  - cbn in *. rewrite length_app. cbn. lia.
Qed.

Lemma apply_op_bounded st o :
  bounded (history st) -> bounded (history (apply_op st o)).
Proof.
  destruct o; cbn.
  - apply snapshot_update_bounded.
  - apply undo_bounded.
  - apply redo_bounded.
  - intros H. exact H.
Qed.

Lemma run_ops_bounded ops : forall st,
  bounded (history st) -> bounded (history (run_ops ops st)).
Proof.
  induction ops as [|o ops IH]; intros st H; [exact H|].
  cbn. apply IH, apply_op_bounded, H.
Qed.

(** *** Snapshots in a row *)

Lemma snapshots_of_snoc sts st hist :
  snapshots_of (sts ++ [st]) hist
  = snapshot_update (heap st) (nodes st) (edges st) (snapshots_of sts hist).
Proof. unfold snapshots_of. rewrite fold_left_app. reflexivity. Qed.

Lemma steps_differ_snoc sts : forall prev st,
  steps_differ prev (sts ++ [st]) = true ->
  steps_differ prev sts = true
  /\ forall lst, last (prev :: sts) = Some lst ->
       same_serialisation (heap st) (current_snapshot lst)
         (current_snapshot st) = false.
Proof.
  induction sts as [|s sts IH]; intros prev st H; cbn in H.
  - rewrite andb_true_r in H. apply negb_true_iff in H.
    split; [reflexivity|]. intros lst [= <-]. exact H.
  - apply andb_prop in H. destruct H as [H1 H2].
    destruct (IH s st H2) as [H3 H4]. split.
    + cbn. rewrite H1, H3. reflexivity.
    + intros lst Hl. rewrite last_cons_cons in Hl. exact (H4 lst Hl).
Qed.

Lemma snapshots_of_distinct sts :
  all_steps_differ sts = true ->
  past (snapshots_of sts (mkHistory [] []))
  = slice_last 21 (map current_snapshot sts)
  /\ future (snapshots_of sts (mkHistory [] [])) = [].
Proof.
  induction sts as [|st sts IH] using rev_ind; intros H.
  - split; reflexivity.
  - rewrite snapshots_of_snoc, map_app. cbn [map].
    rewrite <- slice_last_snoc.
    destruct sts as [|s0 sts0].
    + cbn. split; reflexivity.
    + cbn [all_steps_differ app] in H.
      destruct (steps_differ_snoc sts0 s0 st H) as [H1 H2].
      destruct (IH H1) as [IHp IHf].
      destruct (last (s0 :: sts0)) as [lst|] eqn:El;
        [|apply last_None in El; discriminate].
      specialize (H2 lst eq_refl).
      assert (Hlast : last (past (snapshots_of (s0 :: sts0) (mkHistory [] [])))
                      = Some (current_snapshot lst)).
      { rewrite IHp. apply last_Some in El. destruct El as [pre ->].
        rewrite map_app. cbn [map].
        rewrite <- slice_last_snoc. apply last_snoc. }
      rewrite (snapshot_update_differs _ _ _ _ _ Hlast H2). cbn [past future].
      split; [|reflexivity].
      rewrite IHp, slice_last_twice by lia. reflexivity.
Qed.

(** *** undo and redo *)

Lemma undo_empty st : past (history st) = [] -> undo st = st.
Proof. intros H. unfold undo. rewrite H. reflexivity. Qed.

Lemma redo_empty st : future (history st) = [] -> redo st = st.
Proof. intros H. unfold redo. rewrite H. reflexivity. Qed.

Lemma undo_snoc st p s :
  past (history st) = p ++ [s] ->
  undo st
  = mkState (heap st) (Snapshot.nodes s) (Snapshot.edges s)
      (mkHistory p (current_snapshot st :: future (history st))).
Proof.
  intros H. unfold undo. rewrite H, length_app, last_snoc, removelast_last.
  cbn. replace (length p + 1 =? 0)%nat with false; [reflexivity|].
  symmetry. apply Nat.eqb_neq. lia.
Qed.

Lemma redo_cons st s f :
  future (history st) = s :: f ->
  redo st
  = mkState (heap st) (Snapshot.nodes s) (Snapshot.edges s)
      (mkHistory (past (history st) ++ [current_snapshot st]) f).
Proof. intros H. unfold redo. rewrite H. reflexivity. Qed.

(** [redo] undoes [undo], and [undo] undoes [redo], on the whole state. *)
Lemma redo_undo st : past (history st) <> [] -> redo (undo st) = st.
Proof.
  intros H. destruct (last (past (history st))) as [s|] eqn:E.
  - apply last_Some in E. destruct E as [p E].
    rewrite (undo_snoc st p s E). unfold redo. cbn.
    destruct st as [h ns es [p0 f0]], s as [sn se]. cbn in *. subst p0.
    reflexivity.
  - apply last_None in E. contradiction.
Qed.

Lemma undo_redo st : future (history st) <> [] -> undo (redo st) = st.
Proof.
  intros H. destruct (future (history st)) as [|s f] eqn:E; [contradiction|].
  rewrite (redo_cons st s f E).
  erewrite undo_snoc by reflexivity.
  destruct st as [h ns es [p0 f0]], s as [sn se]. cbn in *. subst f0.
  reflexivity.
Qed.

End HistoryFacts.

(** ** The history: the properties of the specification *)

Section HistoryProperties.
Import App HistoryFacts.

(** C4, as the code has it.  [takeSnapshot] leaves the store and the live
    graph alone.  When [past] is empty, or its top serialises differently
    from the current graph, the current graph is pushed on the last 20
    entries of [past] and [future] becomes empty.  When the top of [past]
    serialises like the current graph, the history stays as it is, [future]
    included.  A graph that is pushed over a top differs from it by value. *)
Theorem takeSnapshot_pushes_unless_same st :
  let current := current_snapshot st in
  let pushed := mkHistory (slice_last 20 (past (history st)) ++ [current]) [] in
  heap (takeSnapshot st) = heap st
  /\ nodes (takeSnapshot st) = nodes st
  /\ edges (takeSnapshot st) = edges st
  /\ (last (past (history st)) = None -> history (takeSnapshot st) = pushed)
  /\ (forall lst, last (past (history st)) = Some lst ->
        same_serialisation (heap st) lst current = false ->
        history (takeSnapshot st) = pushed)
  /\ (forall lst, last (past (history st)) = Some lst ->
        same_serialisation (heap st) lst current = true ->
        history (takeSnapshot st) = history st)
  /\ (forall lst vs, last (past (history st)) = Some lst ->
        read_nodes (heap st) (nodes st) = Some vs ->
        history (takeSnapshot st) <> history st ->
        contents (heap st) lst <> live st).
Proof.
  cbv zeta. repeat split; cbn [takeSnapshot history].
  - apply snapshot_update_first.
  - apply snapshot_update_differs.
  - apply snapshot_update_same.
  - intros lst vs Hl Hvs Hne Heq. apply Hne.
    apply (snapshot_update_same _ _ _ _ lst Hl).
    apply (same_contents_same_serialisation _ lst (current_snapshot st) vs Hvs).
    exact Heq.
Qed.

Lemma takeSnapshot_pushes_unless_same_witness :
  history (takeSnapshot state_with_future) = history state_with_future.
Proof.
  apply (proj1 (proj2 (proj2 (proj2 (proj2 (proj2
           (takeSnapshot_pushes_unless_same state_with_future))))))
           (Snapshot.mk (nodes initialState) initialEdges));
    reflexivity.
Defined.

(** The state is reached from the empty history: a snapshot, a change, a
    snapshot, a change, [undo], and a change that is not announced to the
    history and gives the graph of the first snapshot again. *)
Example state_with_future_reached :
  run_ops
    [ op_takeSnapshot;
      op_set_graph (heap initialState) (nodes initialState) (tl initialEdges);
      op_takeSnapshot;
      op_set_graph (heap initialState) (nodes initialState) [];
      op_undo;
      op_set_graph (heap initialState) (nodes initialState) initialEdges ]
    initialState
  = state_with_future.
Proof. vm_compute. reflexivity. Qed.

(** There [takeSnapshot] pushes nothing and does not clear [future]. *)
Lemma takeSnapshot_keeps_future :
  past (history (takeSnapshot state_with_future))
  = past (history state_with_future)
  /\ future (history (takeSnapshot state_with_future)) <> [].
Proof. vm_compute. split; [reflexivity|discriminate]. Qed.

(** Whatever operations are run from an empty history, [past] never holds
    more than 21 entries.  A push keeps the last 20 entries of [past] and
    appends the new one.  After 25 snapshots in a row, each of a graph that
    the test of [takeSnapshot] tells from the one before, [past] holds the
    last 21 of them: the first 4 are gone. *)
Lemma history_bound :
  (forall ops st, history st = mkHistory [] [] ->
     length (past (history (run_ops ops st))) <= 21)
  /\ (forall st, history (takeSnapshot st) <> history st ->
        past (history (takeSnapshot st))
        = slice_last 20 (past (history st)) ++ [current_snapshot st])
  /\ (forall sts, all_steps_differ sts = true -> length sts = 25 ->
        past (snapshots_of sts (mkHistory [] []))
        = drop 4 (map current_snapshot sts)
        /\ length (past (snapshots_of sts (mkHistory [] []))) = 21).
Proof.
  split; [|split].
  - intros ops st H.
    assert (Hb : bounded (history (run_ops ops st))).
    { apply run_ops_bounded. rewrite H. unfold bounded. cbn. lia. }
    unfold bounded in Hb. lia.
  - intros st Hne. rewrite (takeSnapshot_pushed st Hne). reflexivity.
  - intros sts Hd Hlen.
    destruct (snapshots_of_distinct sts Hd) as [Hp _].
    assert (Hs : slice_last 21 (map current_snapshot sts)
                 = drop 4 (map current_snapshot sts)).
    { unfold slice_last. rewrite length_map, Hlen. reflexivity. }
    rewrite Hp, Hs. split; [reflexivity|].
    rewrite length_drop, length_map, Hlen. reflexivity.
Qed.

(** What [undo] and [redo] do to references.  After a snapshot of the live
    graph was pushed and the live graph was replaced, [undo] puts back the
    arrays of the snapshot and [future] holds the replaced graph; [redo]
    then gives the state before the [undo].  The graph that [undo] puts
    back has the values it had when the snapshot was taken provided the
    store still holds its node objects unchanged. *)
Lemma undo_redo_after_snapshot st h1 ns1 es1 :
  history (takeSnapshot st) <> history st ->
  let st1 := set_graph h1 ns1 es1 (takeSnapshot st) in
  nodes (undo st1) = nodes st
  /\ edges (undo st1) = edges st
  /\ future (history (undo st1)) = [Snapshot.mk ns1 es1]
  /\ redo (undo st1) = st1
  /\ future (history (redo (undo st1))) = []
  /\ last (past (history (redo (undo st1)))) = Some (current_snapshot st)
  /\ (read_nodes h1 (nodes st) = read_nodes (heap st) (nodes st) ->
      live (undo st1) = live st).
Proof.
  intros Hne. cbv zeta.
  pose proof (takeSnapshot_pushed st Hne) as Hpush.
  set (st1 := set_graph h1 ns1 es1 (takeSnapshot st)).
  assert (Hh1 : history st1
                = mkHistory (slice_last 20 (past (history st))
                             ++ [current_snapshot st]) [])
    by exact Hpush.
  assert (Hp1 : past (history st1)
                = slice_last 20 (past (history st)) ++ [current_snapshot st])
    by (rewrite Hh1; reflexivity).
  assert (Hr : redo (undo st1) = st1).
  { apply redo_undo. rewrite Hp1. intros E. apply app_eq_nil in E.
    destruct E as [_ E]. discriminate. }
  rewrite Hr, (undo_snoc st1 _ _ Hp1), Hh1. cbn.
  do 5 (split; [reflexivity|]). split; [apply last_snoc|].
  intros Hread. unfold live. cbn [heap nodes edges]. rewrite Hread.
  reflexivity.
Qed.

(** C3, on the initial graph: [updateNodeValue "1" 99] takes a snapshot and
    then updates the node object in place.  The snapshot on top of [past]
    held the initial graph when it was taken; read after the update, it
    holds the edited graph. *)
Theorem archived_snapshot_follows_the_live_graph :
  let st1 := updateNodeValue "1" 99 initialState in
  past (history st1) = [current_snapshot initialState]
  /\ contents (heap initialState) (current_snapshot initialState)
     = (Some initialNodes, initialEdges)
  /\ contents (heap st1) (current_snapshot initialState)
     = (Some editedNodes, initialEdges)
  /\ live st1 = (Some editedNodes, initialEdges).
Proof. vm_compute. repeat split. Qed.

(** C9, on the initial graph: after [updateNodeValue "1" 99], [undo] puts
    back the arrays of the snapshot, [future] holds the edited graph and
    [redo] gives back the state before the [undo]; but the live graph after
    [undo] has the values of the edited graph, not those of the initial
    graph. *)
Theorem undo_after_value_edit_keeps_the_edit :
  let st1 := updateNodeValue "1" 99 initialState in
  live initialState = (Some initialNodes, initialEdges)
  /\ nodes (undo st1) = nodes initialState
  /\ live (undo st1) = (Some editedNodes, initialEdges)
  /\ future (history (undo st1)) = [current_snapshot st1]
  /\ redo (undo st1) = st1
  /\ undo initialState = initialState
  /\ redo initialState = initialState.
Proof. vm_compute. repeat split. Qed.

(** With [deleteNode], which builds new arrays and updates no object,
    [undo] gives back the initial graph. *)
Example undo_after_deleteNode :
  live (undo (deleteNode "4" initialState)) = live initialState.
Proof. vm_compute. reflexivity. Qed.

End HistoryProperties.

(** * Further properties of the code *)

(** ** calculateGraph: one node per id, re-evaluation, edges that do not
    count *)

Module EvaluatorMore.
Import Pure PureFacts Resolution Convergence.

Lemma nodeMap_set_ids_NoDup m n :
  NoDup (map id m) -> NoDup (map id (nodeMap_set m n)).
Proof.
  induction m as [|n0 m IH]; cbn; intros H.
  - apply NoDup_cons. split; [intros Hin; inversion Hin|constructor].
  - apply NoDup_cons in H. destruct H as [Hn0 H].
    destruct (String.eqb (id n0) (id n)) eqn:E; cbn.
    + apply String.eqb_eq in E. rewrite <- E.
      apply NoDup_cons. split; assumption.
    + apply String.eqb_neq in E. apply NoDup_cons. split; [|exact (IH H)].
      intros Hin. apply list_elem_of_In, nodeMap_set_ids_In in Hin.
      destruct Hin as [Hin|Hin]; [contradiction|].
      apply Hn0, list_elem_of_In, Hin.
Qed.

Lemma fold_nodeMap_set_ids_NoDup nodes : forall m,
  NoDup (map id m) -> NoDup (map id (fold_left nodeMap_set nodes m)).
Proof.
  induction nodes as [|n nodes IH]; intros m H; [exact H|].
  cbn. apply IH, nodeMap_set_ids_NoDup, H.
Qed.

Lemma nodeMap_of_ids_NoDup nodes : NoDup (map id (nodeMap_of nodes)).
Proof. apply fold_nodeMap_set_ids_NoDup. constructor. Qed.

Lemma calculateGraph_ids_NoDup nodes edges :
  NoDup (map id (calculateGraph nodes edges)).
Proof. rewrite calculateGraph_ids. apply nodeMap_of_ids_NoDup. Qed.


Lemma find_app_first {A} (p : A -> bool) (l l' : list A) :
  find p (l ++ l')
  = match find p l with Some a => Some a | None => find p l' end.
Proof.
  induction l as [|a l IH]; cbn; [reflexivity|].
  destruct (p a); [reflexivity|exact IH].
Qed.


Lemma nodeMap_get_In (m : list AppNode) n :
  NoDup (map id m) -> In n m -> nodeMap_get m (id n) = Some n.
Proof.
  unfold nodeMap_get. induction m as [|n0 m IH]; cbn; intros Hnd Hin;
    [destruct Hin|].
  apply NoDup_cons in Hnd. destruct Hnd as [Hn0 Hnd].
  destruct Hin as [->|Hin]; [rewrite String.eqb_refl; reflexivity|].
  destruct (String.eqb (id n0) (id n)) eqn:E; [|exact (IH Hnd Hin)].
  apply String.eqb_eq in E. exfalso. apply Hn0. rewrite E.
  apply list_elem_of_In, in_map, Hin.
Qed.


(** *** Re-evaluation *)

Lemma nodeMap_of_result nodes edges :
  nodeMap_of (calculateGraph nodes edges) = calculateGraph nodes edges.
Proof. apply Frame.nodeMap_of_NoDup, calculateGraph_ids_NoDup. Qed.

Lemma settled_result_reevaluated nodes edges :
  FixedAll edges (calculateGraph nodes edges) ->
  calculateGraph (calculateGraph nodes edges) edges
  = calculateGraph nodes edges.
Proof.
  intros Hfix.
  apply (run_invariant (fun m => m = calculateGraph nodes edges)).
  - apply nodeMap_of_result.
  - intros m ->. apply FixedAll_pass. exact Hfix.
Qed.

(** X2.  When the loop ended because a pass changed nothing, evaluating the
    result again gives the result, in one pass. *)
Theorem stable_result_reevaluated_in_one_pass nodes edges :
  changed (run nodes edges) = false ->
  calculateGraph (calculateGraph nodes edges) edges
  = calculateGraph nodes edges
  /\ iterations (run (calculateGraph nodes edges) edges) = 1
  /\ changed (run (calculateGraph nodes edges) edges) = false.
Proof.
  intros Hc. pose proof (run_unchanged_stable nodes edges Hc) as Hst.
  assert (Hrun : run (calculateGraph nodes edges) edges
                 = mkLoop (calculateGraph nodes edges) false 1).
  { unfold run. rewrite nodeMap_of_result, while_loop_step.
    cbn [loop_cond changed iterations andb]. unfold loop_body. cbn [current].
    rewrite Hst, while_loop_step. reflexivity. }
  unfold calculateGraph at 1. rewrite Hrun. repeat split.
Qed.

Lemma stable_result_reevaluated_in_one_pass_witness :
  calculateGraph (calculateGraph initialNodes initialEdges) initialEdges
  = calculateGraph initialNodes initialEdges
  /\ iterations (run (calculateGraph initialNodes initialEdges) initialEdges)
     = 1
  /\ changed (run (calculateGraph initialNodes initialEdges) initialEdges)
     = false.
Proof.
  apply (stable_result_reevaluated_in_one_pass initialNodes initialEdges).
  reflexivity.
Defined.

(** X3.  On an acyclic graph that the ceiling does not cut short, evaluating the
    result again gives the result, NaN values included. *)
Theorem acyclic_result_reevaluated nodes edges (rank : string -> nat) d :
  (forall e, In e edges -> rank (source e) < rank (target e)) ->
  (forall n, In n nodes -> rank (id n) <= d) ->
  d + 1 <= MAX_ITERATIONS ->
  calculateGraph (calculateGraph nodes edges) edges
  = calculateGraph nodes edges.
Proof.
  intros Hrank Hbound Hd. apply settled_result_reevaluated.
  apply (acyclic_result_is_settled nodes edges rank d Hrank Hbound Hd).
Qed.

(** The ranks of the graph [4 / 0 + 3]. *)
Definition taint_rank (k : string) : nat :=
  if String.eqb k "d" then 1 else if String.eqb k "s" then 2 else 0.

Lemma acyclic_result_reevaluated_witness :
  calculateGraph (calculateGraph taint_nodes taint_edges) taint_edges
  = calculateGraph taint_nodes taint_edges.
Proof.
  apply (acyclic_result_reevaluated taint_nodes taint_edges taint_rank 2).
  - intros e [<-|[<-|[<-|[<-|[]]]]]; vm_compute; lia.
  - intros n [<-|[<-|[<-|[<-|[<-|[]]]]]]; vm_compute; lia.
  - vm_compute. lia.
Defined.

(** A cycle that runs into the ceiling is not re-evaluated to itself. *)
Example cycle_result_not_reevaluated :
  map (fun n => value (data n))
    (calculateGraph (calculateGraph cycle_nodes cycle_edges) cycle_edges)
  = [None; Some 100%float; Some 100%float].
Proof. vm_compute. reflexivity. Qed.

(** *** Edges that do not count *)

Lemma while_loop_ext {M} (p1 p2 : M -> M * bool) :
  (forall m, p1 m = p2 m) ->
  forall s, while_loop p1 s = while_loop p2 s.
Proof.
  intros Hext s. remember (passes_left s) as n eqn:Hn. revert s Hn.
  induction n as [n IH] using lt_wf_ind. intros s Hn.
  rewrite (while_loop_step p1 s), (while_loop_step p2 s).
  destruct (loop_cond s) eqn:E; [|reflexivity].
  assert (Hb : loop_body p1 s = loop_body p2 s)
    by (unfold loop_body; rewrite Hext; reflexivity).
  rewrite <- Hb.
  apply (IH (passes_left (loop_body p1 s))); [|reflexivity].
  subst n. apply loop_body_decreases. exact E.
Qed.

Lemma visit_from_ext edges1 edges2
    (Hnew : forall get node, newValue get edges1 node = newValue get edges2 node)
    n : forall i m c,
  visit_from edges1 n i m c = visit_from edges2 n i m c.
Proof.
  induction n as [|n IH]; intros i m c; [reflexivity|].
  cbn [visit_from].
  assert (Hv : visit edges1 m i = visit edges2 m i).
  { unfold visit. destruct (m !! i) as [node|]; [|reflexivity].
    rewrite Hnew. reflexivity. }
  rewrite Hv. destruct (visit edges2 m i). apply IH.
Qed.

Lemma calculateGraph_ext nodes edges1 edges2 :
  (forall get node, newValue get edges1 node = newValue get edges2 node) ->
  calculateGraph nodes edges1 = calculateGraph nodes edges2.
Proof.
  intros Hnew. unfold calculateGraph, run. f_equal.
  apply while_loop_ext. intros m. apply visit_from_ext. exact Hnew.
Qed.

(** The three handle ids that [calculateGraph] asks for. *)
Definition asked_handles : list Handle :=
  [handle "a"; handle "b"; null_handle].

Lemma newValue_find_ext get edges1 edges2 node :
  (forall h, In h asked_handles ->
     find (edge_matches (id node) h) edges1
     = find (edge_matches (id node) h) edges2) ->
  newValue get edges1 node = newValue get edges2 node.
Proof.
  intros H. unfold newValue, getSourceValue.
  rewrite (H (handle "a")), (H (handle "b")), (H null_handle);
    [reflexivity| | |]; cbn; auto.
Qed.

(** X4.  Edges added at the end of [edges] do not change the result when every
    port they reach already has an edge: the first edge found is the one
    that counts. *)
Theorem edges_into_fed_ports_are_ignored nodes edges extra :
  (forall e' h, In e' extra -> In h asked_handles ->
     edge_matches (target e') h e' = true ->
     exists e, In e edges /\ edge_matches (target e') h e = true) ->
  calculateGraph nodes (edges ++ extra) = calculateGraph nodes edges.
Proof.
  intros Hfed. apply calculateGraph_ext. intros get node.
  apply newValue_find_ext. intros h Hh. rewrite find_app_first.
  destruct (find (edge_matches (id node) h) edges) as [e|] eqn:E;
    [reflexivity|].
  destruct (find (edge_matches (id node) h) extra) as [e'|] eqn:E';
    [|reflexivity].
  exfalso. apply find_some in E'. destruct E' as [Hin Hm].
  assert (Ht : target e' = id node).
  { unfold edge_matches in Hm. apply andb_prop in Hm.
    apply String.eqb_eq, Hm. }
  rewrite <- Ht in Hm. destruct (Hfed e' h Hin Hh Hm) as (e & Hine & Hme).
  rewrite Ht in Hme.
  pose proof (find_none _ _ E e Hine) as Hno. congruence.
Qed.

Lemma edges_into_fed_ports_are_ignored_witness :
  calculateGraph initialNodes
    (initialEdges ++ [edge_to "again" "2" "3" (handle "a")])
  = calculateGraph initialNodes initialEdges.
Proof.
  apply (edges_into_fed_ports_are_ignored initialNodes initialEdges
           [edge_to "again" "2" "3" (handle "a")]).
  intros e' h [<-|[]] [<-|[<-|[<-|[]]]] Hm.
  - exists (edge_to "e1-3a" "1" "3" (handle "a")).
    split; [left; reflexivity|reflexivity].
  - vm_compute in Hm. discriminate.
  - exists (edge_to "e1-3a" "1" "3" (handle "a")).
    split; [left; reflexivity|reflexivity].
Defined.

(** *** Nodes for which nothing is computed *)

(** X5.  A node of the result that is neither an Input, an operator nor an
    Output node, and an operator node without operation, have an undefined
    value. *)
Theorem node_without_computation_is_undefined nodes edges n :
  In n (calculateGraph nodes edges) ->
  type_is n NodeType.INPUT = false ->
  (type_is n NodeType.MATH = false /\ type_is n NodeType.OUTPUT = false)
  \/ (type_is n NodeType.MATH = true /\ operation (data n) = None) ->
  value (data n) = None.
Proof.
  intros Hin Hty Hcase.
  destruct (run_last_pass nodes edges) as (m & Hres & _). rewrite Hres in Hin.
  pose (P := fun x : AppNode =>
    type_is x NodeType.INPUT = false ->
    (type_is x NodeType.MATH = false /\ type_is x NodeType.OUTPUT = false)
    \/ (type_is x NodeType.MATH = true /\ operation (data x) = None) ->
    value (data x) = None).
  apply (pass_establishes P edges m); [|exact Hin|exact Hty|exact Hcase].
  intros m' node _ _. unfold P, visited.
  destruct (type_is node NodeType.INPUT) eqn:E; [congruence|].
  rewrite !type_is_settle, settle_operation. intros _ Hc.
  assert (Hnv : newValue (nodeMap_get m') edges node = None).
  { unfold newValue. destruct Hc as [[Hm Ho]|[Hm Hop]].
    - rewrite Hm, Ho. reflexivity.
    - rewrite Hm, Hop.
      destruct (getSourceValue _ _ _ (handle "a")); [|reflexivity].
      destruct (getSourceValue _ _ _ (handle "b")); reflexivity. }
  rewrite Hnv. apply settle_None.
Qed.

(** An operator node whose operation was never chosen. *)
Definition unset_math : list AppNode :=
  [ input_node "1" 0 0 1; input_node "2" 0 0 2;
    mkNode "3" (Some NodeType.MATH) (mkXY 0 0)
      (mkNodeData None (Some 9%float) None None None) ].

Lemma node_without_computation_is_undefined_witness :
  In (mkNode "3" (Some NodeType.MATH) (mkXY 0 0)
        (mkNodeData None None None None None))
     (calculateGraph unset_math initialEdges)
  /\ value (data (mkNode "3" (Some NodeType.MATH) (mkXY 0 0)
                    (mkNodeData None None None None None))) = None.
Proof.
  assert (Hin : In (mkNode "3" (Some NodeType.MATH) (mkXY 0 0)
                      (mkNodeData None None None None None))
                  (calculateGraph unset_math initialEdges))
    by (vm_compute; right; right; left; reflexivity).
  split; [exact Hin|].
  apply (node_without_computation_is_undefined unset_math initialEdges _ Hin).
  - reflexivity.
  - right. split; reflexivity.
Defined.

(** *** The result and the equations of the nodes *)

Lemma visit_from_flag_false_flags edges n : forall i (m : list AppNode) c,
  snd (visit_from edges n i m c) = false ->
  forall j x, i <= j < i + n -> m !! j = Some x -> flags edges m x = false.
Proof.
  induction n as [|n IH]; intros i m c H j x Hj Hx; [lia|].
  cbn [visit_from] in H. destruct (visit edges m i) as [m' c'] eqn:E.
  destruct (visit_from_flag_false _ _ _ _ _ H) as [_ Hc].
  apply orb_false_elim in Hc. destruct Hc as [-> ->].
  assert (Hm : m' = m).
  { change m' with (fst (m', false)). rewrite <- E.
    apply visit_flag_false. rewrite E. reflexivity. }
  subst m'. destruct (decide (j = i)) as [->|Hne].
  - rewrite (visit_Some _ _ _ _ Hx) in E. injection E as _ E. exact E.
  - apply (IH (S i) m false H j x); [lia|exact Hx].
Qed.

(** X6.  When the loop ended because a pass changed nothing, every node of the
    result that is not an Input node holds a value [===] to the one its
    equation gives on the result. *)
Theorem stable_result_satisfies_equations nodes edges n :
  changed (run nodes edges) = false ->
  In n (calculateGraph nodes edges) ->
  type_is n NodeType.INPUT = false ->
  strict_neq (value (data n))
    (newValue (nodeMap_get (calculateGraph nodes edges)) edges n) = false.
Proof.
  intros Hc Hin Hty. pose proof (run_unchanged_stable nodes edges Hc) as Hst.
  apply list_elem_of_In, list_elem_of_lookup in Hin. destruct Hin as [i Hi].
  assert (Hf : flags edges (calculateGraph nodes edges) n = false).
  { apply (visit_from_flag_false_flags edges
             (length (calculateGraph nodes edges)) 0
             (calculateGraph nodes edges) false) with (j := i);
      [|apply lookup_lt_Some in Hi; lia|exact Hi].
    change (snd (pass edges (calculateGraph nodes edges)) = false).
    rewrite Hst. reflexivity. }
  unfold flags in Hf. rewrite Hty in Hf. exact Hf.
Qed.

Lemma stable_result_satisfies_equations_witness :
  strict_neq (Some 15%float)
    (newValue (nodeMap_get (calculateGraph initialNodes initialEdges))
       initialEdges (output_node "4" 600 125 (Some 15%float))) = false.
Proof.
  apply (stable_result_satisfies_equations initialNodes initialEdges
           (output_node "4" 600 125 (Some 15%float))).
  - reflexivity.
  - vm_compute. right; right; right; left. reflexivity.
  - reflexivity.
Defined.

(** X7.  On an acyclic graph that the ceiling does not cut short, every node of
    the result that is not an Input node holds the value its equation gives
    on the result (NaN included), or a value [===] to it. *)
Theorem acyclic_result_satisfies_equations nodes edges (rank : string -> nat)
    d n :
  (forall e, In e edges -> rank (source e) < rank (target e)) ->
  (forall x, In x nodes -> rank (id x) <= d) ->
  d + 1 <= MAX_ITERATIONS ->
  In n (calculateGraph nodes edges) ->
  type_is n NodeType.INPUT = false ->
  value (data n) = newValue (nodeMap_get (calculateGraph nodes edges)) edges n
  \/ strict_neq (value (data n))
       (newValue (nodeMap_get (calculateGraph nodes edges)) edges n) = false.
Proof.
  intros Hrank Hbound Hd Hin Hty.
  apply list_elem_of_In, list_elem_of_lookup in Hin. destruct Hin as [i Hi].
  pose proof (acyclic_result_is_settled nodes edges rank d Hrank Hbound Hd
                i n Hi) as Hfix.
  unfold visited in Hfix. rewrite Hty in Hfix.
  rewrite <- Hfix at 1 3. apply settle_value_cases.
Qed.

Lemma acyclic_result_satisfies_equations_witness :
  Some nan
  = newValue (nodeMap_get (calculateGraph taint_nodes taint_edges))
      taint_edges (mkNode "s" (Some NodeType.MATH) (mkXY 400 100)
                     (mkNodeData None (Some nan) None
                        (Some MathOperation.add) None))
  \/ strict_neq (Some nan)
       (newValue (nodeMap_get (calculateGraph taint_nodes taint_edges))
          taint_edges (mkNode "s" (Some NodeType.MATH) (mkXY 400 100)
                         (mkNodeData None (Some nan) None
                            (Some MathOperation.add) None))) = false.
Proof.
  apply (acyclic_result_satisfies_equations taint_nodes taint_edges
           taint_rank 2
           (mkNode "s" (Some NodeType.MATH) (mkXY 400 100)
              (mkNodeData None (Some nan) None (Some MathOperation.add) None))).
  - intros e [<-|[<-|[<-|[<-|[]]]]]; vm_compute; lia.
  - intros x [<-|[<-|[<-|[<-|[<-|[]]]]]]; vm_compute; lia.
  - vm_compute. lia.
  - vm_compute. do 4 right. left. reflexivity.
  - reflexivity.
Defined.

(** *** Nodes fed by Input nodes *)

Lemma kept_input_eq (n n' : AppNode) :
  Frame.kept n n' -> type_is n NodeType.INPUT = true -> n' = n.
Proof.
  intros (H1 & H2 & H3 & H4 & H5 & H6 & H7 & H8) Hin.
  specialize (H8 Hin).
  destruct n as [i t p [l v iv o c]], n' as [i' t' p' [l' v' iv' o' c']].
  cbn in *. congruence.
Qed.

Lemma kept_get_l (m0 m : list AppNode) k s :
  Forall2 Frame.kept m0 m -> nodeMap_get m k = Some s ->
  exists s0, nodeMap_get m0 k = Some s0 /\ Frame.kept s0 s.
Proof.
  unfold nodeMap_get. induction 1 as [|n0 n m0' m' Hk _ IH]; cbn;
    [discriminate|].
  destruct Hk as (Hid & Hrest). rewrite <- Hid.
  destruct (String.eqb (id n) k); [|exact IH].
  intros [= <-]. exists n0. split; [reflexivity|]. split; assumption.
Qed.

Lemma kept_get_r (m0 m : list AppNode) k s0 :
  Forall2 Frame.kept m0 m -> nodeMap_get m0 k = Some s0 ->
  exists s, nodeMap_get m k = Some s /\ Frame.kept s0 s.
Proof.
  unfold nodeMap_get. induction 1 as [|n0 n m0' m' Hk _ IH]; cbn;
    [discriminate|].
  destruct Hk as (Hid & Hrest). rewrite Hid.
  destruct (String.eqb (id n0) k); [|exact IH].
  intros [= <-]. exists n. split; [reflexivity|]. split; assumption.
Qed.

(** An Input node found under a key in one map of a run is found, the same,
    in every map of the run. *)
Lemma input_get_stable (m0 m m' : list AppNode) k s :
  Forall2 Frame.kept m0 m -> Forall2 Frame.kept m0 m' ->
  nodeMap_get m k = Some s -> type_is s NodeType.INPUT = true ->
  nodeMap_get m' k = Some s.
Proof.
  intros Hm Hm' Hget Hin.
  destruct (kept_get_l m0 m k s Hm Hget) as (s0 & Hget0 & Hk).
  assert (Hin0 : type_is s0 NodeType.INPUT = true).
  { unfold type_is in *. destruct Hk as (_ & Ht & _). rewrite <- Ht.
    exact Hin. }
  destruct (kept_get_r m0 m' k s0 Hm' Hget0) as (s' & Hget' & Hk').
  rewrite Hget'. f_equal.
  rewrite (kept_input_eq s0 s' Hk' Hin0), (kept_input_eq s0 s Hk Hin0).
  reflexivity.
Qed.

Lemma visit_from_establishes_kept (P : AppNode -> Prop) edges
    (m0 : list AppNode)
    (Hvisit : forall m node,
       Forall2 Frame.kept m0 m -> P (visited edges m node)) n :
  forall i (m : list AppNode) c j node,
    Forall2 Frame.kept m0 m ->
    i <= j < i + n ->
    fst (visit_from edges n i m c) !! j = Some node -> P node.
Proof.
  induction n as [|n IH]; intros i m c j node Hk Hj Hlook; [lia|].
  cbn [visit_from] in Hlook.
  pose proof (Frame.visit_kept edges m0 m i Hk) as Hk'.
  destruct (visit edges m i) as [m' c'] eqn:E.
  assert (Hm' : m' = fst (visit edges m i)) by (rewrite E; reflexivity).
  destruct (decide (j = i)) as [->|Hne].
  - rewrite visit_from_lookup_before in Hlook by lia.
    subst m'. destruct (m !! i) as [node0|] eqn:Hi.
    + rewrite (visit_lookup_eq _ _ _ _ Hi) in Hlook.
      injection Hlook as <-. apply Hvisit. exact Hk.
    + rewrite (visit_None _ _ _ Hi) in Hlook. cbn in Hlook. congruence.
  - apply (IH (S i) m' (c || c') j node); [exact Hk'|lia|exact Hlook].
Qed.

Lemma run_last_pass_kept nodes edges :
  exists m,
    calculateGraph nodes edges = fst (pass edges m)
    /\ Forall2 Frame.kept (nodeMap_of nodes) m.
Proof.
  destruct (run_passes nodes edges) as (k & Hk & [Hk1 _] & _).
  unfold calculateGraph. rewrite Hk. destruct k as [|k]; [lia|].
  rewrite Nat.iter_succ, loop_body_current.
  eexists. split; [reflexivity|]. clear.
  induction k as [|k IH].
  - apply Forall_Forall2_diag, Forall_forall. intros n _. apply Frame.kept_refl.
  - rewrite Nat.iter_succ, loop_body_current.
    apply Frame.visit_from_kept. exact IH.
Qed.

(** X8.  Whatever the rest of the graph does (cycles, the ceiling), a node fed
    by Input nodes follows them.  An Output node whose edge starts at an
    Input node holds that node's [inputValue], or a value [===] to it; an
    operator node both of whose ports start at Input nodes with numbers [a]
    and [b] holds the result of its operation on [a] and [b], or a value
    [===] to it. *)
Theorem nodes_fed_by_inputs_follow_them nodes edges n :
  In n (calculateGraph nodes edges) ->
  (type_is n NodeType.OUTPUT = true ->
   forall e s,
     find (edge_matches (id n) null_handle) edges = Some e ->
     nodeMap_get (calculateGraph nodes edges) (source e) = Some s ->
     type_is s NodeType.INPUT = true ->
     value (data n) = inputValue (data s)
     \/ strict_neq (value (data n)) (inputValue (data s)) = false)
  /\ (type_is n NodeType.MATH = true ->
      forall ea sa eb sb a b,
        find (edge_matches (id n) (handle "a")) edges = Some ea ->
        nodeMap_get (calculateGraph nodes edges) (source ea) = Some sa ->
        type_is sa NodeType.INPUT = true ->
        inputValue (data sa) = Some a ->
        find (edge_matches (id n) (handle "b")) edges = Some eb ->
        nodeMap_get (calculateGraph nodes edges) (source eb) = Some sb ->
        type_is sb NodeType.INPUT = true ->
        inputValue (data sb) = Some b ->
        value (data n) = apply_operation (operation (data n)) a b
        \/ strict_neq (value (data n))
             (apply_operation (operation (data n)) a b) = false).
Proof.
  intros Hin.
  pose proof (Frame.calculateGraph_kept nodes edges) as Hres.
  destruct (run_last_pass_kept nodes edges) as (m & Hlast & Hm).
  assert (Hstable : forall m' k s,
            Forall2 Frame.kept (nodeMap_of nodes) m' ->
            nodeMap_get (calculateGraph nodes edges) k = Some s ->
            type_is s NodeType.INPUT = true ->
            nodeMap_get m' k = Some s).
  { intros m' k s Hm' Hget Hs.
    exact (input_get_stable _ _ m' k s Hres Hm' Hget Hs). }
  pose (P := fun x : AppNode =>
    (type_is x NodeType.OUTPUT = true ->
     forall e s,
       find (edge_matches (id x) null_handle) edges = Some e ->
       nodeMap_get (calculateGraph nodes edges) (source e) = Some s ->
       type_is s NodeType.INPUT = true ->
       value (data x) = inputValue (data s)
       \/ strict_neq (value (data x)) (inputValue (data s)) = false)
    /\ (type_is x NodeType.MATH = true ->
        forall ea sa eb sb a b,
          find (edge_matches (id x) (handle "a")) edges = Some ea ->
          nodeMap_get (calculateGraph nodes edges) (source ea) = Some sa ->
          type_is sa NodeType.INPUT = true ->
          inputValue (data sa) = Some a ->
          find (edge_matches (id x) (handle "b")) edges = Some eb ->
          nodeMap_get (calculateGraph nodes edges) (source eb) = Some sb ->
          type_is sb NodeType.INPUT = true ->
          inputValue (data sb) = Some b ->
          value (data x) = apply_operation (operation (data x)) a b
          \/ strict_neq (value (data x))
               (apply_operation (operation (data x)) a b) = false)).
  change (P n). rewrite Hlast in Hin.
  apply list_elem_of_In, list_elem_of_lookup in Hin. destruct Hin as [j Hj].
  unfold pass in Hj.
  apply (visit_from_establishes_kept P edges (nodeMap_of nodes)) with
    (n := length m) (i := 0) (m := m) (c := false) (j := j);
    [|exact Hm| |exact Hj].
  2: { apply lookup_lt_Some in Hj. rewrite visit_from_length in Hj. lia. }
  intros m' node Hm'. unfold P, visited.
  destruct (type_is node NodeType.INPUT) eqn:Ein.
  - split; intros Ht; pose proof (type_is_exclusive _ _ _ Ein Ht);
      discriminate.
  - rewrite !type_is_settle, settle_id, settle_operation. split.
    + intros Ho e s He Hget Hs.
      assert (Hnv : newValue (nodeMap_get m') edges node
                    = inputValue (data s)).
      { unfold newValue.
        rewrite (type_is_other node NodeType.OUTPUT NodeType.MATH Ho)
          by discriminate.
        rewrite Ho. unfold getSourceValue.
        rewrite He, (Hstable m' _ s Hm' Hget Hs), Hs. reflexivity. }
      rewrite Hnv. apply settle_value_cases.
    + intros Hmath ea sa eb sb a b Hea Hga Hsa Ha Heb Hgb Hsb Hb.
      assert (Hnv : newValue (nodeMap_get m') edges node
                    = apply_operation (operation (data node)) a b).
      { unfold newValue. rewrite Hmath. unfold getSourceValue.
        rewrite Hea, (Hstable m' _ sa Hm' Hga Hsa), Hsa, Ha.
        rewrite Heb, (Hstable m' _ sb Hm' Hgb Hsb), Hsb, Hb. reflexivity. }
      rewrite Hnv. apply settle_value_cases.
Qed.

(** In the cycle [x = 1 + y], [y = x], an Output node [z] that shows the
    Input node. *)
Definition cycle_with_display : list AppNode :=
  cycle_nodes ++ [output_node "z" 300 0 None].

Definition cycle_with_display_edges : list AppEdge :=
  cycle_edges ++ [edge_to "e4" "one" "z" undefined_handle].

Lemma nodes_fed_by_inputs_follow_them_witness :
  In (output_node "z" 300 0 (Some 1%float))
    (calculateGraph cycle_with_display cycle_with_display_edges)
  /\ iterations (run cycle_with_display cycle_with_display_edges) = 50
  /\ (value (data (output_node "z" 300 0 (Some 1%float))) = Some 1%float
      \/ strict_neq (value (data (output_node "z" 300 0 (Some 1%float))))
           (Some 1%float) = false).
Proof.
  assert (Hin : In (output_node "z" 300 0 (Some 1%float))
                  (calculateGraph cycle_with_display cycle_with_display_edges))
    by (vm_compute; do 3 right; left; reflexivity).
  split; [exact Hin|]. split; [vm_compute; reflexivity|].
  apply (proj1 (nodes_fed_by_inputs_follow_them cycle_with_display
                  cycle_with_display_edges _ Hin) eq_refl
           (edge_to "e4" "one" "z" undefined_handle)
           (input_node "one" 0 0 1));
    reflexivity.
Defined.

End EvaluatorMore.

(** ** The history: one timeline *)

Module HistoryMore.
Import App HistoryFacts.

(** The snapshots of [past], the live graph and the snapshots of [future],
    in this order. *)
Definition timeline (st : State) : list Snapshot.t :=
  past (history st) ++ [current_snapshot st] ++ future (history st).

Lemma snapshot_eta (s : Snapshot.t) :
  Snapshot.mk (Snapshot.nodes s) (Snapshot.edges s) = s.
Proof. destruct s. reflexivity. Qed.

(** X10.  [undo] and [redo] move the live graph along one timeline: no snapshot
    is lost, made or reordered, whether they find something to restore or
    not, and the store is left alone. *)
Theorem undo_redo_keep_the_timeline st :
  timeline (undo st) = timeline st
  /\ timeline (redo st) = timeline st
  /\ heap (undo st) = heap st
  /\ heap (redo st) = heap st.
Proof.
  split; [|split; [|split]].
  - destruct (last (past (history st))) as [s|] eqn:E.
    + apply last_Some in E. destruct E as [p E].
      rewrite (undo_snoc st p s E). unfold timeline. rewrite E.
      cbn [history past future]. unfold current_snapshot.
      cbn [nodes edges]. rewrite snapshot_eta, <- !app_assoc. reflexivity.
    + apply last_None in E. rewrite (undo_empty st E). reflexivity.
  - destruct (future (history st)) as [|s f] eqn:E.
    + rewrite (redo_empty st E). reflexivity.
    + rewrite (redo_cons st s f E). unfold timeline. rewrite E.
      cbn [history past future]. unfold current_snapshot.
      cbn [nodes edges]. rewrite snapshot_eta, <- !app_assoc. reflexivity.
  - unfold undo. destruct (_ =? 0)%nat; [reflexivity|].
    destruct (last _); reflexivity.
  - unfold redo. destruct (_ =? 0)%nat; [reflexivity|].
    destruct (future _); reflexivity.
Qed.

(** X11.  [redo] undoes [undo] whenever [undo] had something to restore, and
    [undo] undoes [redo] whenever [redo] had: the whole state comes back. *)
Theorem undo_and_redo_are_inverse st :
  (past (history st) <> [] -> redo (undo st) = st)
  /\ (future (history st) <> [] -> undo (redo st) = st).
Proof. split; [apply redo_undo|apply undo_redo]. Qed.

Lemma undo_and_redo_are_inverse_witness :
  redo (undo (deleteNode "4" initialState)) = deleteNode "4" initialState.
Proof.
  apply (proj1 (undo_and_redo_are_inverse (deleteNode "4" initialState))).
  vm_compute. discriminate.
Defined.

Lemma same_serialisation_refl h s : same_serialisation h s s = true.
Proof. unfold same_serialisation. rewrite !json_eqb_refl. reflexivity. Qed.

Lemma snapshot_update_twice h ns es prev :
  snapshot_update h ns es (snapshot_update h ns es prev)
  = snapshot_update h ns es prev.
Proof.
  assert (Hpushed : forall p,
    snapshot_update h ns es (mkHistory (p ++ [Snapshot.mk ns es]) [])
    = mkHistory (p ++ [Snapshot.mk ns es]) []).
  { intros p. apply (snapshot_update_same _ _ _ _ (Snapshot.mk ns es)).
    - cbn [past]. apply last_snoc.
    - apply same_serialisation_refl. }
  destruct (last (past prev)) as [lst|] eqn:E.
  - destruct (same_serialisation h lst (Snapshot.mk ns es)) eqn:Es.
    + rewrite (snapshot_update_same _ _ _ _ _ E Es).
      apply (snapshot_update_same _ _ _ _ _ E Es).
    + rewrite (snapshot_update_differs _ _ _ _ _ E Es). apply Hpushed.
  - rewrite (snapshot_update_first _ _ _ _ E). apply Hpushed.
Qed.

(** X12.  Two snapshots in a row with nothing in between record one entry: the
    second call changes nothing. *)
Theorem takeSnapshot_twice st : takeSnapshot (takeSnapshot st) = takeSnapshot st.
Proof.
  unfold takeSnapshot at 1. cbn [takeSnapshot heap nodes edges history].
  rewrite snapshot_update_twice. reflexivity.
Qed.

(** X13.  After a snapshot was pushed there is nothing to redo, whatever the live
    graph is changed to afterwards: the snapshots that [undo] had put into
    [future] are gone. *)
Theorem redo_after_a_push_does_nothing st h ns es :
  history (takeSnapshot st) <> history st ->
  future (history (takeSnapshot st)) = []
  /\ redo (set_graph h ns es (takeSnapshot st))
     = set_graph h ns es (takeSnapshot st).
Proof.
  intros Hne. pose proof (takeSnapshot_pushed st Hne) as Hp.
  assert (Hf : future (history (takeSnapshot st)) = [])
    by (rewrite Hp; reflexivity).
  split; [exact Hf|]. apply redo_empty. exact Hf.
Qed.

(** A state after [undo]: something is in [future]. *)
Definition undone_state : State := undo (deleteNode "4" initialState).

Lemma redo_after_a_push_does_nothing_witness :
  future (history (takeSnapshot undone_state)) = []
  /\ redo (set_graph (heap undone_state) (nodes undone_state) []
             (takeSnapshot undone_state))
     = set_graph (heap undone_state) (nodes undone_state) []
         (takeSnapshot undone_state).
Proof.
  apply (redo_after_a_push_does_nothing undone_state).
  vm_compute. discriminate.
Defined.

Example undone_state_has_a_future :
  length (future (history undone_state)) = 1.
Proof. vm_compute. reflexivity. Qed.

End HistoryMore.

(** ** The handlers that edit the graph *)

Module EditorFacts.
Import App Editor HistoryFacts.

(** A node with [{ ...data, ...newData }] for data. *)
Definition with_data (newData : PartialNodeData) (n : AppNode) : AppNode :=
  mkNode (id n) (type n) (position n) (merge_data (data n) newData).

(** What [updateNodeData k newData] makes of the node [n]. *)
Definition updated (k : string) (newData : PartialNodeData) (n : AppNode)
    : AppNode :=
  if String.eqb (id n) k then with_data newData n else n.

Lemma merge_data_twice d p : merge_data (merge_data d p) p = merge_data d p.
Proof.
  unfold merge_data. cbn.
  destruct (with_label p), (with_value p), (with_inputValue p),
    (with_operation p), (with_onChange p); reflexivity.
Qed.

Lemma updated_twice k p n : updated k p (updated k p n) = updated k p n.
Proof.
  unfold updated. destruct (String.eqb (id n) k) eqn:E.
  - cbn [with_data id]. rewrite E. unfold with_data. cbn.
    rewrite merge_data_twice. reflexivity.
  - rewrite E. reflexivity.
Qed.

Lemma read_node_assign_data h l p l' v :
  read_node h l' = Some v ->
  read_node (assign_data h l p) l'
  = Some (if decide (l' = l) then with_data p v else v).
Proof.
  intros Hr. unfold assign_data.
  destruct (node_objs h !! l) as [n|] eqn:En.
  2: { destruct (decide (l' = l)) as [->|]; [|exact Hr].
       unfold read_node in Hr. rewrite En in Hr. discriminate. }
  destruct (data_objs h !! data n) as [d|] eqn:Ed.
  2: { destruct (decide (l' = l)) as [->|]; [|exact Hr].
       unfold read_node in Hr. rewrite En, Ed in Hr. discriminate. }
  cbn [alloc_data]. unfold read_node in *. cbn [node_objs data_objs].
  destruct (decide (l' = l)) as [->|Hne].
  - rewrite list_lookup_insert_eq by (apply lookup_lt_Some in En; exact En).
    cbn [data]. rewrite lookup_app_r, Nat.sub_diag by lia. cbn.
    rewrite En, Ed in Hr. injection Hr as <-. reflexivity.
  - rewrite list_lookup_insert_ne by congruence.
    destruct (node_objs h !! l') as [n'|]; [|discriminate].
    destruct (data_objs h !! data n') as [d'|] eqn:Ed'; [|discriminate].
    rewrite (lookup_app_l_Some _ _ _ _ Ed'). exact Hr.
Qed.

Lemma read_node_update_data_if_id k p h l l' v :
  read_node h l' = Some v ->
  read_node (update_data_if_id k p h l) l'
  = Some (if decide (l' = l) then updated k p v else v).
Proof.
  intros Hr. unfold update_data_if_id, updated.
  destruct (node_objs h !! l) as [n|] eqn:En.
  2: { destruct (decide (l' = l)) as [->|]; [|exact Hr].
       unfold read_node in Hr. rewrite En in Hr. discriminate. }
  destruct (decide (l' = l)) as [->|Hne].
  - assert (Hid : id v = id n).
    { unfold read_node in Hr. rewrite En in Hr.
      destruct (data_objs h !! data n); [|discriminate].
      injection Hr as <-. reflexivity. }
    rewrite Hid. destruct (String.eqb (id n) k); [|exact Hr].
    rewrite (read_node_assign_data h l p l v Hr).
    destruct (decide (l = l)); [reflexivity|contradiction].
  - destruct (String.eqb (id n) k); [|exact Hr].
    rewrite (read_node_assign_data h l p l' v Hr).
    destruct (decide (l' = l)); [contradiction|reflexivity].
Qed.

(** The whole [nds.map]: an object in the array is updated, once, however
    often the array lists it; any other object is left alone. *)
Lemma read_node_map_update k p ls : forall h l' v,
  read_node h l' = Some v ->
  read_node (fold_left (update_data_if_id k p) ls h) l'
  = Some (if decide (l' ∈ ls) then updated k p v else v).
Proof.
  induction ls as [|l ls IH]; intros h l' v Hr; cbn [fold_left].
  - destruct (decide (l' ∈ [])) as [H|_]; [|exact Hr].
    apply elem_of_nil in H. contradiction.
  - rewrite (IH _ l' _ (read_node_update_data_if_id k p h l l' v Hr)).
    f_equal.
    destruct (decide (l' = l)) as [->|Hne].
    + destruct (decide (l ∈ l :: ls)) as [_|H]; [|exfalso; apply H; left].
      destruct (decide (l ∈ ls)); [apply updated_twice|reflexivity].
    + destruct (decide (l' ∈ ls)) as [H|H];
        destruct (decide (l' ∈ l :: ls)) as [H'|H']; try reflexivity.
      * exfalso. apply H'. right. exact H.
      * exfalso. apply elem_of_cons in H'. destruct H'; contradiction.
Qed.

Lemma read_nodes_map_update k p st vs :
  read_nodes (heap st) (nodes st) = Some vs ->
  read_nodes (fold_left (update_data_if_id k p) (nodes st) (heap st)) (nodes st)
  = Some (map (updated k p) vs).
Proof.
  intros H. apply mapM_Some. apply mapM_Some in H.
  apply Forall2_fmap_r.
  assert (Hgen : forall ls ws,
    Forall2 (fun l v => read_node (heap st) l = Some v) ls ws ->
    (forall l, l ∈ ls -> l ∈ nodes st) ->
    Forall2 (fun l v =>
               read_node (fold_left (update_data_if_id k p) (nodes st) (heap st)) l
               = Some (updated k p v)) ls ws).
  { induction 1 as [|l v ls ws Hr _ IH]; intros Hsub; constructor.
    - rewrite (read_node_map_update k p (nodes st) (heap st) l v Hr).
      destruct (decide (l ∈ nodes st)) as [_|Hn]; [reflexivity|].
      exfalso. apply Hn, Hsub. left.
    - apply IH. intros l0 Hl0. apply Hsub. right. exact Hl0. }
  apply Hgen; [exact H|]. intros l Hl. exact Hl.
Qed.




(** X15.  The field of an Input node and the field of the settings panel do the
    same: [updateNodeValue id val] is [updateNodeData id { inputValue: val }],
    on the store, the live graph and the history. *)
Theorem updateNodeValue_is_updateNodeData k val st :
  updateNodeValue k val st
  = updateNodeData k (mkPartial None None (Some (Some val)) None None) st.
Proof.
  unfold updateNodeValue, updateNodeData, update_if_id, update_data_if_id,
    replace_inputValue, assign_data, merge_data.
  reflexivity.
Qed.

(** *** deleteNode *)

(** Every edge starts and ends at a node of the graph. *)
Definition closed (es : list AppEdge) (vs : list AppNode) : Prop :=
  forall e, In e es -> In (source e) (map id vs) /\ In (target e) (map id vs).

(** The two tests of [deleteNode], on values. *)
Definition other_than (k : string) (n : AppNode) : bool :=
  negb (String.eqb (id n) k).

Definition away_from (k : string) (e : AppEdge) : bool :=
  negb (String.eqb (source e) k) && negb (String.eqb (target e) k).

Lemma read_nodes_filter h (P : loc -> bool) (Q : AppNode -> bool) ls vs :
  read_nodes h ls = Some vs ->
  (forall l v, read_node h l = Some v -> P l = Q v) ->
  read_nodes h (List.filter P ls) = Some (List.filter Q vs).
Proof.
  intros H HPQ. apply mapM_Some. apply mapM_Some in H.
  induction H as [|l v ls vs Hr _ IH]; cbn [List.filter]; [constructor|].
  rewrite (HPQ l v Hr). destruct (Q v); [constructor; assumption|exact IH].
Qed.

Lemma deleteNode_test h k l v :
  read_node h l = Some v ->
  match node_objs h !! l with
  | Some n => negb (String.eqb (id n) k)
  | None => true
  end = other_than k v.
Proof.
  unfold read_node, other_than. intros H.
  destruct (node_objs h !! l) as [n|]; [|discriminate].
  destruct (data_objs h !! data n); [|discriminate].
  injection H as <-. reflexivity.
Qed.

Lemma map_filter_In {A B} (f : A -> B) (P : A -> bool) (l : list A) b :
  In b (map f (List.filter P l)) -> exists a, In a l /\ P a = true /\ f a = b.
Proof.
  intros H. apply in_map_iff in H. destruct H as (a & Hf & Hin).
  apply filter_In in Hin. destruct Hin as [Hin HP]. exists a. auto.
Qed.

(** X16.  [deleteNode id]: the live graph loses every node of that id and every
    edge that starts or ends there, and nothing else; so no node of that id
    is left, no edge left touches it, and a graph whose edges all joined
    nodes of the graph is still one.  The store is not written to; the
    history is the one [takeSnapshot] leaves. *)
Theorem deleteNode_removes_the_node_and_its_edges k st vs :
  read_nodes (heap st) (nodes st) = Some vs ->
  let vs' := List.filter (other_than k) vs in
  let es' := List.filter (away_from k) (edges st) in
  live (deleteNode k st) = (Some vs', es')
  /\ ~ In k (map id vs')
  /\ (forall e, In e es' -> source e <> k /\ target e <> k)
  /\ (forall n, In n vs -> id n <> k -> In n vs')
  /\ (forall e, In e (edges st) -> source e <> k -> target e <> k -> In e es')
  /\ (closed (edges st) vs -> closed es' vs')
  /\ heap (deleteNode k st) = heap st
  /\ history (deleteNode k st) = history (takeSnapshot st).
Proof.
  intros Hvs. cbv zeta.
  assert (Hedge : forall e, In e (List.filter (away_from k) (edges st)) ->
            source e <> k /\ target e <> k).
  { intros e He. apply filter_In in He. destruct He as [_ He].
    unfold away_from in He. apply andb_prop in He. destruct He as [H1 H2].
    apply negb_true_iff in H1, H2.
    split; apply String.eqb_neq; assumption. }
  assert (Hnode : forall n, In n vs -> id n <> k ->
            In n (List.filter (other_than k) vs)).
  { intros n Hn Hne. apply filter_In. split; [exact Hn|].
    unfold other_than. apply negb_true_iff, String.eqb_neq. exact Hne. }
  split; [|split; [|split; [|split; [|split; [|split; [|split]]]]]].
  - unfold live, deleteNode. cbn [takeSnapshot heap nodes edges].
    rewrite (read_nodes_filter (heap st) _ (other_than k) (nodes st) vs Hvs).
    + reflexivity.
    + intros l v Hr. apply deleteNode_test. exact Hr.
  - intros H. apply map_filter_In in H. destruct H as (n & _ & HP & Hid).
    unfold other_than in HP. apply negb_true_iff, String.eqb_neq in HP.
    contradiction.
  - exact Hedge.
  - exact Hnode.
  - intros e He Hs Ht. apply filter_In. split; [exact He|].
    unfold away_from. apply andb_true_intro.
    split; apply negb_true_iff, String.eqb_neq; assumption.
  - intros Hcl e He. destruct (Hedge e He) as [Hs Ht].
    apply filter_In in He. destruct He as [He _].
    destruct (Hcl e He) as [H1 H2].
    apply in_map_iff in H1, H2.
    destruct H1 as (n1 & Hn1 & Hin1), H2 as (n2 & Hn2 & Hin2).
    split; apply in_map_iff.
    + exists n1. split; [exact Hn1|]. apply Hnode; [exact Hin1|congruence].
    + exists n2. split; [exact Hn2|]. apply Hnode; [exact Hin2|congruence].
  - reflexivity.
  - reflexivity.
Qed.

Lemma deleteNode_removes_the_node_and_its_edges_witness :
  live (deleteNode "3" initialState)
  = (Some (List.filter (other_than "3") initialNodes),
     List.filter (away_from "3") initialEdges).
Proof.
  exact (proj1 (deleteNode_removes_the_node_and_its_edges "3" initialState
                  initialNodes eq_refl)).
Defined.

Lemma deleteNode_set_graph k st :
  exists ns es,
    deleteNode k st = set_graph (heap st) ns es (takeSnapshot st).
Proof. eexists _, _. reflexivity. Qed.

(** X17.  [undo] right after [deleteNode] gives back a graph that serialises as
    the graph before the deletion did, nodes and edges, whether the
    deletion pushed a snapshot or found the graph already on top of
    [past]; when it pushed one, the very arrays of nodes and edges are back,
    and [redo] deletes again. *)
Theorem undo_restores_what_deleteNode_removed k st :
  same_serialisation (heap st)
    (current_snapshot (undo (deleteNode k st))) (current_snapshot st) = true
  /\ (history (takeSnapshot st) <> history st ->
      live (undo (deleteNode k st)) = live st
      /\ redo (undo (deleteNode k st)) = deleteNode k st).
Proof.
  destruct (deleteNode_set_graph k st) as (ns & es & Hd).
  assert (Hpushed :
    history (takeSnapshot st)
    = mkHistory (slice_last 20 (past (history st)) ++ [current_snapshot st]) [] ->
    current_snapshot (undo (deleteNode k st)) = current_snapshot st).
  { intros Hp. rewrite Hd.
    rewrite (undo_snoc _ (slice_last 20 (past (history st))) (current_snapshot st))
      by (unfold set_graph; cbn [history]; rewrite Hp; reflexivity).
    reflexivity. }
  split.
  - destruct (last (past (history st))) as [lst|] eqn:E.
    + destruct (same_serialisation (heap st) lst (current_snapshot st)) eqn:Es.
      * apply last_Some in E. destruct E as [p E].
        rewrite Hd.
        rewrite (undo_snoc _ p lst).
        -- unfold current_snapshot at 1. cbn [nodes edges].
           rewrite HistoryMore.snapshot_eta. exact Es.
        -- unfold set_graph. cbn [history takeSnapshot].
           rewrite (snapshot_update_same _ _ _ _ lst); [exact E| |exact Es].
           rewrite E. apply last_snoc.
      * rewrite Hpushed; [apply HistoryMore.same_serialisation_refl|].
        cbn [history takeSnapshot].
        apply (snapshot_update_differs _ _ _ _ lst E Es).
    + rewrite Hpushed; [apply HistoryMore.same_serialisation_refl|].
      cbn [history takeSnapshot]. apply (snapshot_update_first _ _ _ _ E).
  - intros Hne. rewrite Hd.
    pose proof (undo_redo_after_snapshot st (heap st) ns es Hne) as H.
    cbv zeta in H. destruct H as (_ & _ & _ & Hredo & _ & _ & Hlive).
    split; [apply Hlive; reflexivity|exact Hredo].
Qed.

Lemma undo_restores_what_deleteNode_removed_witness :
  live (undo (deleteNode "3" initialState)) = live initialState
  /\ redo (undo (deleteNode "3" initialState)) = deleteNode "3" initialState.
Proof.
  apply (proj2 (undo_restores_what_deleteNode_removed "3" initialState)).
  vm_compute. discriminate.
Defined.

End EditorFacts.

(** ** The objects that calculateGraph returns *)

Module StoreMore.
Import StoreFacts.

Lemma run_fresh h nodes edges vs :
  read_nodes h nodes = Some vs ->
  NoDup (map snd (snd (Store.run h nodes edges)))
  /\ (forall e, In e (snd (Store.run h nodes edges)) ->
        length (node_objs h) <= snd e)
  /\ owns (snd (Store.run h nodes edges)) (length (data_objs h))
       (node_objs (current (fst (Store.run h nodes edges)))).
Proof.
  intros Hvs. pose proof (nodeMap_of_copied h nodes vs Hvs) as Hcop.
  unfold Store.run. destruct (Store.nodeMap_of h nodes) as [h0 m].
  cbn [fst snd] in *.
  pose proof (copied_owns h h0 m _ Hcop) as Hown.
  destruct Hcop as (NN & DD & HN & HD & Hlen & Hdata & Hrep & Hnd & Hrange).
  destruct (while_loop_simulates m edges (length (data_objs h)) (node_objs h0)
              Hown (mkLoop h0 true 0) (mkLoop (Pure.nodeMap_of vs) true 0))
    as ([HNr Hrepr] & _); try reflexivity.
  { split; [reflexivity|exact Hrep]. }
  split; [exact Hnd|]. split.
  - intros e He. apply (Hrange e He).
  - rewrite HNr. exact Hown.
Qed.

Lemma read_nodes_in_range h ls vs l :
  read_nodes h ls = Some vs -> In l ls -> l < length (node_objs h).
Proof.
  intros H Hin. apply mapM_Some in H.
  apply list_elem_of_In, list_elem_of_lookup in Hin. destruct Hin as [i Hi].
  destruct (Forall2_lookup_l _ _ _ _ _ H Hi) as (v & _ & Hr).
  destruct (read_node_Some _ _ _ Hr) as (o & _ & Ho & _).
  apply lookup_lt_Some in Ho. exact Ho.
Qed.

Lemma calculateGraph_fresh h nodes edges vs :
  read_nodes h nodes = Some vs ->
  let h' := fst (Store.calculateGraph h nodes edges) in
  let out := snd (Store.calculateGraph h nodes edges) in
  NoDup out
  /\ (forall l, In l out -> length (node_objs h) <= l /\ ~ In l nodes)
  /\ (forall l o, In l out -> node_objs h' !! l = Some o ->
        length (data_objs h) <= data o)
  /\ (forall l l' o o', In l out -> In l' out ->
        node_objs h' !! l = Some o -> node_objs h' !! l' = Some o' ->
        data o = data o' -> l = l').
Proof.
  intros Hvs. cbv zeta.
  destruct (run_fresh h nodes edges vs Hvs) as (Hnd & Hrange & Hown).
  unfold Store.calculateGraph.
  destruct (Store.run h nodes edges) as [s m]. cbn [fst snd] in *.
  assert (Hat : forall l, In l (map snd m) ->
            exists i e, m !! i = Some e /\ snd e = l).
  { intros l Hl. apply in_map_iff in Hl. destruct Hl as (e & He & Hin).
    apply list_elem_of_In, list_elem_of_lookup in Hin. destruct Hin as [i Hi].
    exists i, e. split; assumption. }
  split; [exact Hnd|]. split; [|split].
  - intros l Hl. destruct (Hat l Hl) as (i & e & Hi & <-).
    assert (Hge : length (node_objs h) <= snd e).
    { apply Hrange, list_elem_of_In, list_elem_of_lookup. exists i. exact Hi. }
    split; [exact Hge|]. intros Hin.
    pose proof (read_nodes_in_range h nodes vs (snd e) Hvs Hin). lia.
  - intros l o Hl Ho. destruct (Hat l Hl) as (i & e & Hi & <-).
    apply (Hown i e o Hi Ho).
  - intros l l' o o' Hl Hl' Ho Ho' Heq.
    destruct (Hat l Hl) as (i & e & Hi & <-).
    destruct (Hat l' Hl') as (j & e' & Hj & <-).
    destruct (Hown i e o Hi Ho) as [_ Huniq].
    rewrite (Huniq j e' o' Hj Ho' Heq) in Hi. congruence.
Qed.

(** X9.  [calculateGraph] hands out objects of its own: the node objects of the
    array it returns are pairwise distinct, none of them was in the store
    before the call (so none is a node of the argument), and each has a
    data object that was not in the store before the call either and that
    no other node of the result shares. *)
Theorem calculateGraph_returns_new_objects h nodes edges vs :
  read_nodes h nodes = Some vs ->
  let h' := fst (Store.calculateGraph h nodes edges) in
  let out := snd (Store.calculateGraph h nodes edges) in
  NoDup out
  /\ (forall l, In l out -> length (node_objs h) <= l /\ ~ In l nodes)
  /\ (forall l o, In l out -> node_objs h' !! l = Some o ->
        length (data_objs h) <= data o)
  /\ (forall l l' o o', In l out -> In l' out ->
        node_objs h' !! l = Some o -> node_objs h' !! l' = Some o' ->
        data o = data o' -> l = l').
Proof. exact (calculateGraph_fresh h nodes edges vs). Qed.

Lemma calculateGraph_returns_new_objects_witness :
  NoDup (snd (Store.calculateGraph (fst (store_of initialNodes))
                (snd (store_of initialNodes)) initialEdges)).
Proof.
  exact (proj1 (calculateGraph_returns_new_objects (fst (store_of initialNodes))
                  (snd (store_of initialNodes)) initialEdges initialNodes
                  eq_refl)).
Defined.

(** What the call leaves in the store, read back. *)
Lemma calculateGraph_reads h nodes edges vs :
  read_nodes h nodes = Some vs ->
  node_objs h `prefix_of` node_objs (fst (Store.calculateGraph h nodes edges))
  /\ data_objs h `prefix_of` data_objs (fst (Store.calculateGraph h nodes edges))
  /\ read_nodes (fst (Store.calculateGraph h nodes edges)) nodes = Some vs
  /\ read_nodes (fst (Store.calculateGraph h nodes edges))
       (snd (Store.calculateGraph h nodes edges))
     = Some (Pure.calculateGraph vs edges).
Proof.
  intros Hvs.
  destruct (run_refines h nodes edges vs Hvs) as (HN & HD & Hout & _ & _).
  unfold Store.calculateGraph.
  destruct (Store.run h nodes edges) as [s m]. cbn [fst snd] in *.
  split; [exact HN|]. split; [exact HD|].
  split; [exact (read_nodes_grow h _ nodes vs HN HD Hvs)|exact Hout].
Qed.

End StoreMore.

(** ** onDrop, and the ids of the nodes over a whole session *)

Module Session.
Import App Editor HistoryFacts EditorFacts.

(** The node that [onDrop] builds. *)
Definition dropped_node (type' : string) (op : option MathOperation.t)
    (position : XYPosition) (counter : N) : AppNode :=
  mkNode (pretty counter) (Some type') position
    (mkNodeData (Some (String.append type' " node")) None (Some 0%float) op
       (Some updateNodeValue_ref)).

(** The text of a count below [c]. *)
Definition numbered (c : N) (k : string) : Prop :=
  exists m, (m < c)%N /\ k = pretty m.

(** The array [ls] reads, in [h], as nodes of distinct ids that [getId]
    gave out before the counter reached [c]. *)
Definition ids_ok (h : Heap) (c : N) (ls : list loc) : Prop :=
  exists vs, read_nodes h ls = Some vs
    /\ NoDup (map id vs) /\ Forall (numbered c) (map id vs).

(** The objects of [h] are in [h'], with their ids. *)
Definition evolves (h h' : Heap) : Prop :=
  forall l v, read_node h l = Some v ->
    exists v', read_node h' l = Some v' /\ id v' = id v.

(** The live graph and every snapshot of the history are [ids_ok]. *)
Definition Inv (s : State * N) : Prop :=
  ids_ok (heap (fst s)) (snd s) (nodes (fst s))
  /\ Forall (fun sn => ids_ok (heap (fst s)) (snd s) (Snapshot.nodes sn))
       (past (history (fst s)) ++ future (history (fst s))).

(** [onConnect] (lines 186 to 192): a snapshot, then the edges become the
    array [added] that [addEdge] answers. *)
Definition onConnect (added : list AppEdge) (st : State) : State :=
  let st1 := takeSnapshot st in
  mkState (heap st1) (nodes st1) added (history st1).

(** What can happen in a session: a node dropped from the palette, a field
    of the settings panel or of an Input node set, a node deleted, a drag
    started, a connection made, undo, redo, the recalculation effect, the
    effect on mount. *)
Inductive Action : Type :=
  | act_onDrop (ready : bool) (type' : string) (op : option MathOperation.t)
      (position : XYPosition)
  | act_updateNodeData (k : string) (newData : PartialNodeData)
  | act_updateNodeValue (k : string) (val : float)
  | act_deleteNode (k : string)
  | act_onNodeDragStart
  | act_onConnect (added : list AppEdge)
  | act_undo
  | act_redo
  | act_recalculate
  | act_mount.

Definition step (s : State * N) (a : Action) : State * N :=
  match a with
  | act_onDrop ready type' op position =>
      onDrop ready type' op position (fst s) (snd s)
  | act_updateNodeData k newData => (updateNodeData k newData (fst s), snd s)
  | act_updateNodeValue k val => (updateNodeValue k val (fst s), snd s)
  | act_deleteNode k => (deleteNode k (fst s), snd s)
  | act_onNodeDragStart => (takeSnapshot (fst s), snd s)
  | act_onConnect added => (onConnect added (fst s), snd s)
  | act_undo => (undo (fst s), snd s)
  | act_redo => (redo (fst s), snd s)
  | act_recalculate => (recalculate (fst s), snd s)
  | act_mount => (mount (fst s), snd s)
  end.

Definition session (actions : list Action) (s : State * N) : State * N :=
  fold_left step actions s.

(** The application starts with the initial graph and the counter at 5. *)
Definition start : State * N := (initialState, 5%N).

(** *** onDrop *)

Lemma onDrop_ready type' op position st counter :
  type' <> "" ->
  onDrop true type' op position st counter
  = let h2 :=
      mkHeap (node_objs (heap st)
              ++ [mkNode (pretty counter) (Some type') position
                    (length (data_objs (heap st)))])
        (data_objs (heap st)
         ++ [data (dropped_node type' op position counter)]) in
    (mkState h2 (nodes st ++ [length (node_objs (heap st))]) (edges st)
       (history (takeSnapshot (mkState h2 (nodes st) (edges st) (history st)))),
     next_counter counter).
Proof.
  intros Hne. unfold onDrop. cbn [negb].
  apply String.eqb_neq in Hne. rewrite Hne. reflexivity.
Qed.

Lemma read_node_snoc h o d l v :
  read_node h l = Some v ->
  read_node (mkHeap (node_objs h ++ [o]) (data_objs h ++ [d])) l = Some v.
Proof.
  apply StoreFacts.read_node_grow; cbn; apply prefix_app_r; reflexivity.
Qed.

Lemma read_nodes_snoc h ls vs l v :
  read_nodes h ls = Some vs -> read_node h l = Some v ->
  read_nodes h (ls ++ [l]) = Some (vs ++ [v]).
Proof.
  intros H Hl. apply mapM_Some. apply mapM_Some in H.
  apply Forall2_app; [exact H|]. constructor; [exact Hl|constructor].
Qed.

Lemma numbered_mono c c' k : (c <= c')%N -> numbered c k -> numbered c' k.
Proof. intros Hle (m & Hm & ->). exists m. split; [lia|reflexivity]. Qed.

Lemma numbered_fresh c ks :
  Forall (numbered c) ks -> ~ In (pretty c) ks.
Proof.
  intros H Hin. rewrite Forall_forall in H.
  apply list_elem_of_In in Hin.
  destruct (H _ Hin) as (m & Hm & Heq).
  apply (inj pretty) in Heq. lia.
Qed.

Lemma NoDup_snoc_fresh {A} (l : list A) a :
  NoDup l -> ~ In a l -> NoDup (l ++ [a]).
Proof.
  intros Hnd Hin. apply NoDup_app. split; [exact Hnd|].
  split; [|apply NoDup_singleton].
  intros x Hx Hx'. apply list_elem_of_singleton in Hx'. subst x.
  apply Hin, list_elem_of_In. exact Hx.
Qed.

Lemma onDrop_effect type' op position st counter vs :
  type' <> "" ->
  read_nodes (heap st) (nodes st) = Some vs ->
  let r := onDrop true type' op position st counter in
  let vs' := vs ++ [dropped_node type' op position counter] in
  live (fst r) = (Some vs', edges st)
  /\ (forall l v, read_node (heap st) l = Some v ->
        read_node (heap (fst r)) l = Some v)
  /\ ((counter < 2 ^ 53)%N ->
      NoDup (map id vs) -> Forall (numbered counter) (map id vs) ->
      snd r = (counter + 1)%N
      /\ NoDup (map id vs') /\ Forall (numbered (snd r)) (map id vs')).
Proof.
  intros Hne Hvs. cbv zeta. rewrite (onDrop_ready _ _ _ _ _ Hne). cbv zeta.
  cbn [fst snd]. unfold live. cbn [heap nodes edges].
  split; [|split].
  - f_equal. apply read_nodes_snoc.
    + apply mapM_Some. apply mapM_Some in Hvs.
      eapply Forall2_impl; [exact Hvs|]. intros l v Hr.
      apply read_node_snoc. exact Hr.
    + unfold read_node. cbn [node_objs data_objs].
      rewrite lookup_app_r, Nat.sub_diag by lia. cbn.
      rewrite lookup_app_r, Nat.sub_diag by lia. reflexivity.
  - intros l v Hr. apply read_node_snoc. exact Hr.
  - intros Hc Hnd Hnum.
    assert (Hnext : next_counter counter = (counter + 1)%N).
    { unfold next_counter. destruct (N.ltb_spec counter (2 ^ 53));
        [reflexivity|lia]. }
    rewrite Hnext, map_app. cbn [map dropped_node id].
    split; [reflexivity|]. split.
    + apply NoDup_snoc_fresh; [exact Hnd|]. apply numbered_fresh. exact Hnum.
    + apply Forall_app. split.
      * eapply Forall_impl; [exact Hnum|]. intros k.
        apply numbered_mono. lia.
      * constructor; [|constructor]. exists counter. split; [lia|reflexivity].
Qed.

(** X19.  [onDrop], when the flow is ready and the event carries a type: the
    live graph gains one node at its end, of that type, at the position of
    the drop, with label, inputValue 0, the operation of the event and the
    callback, and no value; the objects of the store keep their contents.
    While the counter is below 2^53 the new id is the text of the counter
    and the counter goes up by one, so that, when the ids of the graph are
    distinct texts of smaller counts, the ids are still distinct, and texts
    of counts below the new counter. *)
Theorem onDrop_appends_a_node_with_a_new_id type' op position st counter vs :
  type' <> "" ->
  read_nodes (heap st) (nodes st) = Some vs ->
  let r := onDrop true type' op position st counter in
  let vs' := vs ++ [dropped_node type' op position counter] in
  live (fst r) = (Some vs', edges st)
  /\ (forall l v, read_node (heap st) l = Some v ->
        read_node (heap (fst r)) l = Some v)
  /\ ((counter < 2 ^ 53)%N ->
      NoDup (map id vs) -> Forall (numbered counter) (map id vs) ->
      snd r = (counter + 1)%N
      /\ NoDup (map id vs') /\ Forall (numbered (snd r)) (map id vs')).
Proof. exact (onDrop_effect type' op position st counter vs). Qed.

Lemma onDrop_appends_a_node_with_a_new_id_witness :
  let r := onDrop true NodeType.MATH (Some MathOperation.add) (mkXY 10 20)
             initialState 5%N in
  live (fst r)
  = (Some (initialNodes
           ++ [dropped_node NodeType.MATH (Some MathOperation.add)
                 (mkXY 10 20) 5%N]),
     initialEdges).
Proof.
  refine (proj1 (onDrop_appends_a_node_with_a_new_id NodeType.MATH
                   (Some MathOperation.add) (mkXY 10 20) initialState 5%N
                   initialNodes _ eq_refl)).
  vm_compute. discriminate.
Defined.

(** *** The effect on mount *)

(** A node with the callback in [data.onChange]. *)
Definition with_onChange (n : AppNode) : AppNode :=
  mkNode (id n) (type n) (position n)
    (mkNodeData (label (data n)) (value (data n)) (inputValue (data n))
       (operation (data n)) (Some updateNodeValue_ref)).

Lemma inject_onChange_reads h out l v :
  read_node h l = Some v ->
  inject_onChange (h, out) l
  = (mkHeap (node_objs h
             ++ [mkNode (id v) (type v) (position v) (length (data_objs h))])
       (data_objs h ++ [data (with_onChange v)]),
     out ++ [length (node_objs h)]).
Proof.
  intros Hr. destruct (StoreFacts.read_node_Some _ _ _ Hr) as (o & d & Ho & Hd & ->).
  unfold inject_onChange. rewrite Ho, Hd. reflexivity.
Qed.

Lemma fold_inject_onChange h0 ls vs :
  Forall2 (fun l v => read_node h0 l = Some v) ls vs ->
  forall h out ws,
    node_objs h0 `prefix_of` node_objs h ->
    data_objs h0 `prefix_of` data_objs h ->
    read_nodes h out = Some ws ->
    (forall l, In l out -> length (node_objs h0) <= l) ->
    node_objs h0 `prefix_of`
      node_objs (fst (fold_left inject_onChange ls (h, out)))
    /\ data_objs h0 `prefix_of`
         data_objs (fst (fold_left inject_onChange ls (h, out)))
    /\ read_nodes (fst (fold_left inject_onChange ls (h, out)))
         (snd (fold_left inject_onChange ls (h, out)))
       = Some (ws ++ map with_onChange vs)
    /\ forall l, In l (snd (fold_left inject_onChange ls (h, out))) ->
         length (node_objs h0) <= l.
Proof.
  induction 1 as [|l v ls vs Hr _ IH]; intros h out ws HN HD Hout Hnew.
  - cbn. rewrite app_nil_r. repeat split; assumption.
  - cbn [fold_left map].
    rewrite (inject_onChange_reads h out l v
               (StoreFacts.read_node_grow h0 h l v HN HD Hr)).
    replace (ws ++ with_onChange v :: map with_onChange vs)
      with ((ws ++ [with_onChange v]) ++ map with_onChange vs)
      by (rewrite <- app_assoc; reflexivity).
    apply IH.
    + cbn. etransitivity; [exact HN|]. apply prefix_app_r. reflexivity.
    + cbn. etransitivity; [exact HD|]. apply prefix_app_r. reflexivity.
    + apply read_nodes_snoc.
      * apply mapM_Some. apply mapM_Some in Hout.
        eapply Forall2_impl; [exact Hout|]. intros l0 v0 H0.
        apply read_node_snoc. exact H0.
      * unfold read_node. cbn [node_objs data_objs].
        rewrite lookup_app_r, Nat.sub_diag by lia. cbn.
        rewrite lookup_app_r, Nat.sub_diag by lia. reflexivity.
    + intros l0 Hl0. apply in_app_or in Hl0. destruct Hl0 as [Hl0|[<-|[]]].
      * apply Hnew. exact Hl0.
      * apply prefix_length in HN. exact HN.
Qed.

Lemma mount_reads st vs :
  read_nodes (heap st) (nodes st) = Some vs ->
  node_objs (heap st) `prefix_of` node_objs (heap (mount st))
  /\ data_objs (heap st) `prefix_of` data_objs (heap (mount st))
  /\ read_nodes (heap (mount st)) (nodes (mount st))
     = Some (map with_onChange vs)
  /\ forall l, In l (nodes (mount st)) -> length (node_objs (heap st)) <= l.
Proof.
  intros Hvs. apply mapM_Some in Hvs. unfold mount. cbn [heap nodes].
  apply (fold_inject_onChange (heap st) (nodes st) vs Hvs (heap st) [] []);
    try reflexivity.
  intros l [].
Qed.

(** X25.  The effect on mount puts the callback into every node: the live
    graph afterwards is the live graph before with [onChange] set in the
    data of every node and nothing else changed, in node objects that did
    not exist before, so that no snapshot refers to them; the node objects
    that existed keep their contents; and the nodes serialise exactly as
    before, a function not being serialised. *)
Theorem mount_injects_the_callback st vs :
  read_nodes (heap st) (nodes st) = Some vs ->
  live (mount st) = (Some (map with_onChange vs), edges st)
  /\ history (mount st) = history st
  /\ (forall l, In l (nodes (mount st)) -> ~ In l (nodes st))
  /\ (forall l v, read_node (heap st) l = Some v ->
        read_node (heap (mount st)) l = Some v)
  /\ stringify_nodes (heap (mount st)) (nodes (mount st))
     = stringify_nodes (heap st) (nodes st).
Proof.
  intros Hvs. destruct (mount_reads st vs Hvs) as (HN & HD & Hr & Hnew).
  split; [|split; [|split; [|split]]].
  - unfold live. rewrite Hr. reflexivity.
  - reflexivity.
  - intros l Hl Hin. specialize (Hnew l Hl).
    pose proof (StoreMore.read_nodes_in_range _ _ _ l Hvs Hin). lia.
  - intros l v Hl. exact (StoreFacts.read_node_grow _ _ l v HN HD Hl).
  - rewrite (stringify_nodes_values _ _ _ Hr), (stringify_nodes_values _ _ _ Hvs).
    f_equal. rewrite map_map. apply map_ext. intros v. reflexivity.
Qed.

Lemma mount_injects_the_callback_witness :
  live (mount initialState) = (Some (map with_onChange initialNodes), initialEdges).
Proof.
  exact (proj1 (mount_injects_the_callback initialState initialNodes eq_refl)).
Defined.


(** *** The invariant *)

Lemma evolves_refl h : evolves h h.
Proof. intros l v H. exists v. split; [exact H|reflexivity]. Qed.

Lemma evolves_grow h h' :
  node_objs h `prefix_of` node_objs h' ->
  data_objs h `prefix_of` data_objs h' -> evolves h h'.
Proof.
  intros HN HD l v H. exists v. split; [|reflexivity].
  exact (StoreFacts.read_node_grow h h' l v HN HD H).
Qed.

Lemma ids_ok_evolves h h' c c' ls :
  evolves h h' -> (c <= c')%N -> ids_ok h c ls -> ids_ok h' c' ls.
Proof.
  intros Hev Hle (vs & Hvs & Hnd & Hnum).
  assert (Hex : exists vs', read_nodes h' ls = Some vs' /\ map id vs' = map id vs).
  { apply mapM_Some in Hvs.
    induction Hvs as [|l v ls vs Hr _ IH].
    - exists []. split; reflexivity.
    - inversion Hnd; subst. inversion Hnum; subst.
      destruct IH as (vs' & Hvs' & Hids); [assumption|assumption|].
      destruct (Hev l v Hr) as (v' & Hr' & Hid).
      exists (v' :: vs'). split.
      + apply mapM_Some. constructor; [exact Hr'|].
        apply mapM_Some. exact Hvs'.
      + cbn. rewrite Hid, Hids. reflexivity. }
  destruct Hex as (vs' & Hvs' & Hids). exists vs'.
  rewrite Hids. split; [exact Hvs'|]. split; [exact Hnd|].
  eapply Forall_impl; [exact Hnum|]. intros k. apply numbered_mono. exact Hle.
Qed.

(** The live graph replaced, the store grown and the counter advanced. *)
Lemma Inv_change st c h' c' ns' es' :
  Inv (st, c) -> evolves (heap st) h' -> (c <= c')%N -> ids_ok h' c' ns' ->
  Inv (mkState h' ns' es' (history st), c').
Proof.
  intros [_ Hh] Hev Hle Hns. split; [exact Hns|].
  cbn [fst snd heap history] in *.
  eapply Forall_impl; [exact Hh|]. intros sn.
  apply ids_ok_evolves; assumption.
Qed.

Lemma takeSnapshot_Inv st c : Inv (st, c) -> Inv (takeSnapshot st, c).
Proof.
  intros [Hn Hh]. split; [exact Hn|].
  cbn [fst snd takeSnapshot heap nodes history] in *.
  unfold snapshot_update.
  assert (Hpushed :
    Forall (fun sn => ids_ok (heap st) c (Snapshot.nodes sn))
      (past (mkHistory (slice_last 20 (past (history st))
                        ++ [Snapshot.mk (nodes st) (edges st)]) [])
       ++ future (mkHistory (slice_last 20 (past (history st))
                             ++ [Snapshot.mk (nodes st) (edges st)]) []))).
  { cbn [past future]. rewrite app_nil_r. apply Forall_app. split.
    - apply Forall_app in Hh. destruct Hh as [Hp _].
      unfold slice_last. apply Forall_drop. exact Hp.
    - constructor; [exact Hn|constructor]. }
  destruct (last (past (history st))); [|exact Hpushed].
  destruct (same_serialisation _ _ _); [exact Hh|exact Hpushed].
Qed.

Lemma undo_Inv st c : Inv (st, c) -> Inv (undo st, c).
Proof.
  intros HI. destruct (last (past (history st))) as [s|] eqn:E.
  - apply last_Some in E. destruct E as [p E].
    rewrite (undo_snoc st p s E). destruct HI as [Hn Hh].
    cbn [fst snd heap nodes history past future] in *.
    rewrite E in Hh. rewrite !Forall_app, Forall_singleton in Hh.
    destruct Hh as [[Hp Hs] Hf].
    split; [exact Hs|]. cbn [fst snd heap history past future].
    apply Forall_app. split; [exact Hp|]. constructor; [exact Hn|exact Hf].
  - apply last_None in E. rewrite (undo_empty st E). exact HI.
Qed.

Lemma redo_Inv st c : Inv (st, c) -> Inv (redo st, c).
Proof.
  intros HI. destruct (future (history st)) as [|s f] eqn:E.
  - rewrite (redo_empty st E). exact HI.
  - rewrite (redo_cons st s f E). destruct HI as [Hn Hh].
    cbn [fst snd heap nodes history past future] in *.
    rewrite E in Hh. rewrite Forall_app, Forall_cons in Hh.
    destruct Hh as [Hp [Hs Hf]].
    split; [exact Hs|]. cbn [fst snd heap history past future].
    rewrite !Forall_app, Forall_singleton. split; [split|]; assumption.
Qed.

Lemma updateNodeData_evolves k p ls h :
  evolves h (fold_left (update_data_if_id k p) ls h).
Proof.
  intros l v Hr. rewrite (read_node_map_update k p ls h l v Hr).
  eexists. split; [reflexivity|].
  destruct (decide (l ∈ ls)); [|reflexivity].
  unfold updated. destruct (String.eqb (id v) k); reflexivity.
Qed.

Lemma updateNodeData_Inv k p st c :
  Inv (st, c) -> Inv (updateNodeData k p st, c).
Proof.
  intros HI. unfold updateNodeData. apply takeSnapshot_Inv.
  apply (Inv_change st c); [exact HI| |lia|].
  - apply updateNodeData_evolves.
  - apply (ids_ok_evolves (heap st) _ c c);
      [apply updateNodeData_evolves|lia|apply HI].
Qed.

Lemma NoDup_map_filter {A B} (f : A -> B) (P : A -> bool) (l : list A) :
  NoDup (map f l) -> NoDup (map f (List.filter P l)).
Proof.
  induction l as [|a l IH]; cbn; intros H; [constructor|].
  apply NoDup_cons in H. destruct H as [Ha Hl].
  destruct (P a); [|apply IH; exact Hl].
  cbn. apply NoDup_cons. split; [|apply IH; exact Hl].
  intros Hin. apply Ha. apply list_elem_of_In in Hin.
  apply map_filter_In in Hin. destruct Hin as (a' & Hin & _ & Hf).
  apply list_elem_of_In, in_map_iff. exists a'. split; assumption.
Qed.

Lemma Forall_map_filter {A B} (R : B -> Prop) (f : A -> B) (P : A -> bool)
    (l : list A) :
  Forall R (map f l) -> Forall R (map f (List.filter P l)).
Proof.
  rewrite !Forall_forall. intros H b Hb.
  apply list_elem_of_In, map_filter_In in Hb.
  destruct Hb as (a & Hin & _ & Hf). apply H.
  apply list_elem_of_In, in_map_iff. exists a. split; assumption.
Qed.

Lemma deleteNode_Inv k st c : Inv (st, c) -> Inv (deleteNode k st, c).
Proof.
  intros HI. apply takeSnapshot_Inv in HI.
  unfold deleteNode. cbv zeta.
  apply (Inv_change (takeSnapshot st) c); [exact HI|apply evolves_refl|lia|].
  destruct HI as [(vs & Hvs & Hnd & Hnum) _].
  cbn [fst snd] in *.
  exists (List.filter (other_than k) vs). split; [|split].
  - apply (read_nodes_filter _ _ (other_than k) _ vs Hvs).
    intros l v Hr. apply deleteNode_test. exact Hr.
  - apply NoDup_map_filter. exact Hnd.
  - apply Forall_map_filter. exact Hnum.
Qed.

Lemma onConnect_Inv added st c : Inv (st, c) -> Inv (onConnect added st, c).
Proof.
  intros HI. apply takeSnapshot_Inv in HI. unfold onConnect. cbv zeta.
  apply (Inv_change (takeSnapshot st) c);
    [exact HI|apply evolves_refl|lia|apply HI].
Qed.

Lemma onDrop_Inv ready type' op position st c :
  Inv (st, c) -> (c < 2 ^ 53)%N ->
  Inv (onDrop ready type' op position st c)
  /\ (snd (onDrop ready type' op position st c) <= c + 1)%N.
Proof.
  intros HI Hc. destruct ready.
  2: { unfold onDrop. cbn [negb]. split; [exact HI|cbn; lia]. }
  destruct (String.eqb_spec type' "") as [->|Hne].
  { unfold onDrop. cbn. split; [exact HI|lia]. }
  pose proof HI as [(vs & Hvs & Hnd & Hnum) _]. cbn [fst snd] in *.
  pose proof (onDrop_effect type' op position st c vs Hne Hvs) as He.
  cbv zeta in He. destruct He as (Hlive & _ & He).
  destruct (He Hc Hnd Hnum) as (Hc' & Hnd' & Hnum').
  rewrite (onDrop_ready _ _ _ _ _ Hne) in *. cbv zeta in *.
  cbn [fst snd] in *. split; [|lia].
  set (h2 := mkHeap _ _) in *.
  assert (Hev : evolves (heap st) h2).
  { apply evolves_grow; cbn; apply prefix_app_r; reflexivity. }
  assert (H1 : Inv (mkState h2 (nodes st) (edges st) (history st), c)).
  { apply (Inv_change st c); [exact HI|exact Hev|lia|].
    apply (ids_ok_evolves (heap st) h2 c c _ Hev ltac:(lia)). apply HI. }
  apply takeSnapshot_Inv in H1.
  apply (Inv_change _ c h2 (next_counter c)
           (nodes st ++ [length (node_objs (heap st))]) (edges st)) in H1.
  - exact H1.
  - apply evolves_refl.
  - lia.
  - eexists. split; [|split]; [|exact Hnd'|exact Hnum'].
    unfold live in Hlive. cbn [heap nodes] in Hlive.
    injection Hlive as Hlive. exact Hlive.
Qed.

(** *** The recalculation effect *)

Lemma recalculate_reads st vs :
  read_nodes (heap st) (nodes st) = Some vs ->
  recalculate st
  = mkState (fst (Store.calculateGraph (heap st) (nodes st) (edges st)))
      (if hasChanges vs (Pure.calculateGraph vs (edges st))
       then snd (Store.calculateGraph (heap st) (nodes st) (edges st))
       else nodes st)
      (edges st) (history st).
Proof.
  intros Hvs. unfold recalculate. cbv zeta.
  destruct (StoreMore.calculateGraph_reads _ _ (edges st) _ Hvs)
    as (_ & _ & H1 & H2).
  rewrite H1, H2. reflexivity.
Qed.

Lemma calculateGraph_kept_in_place vs edges :
  NoDup (map id vs) -> Forall2 Frame.kept vs (Pure.calculateGraph vs edges).
Proof.
  intros Hnd. pose proof (Frame.calculateGraph_kept vs edges) as Hk.
  rewrite (Frame.nodeMap_of_NoDup vs Hnd) in Hk. exact Hk.
Qed.

Lemma kept_same_ids vs calc :
  Forall2 Frame.kept vs calc -> map id calc = map id vs.
Proof.
  induction 1 as [|n c vs calc Hk _ IH]; [reflexivity|].
  cbn. rewrite IH. f_equal. apply Hk.
Qed.

Lemma find_by_id (calc : list AppNode) (c n : AppNode) :
  NoDup (map id calc) -> In c calc -> id c = id n ->
  find (fun cn => String.eqb (id cn) (id n)) calc = Some c.
Proof.
  intros Hnd Hin Hid. rewrite <- Hid.
  exact (EvaluatorMore.nodeMap_get_In calc c Hnd Hin).
Qed.

Lemma existsb_false_In {A} (f : A -> bool) (l : list A) x :
  existsb f l = false -> In x l -> f x = false.
Proof.
  intros H Hin. destruct (f x) eqn:E; [|reflexivity].
  rewrite <- H. symmetry. apply existsb_exists. exists x. split; assumption.
Qed.

Lemma hasChanges_false vs calc :
  Forall2 Frame.kept vs calc -> NoDup (map id calc) ->
  hasChanges vs calc = false ->
  Forall2 (fun n c => strict_neq (value (data c)) (value (data n)) = false)
    vs calc.
Proof.
  intros Hk Hnd Hc.
  apply Forall2_same_length_lookup_2; [exact (Forall2_length _ _ _ Hk)|].
  intros i n c Hn Hci.
  destruct (Forall2_lookup_l _ _ _ _ _ Hk Hn) as (c' & Hc' & Hkept).
  rewrite Hci in Hc'. injection Hc' as <-.
  assert (Hin : In n vs)
    by (apply list_elem_of_In, list_elem_of_lookup; exists i; exact Hn).
  assert (Hinc : In c calc)
    by (apply list_elem_of_In, list_elem_of_lookup; exists i; exact Hci).
  pose proof (existsb_false_In _ _ n Hc Hin) as Hf. cbv beta in Hf.
  rewrite (find_by_id calc c n Hnd Hinc (proj1 Hkept)) in Hf. exact Hf.
Qed.

(** X21.  After the effect ran on a graph of distinct ids, the live graph shows
    what [calculateGraph] computed: node for node, the live node is the
    calculated one, or it is the node as it was, which then has everything
    but [data.value] in common with the calculated one and a value that is
    [===] to the calculated value.  Edges and history are not touched, and
    the objects the store held keep their contents. *)
Theorem recalculate_shows_the_calculated_values st vs :
  read_nodes (heap st) (nodes st) = Some vs ->
  NoDup (map id vs) ->
  exists shown,
    live (recalculate st) = (Some shown, edges st)
    /\ Forall2
         (fun n c =>
            n = c
            \/ (Frame.kept n c
                /\ strict_neq (value (data c)) (value (data n)) = false))
         shown (Pure.calculateGraph vs (edges st))
    /\ history (recalculate st) = history st
    /\ forall l v, read_node (heap st) l = Some v ->
         read_node (heap (recalculate st)) l = Some v.
Proof.
  intros Hvs Hnd. rewrite (recalculate_reads st vs Hvs).
  destruct (StoreMore.calculateGraph_reads _ _ (edges st) _ Hvs)
    as (HN & HD & H1 & H2).
  pose proof (calculateGraph_kept_in_place vs (edges st) Hnd) as Hk.
  unfold live. cbn [heap nodes edges history].
  destruct (hasChanges vs (Pure.calculateGraph vs (edges st))) eqn:Hc.
  - exists (Pure.calculateGraph vs (edges st)). rewrite H2.
    split; [reflexivity|]. split; [|split; [reflexivity|]].
    + apply Forall_Forall2_diag, Forall_forall. intros n _. left. reflexivity.
    + intros l v Hr. exact (StoreFacts.read_node_grow _ _ l v HN HD Hr).
  - exists vs. rewrite H1. split; [reflexivity|]. split; [|split; [reflexivity|]].
    + pose proof (hasChanges_false vs _ Hk
                    (EvaluatorMore.calculateGraph_ids_NoDup vs (edges st)) Hc)
        as Hv.
      apply Forall2_same_length_lookup_2; [exact (Forall2_length _ _ _ Hk)|].
      intros i n c Hn Hci. right.
      destruct (Forall2_lookup_l _ _ _ _ _ Hk Hn) as (c' & Hc' & Hkept).
      destruct (Forall2_lookup_l _ _ _ _ _ Hv Hn) as (c'' & Hc'' & Hval).
      rewrite Hci in Hc', Hc''. injection Hc' as <-. injection Hc'' as <-.
      split; assumption.
    + intros l v Hr. exact (StoreFacts.read_node_grow _ _ l v HN HD Hr).
Qed.

Lemma recalculate_shows_the_calculated_values_witness :
  exists shown,
    live (recalculate initialState) = (Some shown, initialEdges)
    /\ Forall2
         (fun n c =>
            n = c
            \/ (Frame.kept n c
                /\ strict_neq (value (data c)) (value (data n)) = false))
         shown (Pure.calculateGraph initialNodes initialEdges).
Proof.
  destruct (recalculate_shows_the_calculated_values initialState initialNodes)
    as (shown & H1 & H2 & _).
  - reflexivity.
  - refine (bool_decide_unpack _ _). vm_compute. exact I.
  - exists shown. split; assumption.
Defined.

Lemma hasChanges_same (calc : list AppNode) :
  NoDup (map id calc) ->
  (forall n u, In n calc -> value (data n) = Some u -> PrimFloat.eqb u u = true) ->
  hasChanges calc calc = false.
Proof.
  intros Hnd Hself. unfold hasChanges.
  destruct (existsb _ calc) eqn:E; [|reflexivity].
  apply existsb_exists in E. destruct E as (n & Hin & Hn).
  rewrite (find_by_id calc n n Hnd Hin eq_refl) in Hn.
  unfold strict_neq in Hn. destruct (value (data n)) as [u|] eqn:Ev;
    [|discriminate].
  rewrite (Hself n u Hin Ev) in Hn. discriminate.
Qed.

(** X22.  When the evaluation ended because a pass changed nothing and no value
    of its result is NaN, the effect settles: run a second time, with
    nothing edited in between, it keeps the array of nodes, and the live
    graph reads as after the first run. *)
Theorem recalculate_settles st vs :
  read_nodes (heap st) (nodes st) = Some vs ->
  NoDup (map id vs) ->
  changed (Pure.run vs (edges st)) = false ->
  (forall n u, In n (Pure.calculateGraph vs (edges st)) ->
     value (data n) = Some u -> PrimFloat.eqb u u = true) ->
  nodes (recalculate (recalculate st)) = nodes (recalculate st)
  /\ live (recalculate (recalculate st)) = live (recalculate st).
Proof.
  intros Hvs Hnd Hstable Hself.
  destruct (StoreMore.calculateGraph_reads _ _ (edges st) _ Hvs)
    as (HN & HD & H1 & H2).
  rewrite (recalculate_reads st vs Hvs).
  set (h1 := fst (Store.calculateGraph (heap st) (nodes st) (edges st))) in *.
  set (out := snd (Store.calculateGraph (heap st) (nodes st) (edges st))) in *.
  set (calc := Pure.calculateGraph vs (edges st)) in *.
  assert (Hgen : forall ns ws,
    read_nodes h1 ns = Some ws ->
    hasChanges ws (Pure.calculateGraph ws (edges st)) = false ->
    nodes (recalculate (mkState h1 ns (edges st) (history st))) = ns
    /\ live (recalculate (mkState h1 ns (edges st) (history st)))
       = live (mkState h1 ns (edges st) (history st))).
  { intros ns ws Hws Hno.
    rewrite (recalculate_reads (mkState h1 ns (edges st) (history st)) ws Hws).
    cbn [heap nodes edges history]. rewrite Hno.
    split; [reflexivity|]. unfold live. cbn [heap nodes edges].
    destruct (StoreMore.calculateGraph_reads h1 ns (edges st) ws Hws)
      as (_ & _ & Hr & _).
    rewrite Hr, Hws. reflexivity. }
  destruct (hasChanges vs calc) eqn:Hc.
  - apply (Hgen out calc H2).
    assert (Hfix : Pure.calculateGraph calc (edges st) = calc).
    { apply EvaluatorMore.settled_result_reevaluated.
      apply pass_stable_FixedAll.
      rewrite (run_unchanged_stable vs (edges st) Hstable). reflexivity. }
    rewrite Hfix. apply hasChanges_same; [|exact Hself].
    apply EvaluatorMore.calculateGraph_ids_NoDup.
  - apply (Hgen (nodes st) vs H1 Hc).
Qed.

Lemma recalculate_settles_witness :
  nodes (recalculate (recalculate initialState))
  = nodes (recalculate initialState)
  /\ live (recalculate (recalculate initialState))
     = live (recalculate initialState).
Proof.
  apply (recalculate_settles initialState initialNodes).
  - reflexivity.
  - refine (bool_decide_unpack _ _). vm_compute. exact I.
  - vm_compute. reflexivity.
  - intros n u Hin. revert n Hin u.
    apply (proj1 (List.Forall_forall (fun n : AppNode => forall u,
             value (data n) = Some u -> PrimFloat.eqb u u = true) _)).
    vm_compute.
    repeat (constructor; [intros u Hu; try discriminate;
                          injection Hu as <-; vm_compute; reflexivity|]).
    constructor.
Defined.

Lemma eqb_nan_l (u : float) : PrimFloat.eqb nan u = false.
Proof.
  rewrite FloatAxioms.eqb_spec. unfold SFeqb.
  replace (Prim2SF nan) with S754_nan by reflexivity. reflexivity.
Qed.

(** X23.  A graph whose evaluation holds NaN somewhere is replaced at every run
    of the effect, changed or not: the live array becomes the array that
    [calculateGraph] returned, none of whose objects is an object of the
    array before. *)
Theorem recalculate_replaces_a_graph_with_NaN st vs c :
  read_nodes (heap st) (nodes st) = Some vs ->
  NoDup (map id vs) ->
  In c (Pure.calculateGraph vs (edges st)) ->
  value (data c) = Some nan ->
  nodes (recalculate st)
  = snd (Store.calculateGraph (heap st) (nodes st) (edges st))
  /\ forall l, In l (nodes (recalculate st)) -> ~ In l (nodes st).
Proof.
  intros Hvs Hnd Hin Hnan.
  pose proof (calculateGraph_kept_in_place vs (edges st) Hnd) as Hk.
  assert (Hc : hasChanges vs (Pure.calculateGraph vs (edges st)) = true).
  { apply list_elem_of_In, list_elem_of_lookup in Hin. destruct Hin as [i Hi].
    destruct (Forall2_lookup_r _ _ _ _ _ Hk Hi) as (n & Hn & Hkept).
    unfold hasChanges. apply existsb_exists. exists n. split.
    - apply list_elem_of_In, list_elem_of_lookup. exists i. exact Hn.
    - rewrite (find_by_id _ c n
                 (EvaluatorMore.calculateGraph_ids_NoDup vs (edges st))).
      + rewrite Hnan. unfold strict_neq.
        destruct (value (data n)); [|reflexivity].
        rewrite eqb_nan_l. reflexivity.
      + apply list_elem_of_In, list_elem_of_lookup. exists i. exact Hi.
      + apply Hkept. }
  rewrite (recalculate_reads st vs Hvs), Hc. cbn [nodes].
  split; [reflexivity|]. intros l Hl.
  pose proof (StoreMore.calculateGraph_fresh (heap st) (nodes st) (edges st) vs
                Hvs) as Hf.
  cbv zeta in Hf. destruct Hf as (_ & Hnew & _). apply (Hnew l Hl).
Qed.

Lemma recalculate_replaces_a_graph_with_NaN_witness :
  let st := mkState (fst (store_of taint_nodes)) (snd (store_of taint_nodes))
              taint_edges (mkHistory [] []) in
  nodes (recalculate st)
  = snd (Store.calculateGraph (heap st) (nodes st) (edges st))
  /\ forall l, In l (nodes (recalculate st)) -> ~ In l (nodes st).
Proof.
  apply (recalculate_replaces_a_graph_with_NaN _ taint_nodes
           (mkNode "d" (Some NodeType.MATH) (mkXY 200 50)
              (mkNodeData None (Some nan) None (Some MathOperation.divide)
                 None))).
  - reflexivity.
  - refine (bool_decide_unpack _ _). vm_compute. exact I.
  - vm_compute. tauto.
  - reflexivity.
Defined.

(** *** The ids over a session *)

Lemma recalculate_Inv st c : Inv (st, c) -> Inv (recalculate st, c).
Proof.
  intros HI. pose proof HI as [(vs & Hvs & Hnd & Hnum) _]. cbn [fst snd] in *.
  destruct (StoreMore.calculateGraph_reads _ _ (edges st) _ Hvs)
    as (HN & HD & H1 & H2).
  rewrite (recalculate_reads st vs Hvs).
  apply (Inv_change st c); [exact HI|apply evolves_grow; assumption|lia|].
  destruct (hasChanges vs (Pure.calculateGraph vs (edges st))).
  - exists (Pure.calculateGraph vs (edges st)).
    rewrite (kept_same_ids _ _ (calculateGraph_kept_in_place vs (edges st) Hnd)).
    split; [exact H2|]. split; assumption.
  - exists vs. split; [exact H1|]. split; assumption.
Qed.

Lemma mount_Inv st c : Inv (st, c) -> Inv (mount st, c).
Proof.
  intros HI. pose proof HI as [(vs & Hvs & Hnd & Hnum) _]. cbn [fst snd] in *.
  destruct (mount_reads st vs Hvs) as (HN & HD & Hr & _).
  change (mount st)
    with (mkState (heap (mount st)) (nodes (mount st)) (edges st) (history st)).
  apply (Inv_change st c); [exact HI|apply evolves_grow; assumption|lia|].
  exists (map with_onChange vs). rewrite map_map. cbn [with_onChange id].
  split; [exact Hr|]. split; assumption.
Qed.

Lemma step_Inv s a :
  Inv s -> (snd s < 2 ^ 53)%N ->
  Inv (step s a) /\ (snd (step s a) <= snd s + 1)%N.
Proof.
  destruct s as [st c]. intros HI Hc. cbn [fst snd] in Hc.
  destruct a; cbn [step fst snd].
  - apply onDrop_Inv; assumption.
  - split; [apply updateNodeData_Inv; exact HI|lia].
  - split; [|lia]. change (updateNodeValue k val st)
      with (updateNodeData k (mkPartial None None (Some (Some val)) None None) st).
    apply updateNodeData_Inv. exact HI.
  - split; [apply deleteNode_Inv; exact HI|lia].
  - split; [apply takeSnapshot_Inv; exact HI|lia].
  - split; [apply onConnect_Inv; exact HI|lia].
  - split; [apply undo_Inv; exact HI|lia].
  - split; [apply redo_Inv; exact HI|lia].
  - split; [apply recalculate_Inv; exact HI|lia].
  - split; [apply mount_Inv; exact HI|lia].
Qed.

Lemma session_Inv actions : forall s,
  Inv s -> (snd s + N.of_nat (length actions) <= 2 ^ 53)%N ->
  Inv (session actions s).
Proof.
  induction actions as [|a actions IH]; intros s HI Hc; [exact HI|].
  cbn [session fold_left]. cbn [length] in Hc.
  destruct (step_Inv s a HI ltac:(lia)) as [HI' Hc'].
  apply IH; [exact HI'|lia].
Qed.

Lemma start_Inv : Inv start.
Proof.
  split; [|constructor].
  exists initialNodes. split; [reflexivity|]. split.
  - refine (bool_decide_unpack _ _). vm_compute. exact I.
  - cbn. repeat constructor.
    + exists 1%N. split; [lia|reflexivity].
    + exists 2%N. split; [lia|reflexivity].
    + exists 3%N. split; [lia|reflexivity].
    + exists 4%N. split; [lia|reflexivity].
Qed.

(** X24.  From the start of the application and through any session of drops,
    edits of node data, deletions, drags, connections, undo, redo and runs
    of the two effects, as long as the counter of [getId] stays below 2^53: the
    nodes of the live graph have pairwise distinct ids, and so have the
    nodes of every snapshot in [past] and [future]; all of them are objects
    of the store with data. *)
Theorem node_ids_stay_distinct actions :
  (5 + N.of_nat (length actions) <= 2 ^ 53)%N ->
  let st := fst (session actions start) in
  (exists vs, read_nodes (heap st) (nodes st) = Some vs /\ NoDup (map id vs))
  /\ Forall (fun sn => exists ws,
                read_nodes (heap st) (Snapshot.nodes sn) = Some ws
                /\ NoDup (map id ws))
       (past (history st) ++ future (history st)).
Proof.
  intros Hc. cbv zeta.
  destruct (session_Inv actions start start_Inv Hc) as [Hn Hh].
  split.
  - destruct Hn as (vs & Hvs & Hnd & _). exists vs. split; assumption.
  - eapply Forall_impl; [exact Hh|]. intros sn (ws & Hws & Hnd & _).
    exists ws. split; assumption.
Qed.

(** A session: the two effects after the first render, a node dropped, its
    operation set, a node deleted, undo, and the effect. *)
Definition a_session : list Action :=
  [ act_mount;
    act_recalculate;
    act_onDrop true NodeType.MATH (Some MathOperation.add) (mkXY 10 20);
    act_updateNodeData "5"
      (mkPartial None None None (Some (Some MathOperation.multiply)) None);
    act_deleteNode "3";
    act_undo;
    act_recalculate ].

Lemma node_ids_stay_distinct_witness :
  let st := fst (session a_session start) in
  (exists vs, read_nodes (heap st) (nodes st) = Some vs /\ NoDup (map id vs))
  /\ Forall (fun sn => exists ws,
                read_nodes (heap st) (Snapshot.nodes sn) = Some ws
                /\ NoDup (map id ws))
       (past (history st) ++ future (history st)).
Proof.
  apply (node_ids_stay_distinct a_session). vm_compute. discriminate.
Defined.

End Session.

(** ** undo after an edit *)

Module EditorUndo.
Import App Editor HistoryFacts EditorFacts Session.

Lemma undo_heap st : heap (undo st) = heap st.
Proof.
  unfold undo. destruct (_ =? 0)%nat; [reflexivity|].
  destruct (last _); reflexivity.
Qed.

(** X18.  [undo] does not take back an edit of node data that pushed a snapshot:
    the array of nodes that comes back is made of the node objects that
    were edited in place, so the live graph after [undo] reads exactly as
    after the edit. *)
Theorem undo_does_not_revert_a_data_edit k newData st vs :
  read_nodes (heap st) (nodes st) = Some vs ->
  history (updateNodeData k newData st) <> history st ->
  nodes (undo (updateNodeData k newData st)) = nodes st
  /\ live (undo (updateNodeData k newData st))
     = live (updateNodeData k newData st)
  /\ live (undo (updateNodeData k newData st))
     = (Some (map (updated k newData) vs), edges st).
Proof.
  intros Hvs Hne.
  set (h' := fold_left (update_data_if_id k newData) (nodes st) (heap st)).
  pose proof (undo_redo_after_snapshot
                (mkState h' (nodes st) (edges st) (history st))
                h' (nodes st) (edges st) Hne) as H.
  cbv zeta in H. destruct H as (Hn & He & _).
  change (set_graph h' (nodes st) (edges st)
            (takeSnapshot (mkState h' (nodes st) (edges st) (history st))))
    with (updateNodeData k newData st) in Hn, He.
  cbn [nodes edges] in Hn, He.
  assert (Hlive : live (undo (updateNodeData k newData st))
                  = live (updateNodeData k newData st)).
  { unfold live. rewrite undo_heap, Hn, He. reflexivity. }
  split; [exact Hn|]. split; [exact Hlive|].
  rewrite Hlive. unfold live, updateNodeData.
  cbn [takeSnapshot heap nodes edges].
  rewrite (read_nodes_map_update k newData st vs Hvs). reflexivity.
Qed.

Lemma undo_does_not_revert_a_data_edit_witness :
  let p := mkPartial None None None (Some (Some MathOperation.multiply)) None in
  live (undo (updateNodeData "3" p initialState))
  = (Some (map (updated "3" p) initialNodes), initialEdges).
Proof.
  refine (proj2 (proj2 (undo_does_not_revert_a_data_edit "3"
            (mkPartial None None None (Some (Some MathOperation.multiply)) None)
            initialState initialNodes eq_refl _))).
  vm_compute. discriminate.
Defined.

(** X20.  [undo] takes back a drop that pushed a snapshot: the live graph reads
    as before the drop, and [redo] brings the dropped node back.  The
    counter of [getId] is not taken back. *)
Theorem undo_removes_the_dropped_node type' op position st counter vs :
  type' <> "" ->
  read_nodes (heap st) (nodes st) = Some vs ->
  history (fst (onDrop true type' op position st counter)) <> history st ->
  live (undo (fst (onDrop true type' op position st counter))) = live st
  /\ redo (undo (fst (onDrop true type' op position st counter)))
     = fst (onDrop true type' op position st counter)
  /\ snd (onDrop true type' op position st counter) = next_counter counter.
Proof.
  intros Hne Hvs. rewrite (onDrop_ready _ _ _ _ _ Hne). cbv zeta.
  cbn [fst snd history]. set (h2 := mkHeap _ _). intros Hpush.
  pose proof (undo_redo_after_snapshot
                (mkState h2 (nodes st) (edges st) (history st)) h2
                (nodes st ++ [length (node_objs (heap st))]) (edges st) Hpush)
    as H.
  cbv zeta in H. destruct H as (_ & _ & _ & Hredo & _ & _ & Hlive).
  unfold set_graph in *. cbn [heap nodes edges history] in *.
  split; [|split; [exact Hredo|reflexivity]].
  rewrite (Hlive eq_refl). unfold live. cbn [heap nodes edges].
  rewrite Hvs. f_equal.
  apply mapM_Some. apply mapM_Some in Hvs.
  eapply Forall2_impl; [exact Hvs|]. intros l v Hr.
  apply read_node_snoc. exact Hr.
Qed.

Lemma undo_removes_the_dropped_node_witness :
  live (undo (fst (onDrop true NodeType.MATH (Some MathOperation.add)
                     (mkXY 10 20) initialState 5%N)))
  = live initialState.
Proof.
  refine (proj1 (undo_removes_the_dropped_node NodeType.MATH
                   (Some MathOperation.add) (mkXY 10 20) initialState 5%N
                   initialNodes _ eq_refl _)).
  - vm_compute. discriminate.
  - vm_compute. discriminate.
Defined.

End EditorUndo.

(** ** Edits and the evaluation *)

Module EditsAndEvaluation.
Import Pure PureFacts Resolution App Editor EditorFacts Session.

(** *** A node that nothing refers to *)

Lemma nodeMap_get_snoc_other (m : list AppNode) (x : AppNode) k :
  k <> id x -> nodeMap_get (m ++ [x]) k = nodeMap_get m k.
Proof.
  intros Hk. unfold nodeMap_get. rewrite EvaluatorMore.find_app_first.
  destruct (find _ m); [reflexivity|]. cbn.
  destruct (String.eqb_spec (id x) k); [congruence|reflexivity].
Qed.

Lemma newValue_snoc edges (m : list AppNode) (x node : AppNode) :
  (forall e, In e edges -> source e <> id x) ->
  newValue (nodeMap_get (m ++ [x])) edges node
  = newValue (nodeMap_get m) edges node.
Proof.
  intros Hsrc. unfold newValue, getSourceValue.
  repeat match goal with
         | |- context [find ?p edges] =>
             let E := fresh "E" in
             destruct (find p edges) eqn:E;
             [apply find_some in E; destruct E as [E _];
              rewrite (nodeMap_get_snoc_other m x _ (Hsrc _ E))|]
         end; reflexivity.
Qed.

Lemma visit_snoc edges (m : list AppNode) (x : AppNode) i :
  (forall e, In e edges -> source e <> id x) ->
  i < length m ->
  visit edges (m ++ [x]) i
  = (fst (visit edges m i) ++ [x], snd (visit edges m i)).
Proof.
  intros Hsrc Hi. destruct (lookup_lt_is_Some_2 m i Hi) as [node Hn].
  rewrite (visit_Some edges m i node Hn).
  rewrite (visit_Some edges (m ++ [x]) i node (lookup_app_l_Some _ _ _ _ Hn)).
  unfold visited, flags. rewrite (newValue_snoc edges m x node Hsrc).
  cbn [fst snd]. rewrite insert_app_l by exact Hi. reflexivity.
Qed.

Lemma visit_from_snoc edges (x : AppNode)
    (Hsrc : forall e, In e edges -> source e <> id x) n :
  forall i (m : list AppNode) c,
    i + n <= length m ->
    visit_from edges n i (m ++ [x]) c
    = (fst (visit_from edges n i m c) ++ [x], snd (visit_from edges n i m c)).
Proof.
  induction n as [|n IH]; intros i m c Hi; [reflexivity|].
  cbn [visit_from]. rewrite (visit_snoc edges m x i Hsrc) by lia.
  pose proof (visit_length edges m i) as Hlen.
  destruct (visit edges m i) as [m' c']. cbn [fst snd] in *.
  apply IH. lia.
Qed.

Lemma visit_from_add edges n k : forall i (m : list AppNode) c,
  visit_from edges (n + k) i m c
  = visit_from edges k (i + n) (fst (visit_from edges n i m c))
      (snd (visit_from edges n i m c)).
Proof.
  induction n as [|n IH]; intros i m c.
  - cbn. rewrite Nat.add_0_r. reflexivity.
  - cbn [Nat.add visit_from]. destruct (visit edges m i) as [m' c'].
    rewrite IH. replace (S i + n) with (i + S n) by lia. reflexivity.
Qed.

(** The node has nothing to compute: it is an Input node, or it has no
    value and no edge ends at it. *)
Definition idle (edges : list AppEdge) (x : AppNode) : Prop :=
  type_is x NodeType.INPUT = true
  \/ (value (data x) = None /\ forall e, In e edges -> target e <> id x).

Lemma visit_idle edges (m : list AppNode) (x : AppNode) :
  idle edges x -> visit edges (m ++ [x]) (length m) = (m ++ [x], false).
Proof.
  intros Hidle. unfold visit.
  rewrite lookup_app_r, Nat.sub_diag by lia. cbn [lookup list_lookup].
  destruct (type_is x NodeType.INPUT) eqn:Et; [reflexivity|].
  destruct Hidle as [Hin|[Hv Hno]]; [congruence|].
  rewrite (newValue_unresolvable (m ++ [x]) edges (m ++ [x]) x).
  - rewrite Hv. reflexivity.
  - intros k Hk. exact Hk.
  - split; intros _; [|left]; apply no_inbound_unresolvable; exact Hno.
Qed.

Lemma pass_snoc edges (m : list AppNode) (x : AppNode) :
  (forall e, In e edges -> source e <> id x) -> idle edges x ->
  pass edges (m ++ [x]) = (fst (pass edges m) ++ [x], snd (pass edges m)).
Proof.
  intros Hsrc Hidle. unfold pass. rewrite length_app. cbn [length].
  rewrite visit_from_add, (visit_from_snoc edges x Hsrc) by lia.
  cbn [fst snd Nat.add visit_from].
  pose proof (visit_from_length edges (length m) 0 m false) as Hlen.
  set (m1 := fst (visit_from edges (length m) 0 m false)) in *.
  set (c1 := snd (visit_from edges (length m) 0 m false)).
  rewrite <- Hlen, (visit_idle edges m1 x Hidle), orb_false_r. reflexivity.
Qed.

Lemma while_loop_snoc edges (x : AppNode)
    (Hsrc : forall e, In e edges -> source e <> id x)
    (Hidle : idle edges x) (s : LoopState (list AppNode)) :
  while_loop (pass edges) (mkLoop (current s ++ [x]) (changed s) (iterations s))
  = mkLoop (current (while_loop (pass edges) s) ++ [x])
      (changed (while_loop (pass edges) s))
      (iterations (while_loop (pass edges) s)).
Proof.
  remember (passes_left s) as n eqn:Hn. revert s Hn.
  induction n as [n IH] using lt_wf_ind. intros s Hn.
  rewrite (while_loop_step (pass edges) s), (while_loop_step (pass edges) (mkLoop _ _ _)).
  unfold loop_cond at 1. cbn [changed iterations]. fold (loop_cond s).
  destruct (loop_cond s) eqn:E; [|reflexivity].
  pose proof (loop_body_decreases (pass edges) s E) as Hdec.
  assert (Hb : loop_body (pass edges)
                 (mkLoop (current s ++ [x]) (changed s) (iterations s))
               = mkLoop (current (loop_body (pass edges) s) ++ [x])
                   (changed (loop_body (pass edges) s))
                   (iterations (loop_body (pass edges) s))).
  { unfold loop_body. cbn [current iterations].
    rewrite (pass_snoc edges _ x Hsrc Hidle).
    destruct (pass edges (current s)). reflexivity. }
  rewrite Hb.
  apply (IH (passes_left (loop_body (pass edges) s)));
    [subst n; exact Hdec|reflexivity].
Qed.

(** X26.  A node that no edge starts at, whose id no other node has and that
    has nothing to compute (an Input node, or a node without value that no
    edge ends at) does not disturb the evaluation: the result for the graph
    with the node added at its end is the result for the graph, followed by
    the node as it is, after as many passes.  Such is the node that [onDrop]
    appends. *)
Theorem isolated_node_is_left_alone nodes edges (x : AppNode) :
  ~ In (id x) (map id nodes) ->
  (forall e, In e edges -> source e <> id x) ->
  idle edges x ->
  calculateGraph (nodes ++ [x]) edges = calculateGraph nodes edges ++ [x]
  /\ iterations (run (nodes ++ [x]) edges) = iterations (run nodes edges)
  /\ changed (run (nodes ++ [x]) edges) = changed (run nodes edges).
Proof.
  intros Hfresh Hsrc Hidle.
  assert (Hmap : nodeMap_of (nodes ++ [x]) = nodeMap_of nodes ++ [x]).
  { unfold nodeMap_of. rewrite fold_left_app. cbn [fold_left].
    apply Frame.nodeMap_set_fresh. intros Hin. apply Hfresh.
    apply (proj1 (nodeMap_of_ids_In nodes (id x))). exact Hin. }
  unfold calculateGraph, run. rewrite Hmap.
  pose proof (while_loop_snoc edges x Hsrc Hidle
                (mkLoop (nodeMap_of nodes) true 0)) as Hrun.
  cbn [current changed iterations] in Hrun. rewrite Hrun.
  repeat split.
Qed.

Lemma isolated_node_is_left_alone_witness :
  calculateGraph
    (initialNodes
     ++ [dropped_node NodeType.MATH (Some MathOperation.add) (mkXY 10 20) 5%N])
    initialEdges
  = calculateGraph initialNodes initialEdges
    ++ [dropped_node NodeType.MATH (Some MathOperation.add) (mkXY 10 20) 5%N].
Proof.
  refine (proj1 (isolated_node_is_left_alone initialNodes initialEdges
                   (dropped_node NodeType.MATH (Some MathOperation.add)
                      (mkXY 10 20) 5%N) _ _ _)).
  - vm_compute. intuition discriminate.
  - intros e He. vm_compute in He. vm_compute.
    intuition (subst; discriminate).
  - right. split; [reflexivity|]. intros e He. vm_compute in He. vm_compute.
    intuition (subst; discriminate).
Defined.

(** *** A node whose sources were deleted *)

Lemma no_inbound_no_value nodes edges (n : AppNode) :
  In n (calculateGraph nodes edges) ->
  type_is n NodeType.INPUT = false ->
  (forall e, In e edges -> target e <> id n) ->
  value (data n) = None.
Proof.
  intros Hin Hty Hno.
  destruct (run_last_pass nodes edges) as (m & Hres & Hids).
  rewrite Hres in Hin.
  pose (P := fun x : AppNode =>
    type_is x NodeType.INPUT = false ->
    (forall e, In e edges -> target e <> id x) -> value (data x) = None).
  assert (HP : P n); [|exact (HP Hty Hno)].
  apply (pass_establishes P edges m); [|exact Hin].
  intros m' node Hm' _. unfold P, visited.
  destruct (type_is node NodeType.INPUT) eqn:E; [congruence|].
  rewrite settle_id. intros _ Hno'.
  rewrite (newValue_unresolvable m' edges m' node); [apply settle_None| |].
  - intros k Hk. exact Hk.
  - split; intros _; [|left]; apply no_inbound_unresolvable; exact Hno'.
Qed.

(** X27.  After [deleteNode id], a node all of whose inbound edges started at
    the deleted id has no inbound edge left, and the evaluation of the graph
    that the deletion leaves gives it the value undefined, whatever value it
    had. *)
Theorem deleting_the_sources_clears_a_node k st vs' es' (n : AppNode) :
  live (deleteNode k st) = (Some vs', es') ->
  In n (calculateGraph vs' es') ->
  type_is n NodeType.INPUT = false ->
  (forall e, In e (edges st) -> target e = id n -> source e = k) ->
  (forall e, In e es' -> target e <> id n) /\ value (data n) = None.
Proof.
  intros Hlive Hin Hty Honly.
  assert (Hno : forall e, In e es' -> target e <> id n).
  { unfold live, deleteNode in Hlive. cbn [takeSnapshot heap nodes edges] in Hlive.
    injection Hlive as _ <-. intros e He Ht.
    apply filter_In in He. destruct He as [He Haway].
    apply andb_prop in Haway. destruct Haway as [Hs _].
    apply negb_true_iff, String.eqb_neq in Hs.
    exact (Hs (Honly e He Ht)). }
  split; [exact Hno|].
  exact (no_inbound_no_value vs' es' n Hin Hty Hno).
Qed.

(** The Output node of the initial graph once the operator node is
    deleted. *)
Lemma deleting_the_sources_clears_a_node_witness :
  (forall e, In e (List.filter (away_from "3") initialEdges) ->
     target e <> id (output_node "4" 600 125 None))
  /\ value (data (output_node "4" 600 125 None)) = None.
Proof.
  refine (deleting_the_sources_clears_a_node "3" initialState
            (List.filter (other_than "3") initialNodes)
            (List.filter (away_from "3") initialEdges)
            (output_node "4" 600 125 None) _ _ _ _).
  - reflexivity.
  - vm_compute. tauto.
  - reflexivity.
  - intros e He Ht. vm_compute in He.
    destruct He as [<-|[<-|[<-|[]]]]; vm_compute in Ht;
      try discriminate; reflexivity.
Defined.

End EditsAndEvaluation.

(** ** The history over a session of edits *)

Module HistoryOfEdits.
Import App Editor HistoryFacts Session.

(** An edit of a value made while the top of [past] holds the arrays of the
    live graph is not recorded: the objects are written, the two
    serialisations that the updater of [takeSnapshot] compares are of the
    same objects, and the history is returned as it was. *)
Lemma value_edit_over_its_snapshot k val st :
  last (past (history st)) = Some (current_snapshot st) ->
  history (updateNodeValue k val st) = history st
  /\ nodes (updateNodeValue k val st) = nodes st
  /\ edges (updateNodeValue k val st) = edges st.
Proof.
  intros Hl. split; [|split; reflexivity].
  unfold updateNodeValue. cbn [takeSnapshot history heap nodes edges].
  apply (snapshot_update_same _ _ _ _ _ Hl).
  apply HistoryMore.same_serialisation_refl.
Qed.

(** No two numbers of the list are [===]. *)
Fixpoint all_differ (l : list float) : bool :=
  match l with
  | [] => true
  | v :: l' => forallb (fun w => negb (PrimFloat.eqb v w)) l' && all_differ l'
  end.

Definition values_1_to_24 : list float :=
  [ 1; 2; 3; 4; 5; 6; 7; 8; 9; 10; 11; 12; 13; 14; 15; 16; 17; 18; 19; 20;
    21; 22; 23; 24 ]%float.

(** The two effects of the first render, in the order of their
    declaration; an Input node dropped from the palette, which gets the id
    5; then its value set to 1, 2, ..., 24.  The recalculation effect runs
    after every step. *)
Definition drop_then_24_value_edits : list Action :=
  [ act_recalculate; act_mount;
    act_onDrop true NodeType.INPUT None (mkXY 10 20); act_recalculate ]
  ++ flat_map (fun v => [act_updateNodeValue "5" v; act_recalculate])
       values_1_to_24.

(** The actions of the user, as opposed to the effects. *)
Definition is_mutation (a : Action) : bool :=
  match a with
  | act_mount | act_recalculate => false
  | _ => true
  end.

(** The value that the Input node of id [k] shows in the live graph. *)
Definition shown_inputValue (st : State) (k : string) : option float :=
  match read_nodes (heap st) (nodes st) with
  | Some vs =>
      match find (fun n => String.eqb (id n) k) vs with
      | Some n => inputValue (data n)
      | None => None
      end
  | None => None
  end.

(** C8.  From the start of the application, with an empty history, 25
    mutations that each call [takeSnapshot] and each change the graph, a
    drop and 24 edits of a value to 24 different numbers, leave 2 entries
    in [past], not 21: the graph before the drop and the array that the
    first edit pushed.  Every later edit writes to the objects that the top
    of [past] holds, and is not recorded.  The entry on top holds the
    arrays of the live graph, and reads as the graph after the last
    edit. *)
Theorem value_edits_are_not_recorded :
  let st := fst (session drop_then_24_value_edits start) in
  history (fst start) = mkHistory [] []
  /\ length (List.filter is_mutation drop_then_24_value_edits) = 25
  /\ all_differ (0%float :: values_1_to_24) = true
  /\ length (past (history st)) = 2
  /\ future (history st) = []
  /\ last (past (history st)) = Some (current_snapshot st)
  /\ shown_inputValue st "5" = Some 24%float.
Proof. vm_compute. repeat split. Qed.

(** Drops, which build a new array of nodes and write to no object of the
    graph, are recorded: after 25 of them [past] holds the last 21 of the
    25 graphs that were live before a drop, those of 8, 9, ..., 28 nodes. *)
Definition twenty_five_drops : list Action :=
  [ act_recalculate; act_mount ]
  ++ flat_map
       (fun _ : nat =>
          [act_onDrop true NodeType.INPUT None (mkXY 10 20); act_recalculate])
       (seq 0 25).

Example drops_are_recorded :
  let st := fst (session twenty_five_drops start) in
  length (List.filter is_mutation twenty_five_drops) = 25
  /\ length (past (history st)) = 21
  /\ map (fun sn => length (Snapshot.nodes sn)) (past (history st))
     = seq 8 21
  /\ option_map length (fst (live st)) = Some 29.
Proof. vm_compute. repeat split. Qed.

End HistoryOfEdits.
